(** * Complaints Tracker: audit chain and redaction engine

    A shallow embedding of the two algorithmic fragments of the
    Complaints Tracker application (app.js): the hash-chained history
    log ([sha256Hex], [appendHistory], [verifyHistoryChain] and the
    backfill loop of [Data.init]) and the redaction pass ([maskText],
    [redactComplaintDeep]).

    JavaScript strings are sequences of UTF-16 code units; they are
    modelled as lists of numbers, so that regular expressions, the
    [TextEncoder] and string equality see exactly what the engine sees. *)

From Stdlib Require Import List NArith ZArith Bool Lia String Ascii DecimalString.
From stdpp Require Import base decidable option numbers list.
Import ListNotations.

Open Scope N_scope.

(** Linear arithmetic extended with division and remainder by constants. *)
Ltac nlia := zify; Z.to_euclidean_division_equations; lia.

(* ===================================================================== *)
(** * JavaScript strings *)
(* ===================================================================== *)

(** A string value: the sequence of its UTF-16 code units. *)
Definition jsstr := list N.

(** A literal of the source text (ASCII only) as a string value. *)
Definition str (s : string) : jsstr := map N_of_ascii (list_ascii_of_string s).

(** Every element is a 16-bit code unit. *)
Definition code_units (s : jsstr) : Prop := Forall (fun c => c < 65536) s.

Definition is_high_surrogate (c : N) : bool := (0xD800 <=? c) && (c <=? 0xDBFF).
Definition is_low_surrogate (c : N) : bool := (0xDC00 <=? c) && (c <=? 0xDFFF).
Definition is_surrogate (c : N) : bool := (0xD800 <=? c) && (c <=? 0xDFFF).

(** Well-formed UTF-16: every surrogate is part of a high/low pair. *)
Inductive well_formed : jsstr -> Prop :=
| wf_nil : well_formed []
| wf_unit c s :
    c < 65536 -> is_surrogate c = false -> well_formed s -> well_formed (c :: s)
| wf_pair h l s :
    is_high_surrogate h = true -> is_low_surrogate l = true ->
    well_formed s -> well_formed (h :: l :: s).

(** [String.prototype.slice(a, b)] for [0 <= a <= b]. *)
Definition slice (a b : nat) (s : jsstr) : jsstr := take (b - a) (drop a s).

(** [String.prototype.padStart(n, fill)] with a one-character filler. *)
Definition padStart (n : nat) (fill : N) (s : jsstr) : jsstr :=
  replicate (n - length s) fill ++ s.

(* ===================================================================== *)
(** * TextEncoder: UTF-16 to UTF-8 *)
(* ===================================================================== *)

Definition byte_of_N (n : N) : Byte.byte := default Byte.x00 (Byte.of_N n).

(** The UTF-8 bytes of one Unicode scalar value. *)
Definition utf8_of_scalar (u : N) : list N :=
  if u <? 0x80 then [u]
  else if u <? 0x800 then [0xC0 + u / 64; 0x80 + u mod 64]
  else if u <? 0x10000 then
    [0xE0 + u / 4096; 0x80 + (u / 64) mod 64; 0x80 + u mod 64]
  else
    [0xF0 + u / 262144; 0x80 + (u / 4096) mod 64;
     0x80 + (u / 64) mod 64; 0x80 + u mod 64].

(** The scalar value of a surrogate pair. *)
Definition pair_scalar (h l : N) : N := 0x10000 + (h - 0xD800) * 1024 + (l - 0xDC00).

(** [TextEncoder.encode] first converts its argument to a sequence of
    scalar values, replacing every unpaired surrogate by U+FFFD, and
    then writes the scalar values in UTF-8. *)
Fixpoint utf8_units (s : jsstr) : list N :=
  match s with
  | [] => []
  | c :: rest =>
      if is_high_surrogate c then
        match rest with
        | d :: rest' =>
            if is_low_surrogate d
            then utf8_of_scalar (pair_scalar c d) ++ utf8_units rest'
            else utf8_of_scalar 0xFFFD ++ utf8_units rest
        | [] => utf8_of_scalar 0xFFFD
        end
      else if is_low_surrogate c then utf8_of_scalar 0xFFFD ++ utf8_units rest
      else utf8_of_scalar c ++ utf8_units rest
  end.

Definition TextEncoder_encode (s : jsstr) : list Byte.byte := map byte_of_N (utf8_units s).

(* ===================================================================== *)
(** * sha256Hex *)
(* ===================================================================== *)

(** The character of one hexadecimal digit, lowercase. *)
Definition hex_digit (d : N) : N := if d <? 10 then 48 + d else 87 + d.

(** [Number.prototype.toString(16)] on the value of a byte. *)
Definition toString16 (b : N) : jsstr :=
  if b <? 16 then [hex_digit b] else [hex_digit (b / 16); hex_digit (b mod 16)].

Definition is_lower_hex (c : N) : bool :=
  ((48 <=? c) && (c <=? 57)) || ((97 <=? c) && (c <=? 102)).

Section Digest.

(** [crypto.subtle.digest("SHA-256", _)], the platform's digest. *)
Variable digest : list Byte.byte -> list Byte.byte.

(** [Array.from(new Uint8Array(buf)).map(b => b.toString(16).padStart(2, "0")).join("")]
    applied to the digest of the encoded input. *)
Definition sha256Hex (input : jsstr) : jsstr :=
  concat (map (fun b => padStart 2 48 (toString16 (Byte.to_N b)))
              (digest (TextEncoder_encode input))).

(* ===================================================================== *)
(** * The audit chain *)
(* ===================================================================== *)

(** One line of a complaint's history. The [hash] property is absent on
    entries written before hashes were tracked. *)
Record HistoryEntry := mkEntry {
  date : jsstr;
  event : jsstr;
  hash : option jsstr
}.

(** The properties of a complaint other than [history]; the audit
    functions neither read nor write them. *)
Variable Fields : Type.

(** A complaint record. [history] is absent ([undefined]) or an array. *)
Record Complaint := mkComplaint {
  fields : Fields;
  history : option (list HistoryEntry)
}.

(** [new Date()] read in UTC, as [toISOString] sees it. *)
Record DateTime := mkDateTime {
  year : Z;
  month : N;
  day : N;
  hours : N;
  minutes : N;
  seconds : N;
  milliseconds : N
}.

(** The [w] low decimal digits of [n], most significant first. *)
Fixpoint dec_digits (w : nat) (n : N) : jsstr :=
  match w with
  | O => []
  | S w' => dec_digits w' (n / 10) ++ [48 + n mod 10]
  end.

(** The year of an ISO date-time string: four digits for the years 0 to
    9999, a sign and six digits otherwise. *)
Definition iso_year (y : Z) : jsstr :=
  if ((0 <=? y) && (y <=? 9999))%Z then dec_digits 4 (Z.to_N y)
  else (if (y <? 0)%Z then str "-" else str "+") ++ dec_digits 6 (Z.to_N (Z.abs y)).

(** [Date.prototype.toISOString]: YYYY-MM-DDTHH:mm:ss.sssZ. *)
Definition toISOString (d : DateTime) : jsstr :=
  iso_year (year d) ++ str "-" ++ dec_digits 2 (month d) ++ str "-" ++
  dec_digits 2 (day d) ++ str "T" ++ dec_digits 2 (hours d) ++ str ":" ++
  dec_digits 2 (minutes d) ++ str ":" ++ dec_digits 2 (seconds d) ++ str "." ++
  dec_digits 3 (milliseconds d) ++ str "Z".

(** [x || ""] on an optional string: an absent or empty hash gives "". *)
Definition or_empty (x : option jsstr) : jsstr :=
  match x with
  | Some (c :: s) => c :: s
  | _ => []
  end.

(** The template literal [`${prev}|${date}|${event}`]. *)
Definition chain_input (prev d e : jsstr) : jsstr :=
  prev ++ str "|" ++ d ++ str "|" ++ e.

(** The first three statements of [appendHistory], up to the point where
    the digest has been awaited: the date is taken from the clock, the
    predecessor hash is read from the last entry and the new entry is
    computed. Nothing has been written to the complaint yet. *)
Definition appendHistory_entry (now : DateTime) (complaint : Complaint)
    (eventText : jsstr) : HistoryEntry :=
  let date := slice 0 10 (toISOString now) in
  let prevHash :=
    match history complaint with
    | Some hist =>
        if (0 <? length hist)%nat then
          match hist !! (length hist - 1)%nat with
          | Some last => or_empty (hash last)
          | None => []
          end
        else []
    | None => []
    end in
  let hash := sha256Hex (chain_input prevHash date eventText) in
  mkEntry date eventText (Some hash).

(** The last two statements of [appendHistory], run when the awaited
    digest is available: [complaint.history = complaint.history || []]
    and the push. *)
Definition appendHistory_push (complaint : Complaint) (entry : HistoryEntry)
    : Complaint :=
  mkComplaint (fields complaint) (Some (default [] (history complaint) ++ [entry])).

(** [await appendHistory(complaint, eventText)]: one call run to
    completion. *)
Definition appendHistory (now : DateTime) (complaint : Complaint)
    (eventText : jsstr) : Complaint :=
  appendHistory_push complaint (appendHistory_entry now complaint eventText).

(** The loop of [verifyHistoryChain], with the running [prev]. *)
Fixpoint verify_loop (prev : jsstr) (hist : list HistoryEntry) : bool :=
  match hist with
  | [] => true
  | h :: rest =>
      let expected := sha256Hex (chain_input prev (date h) (event h)) in
      match hash h with
      | Some stored =>
          if bool_decide (stored = expected) then verify_loop stored rest else false
      | None => false
      end
  end.

Definition verifyHistoryChain (complaint : Complaint) : bool :=
  verify_loop [] (default [] (history complaint)).

(** The inner loop of the backfill pass of [Data.init]: an entry whose
    hash is absent, empty or different from the recomputed one gets the
    recomputed hash; [prev] is then the entry's hash. *)
Fixpoint backfill_loop (prev : jsstr) (hist : list HistoryEntry) : list HistoryEntry :=
  match hist with
  | [] => []
  | h :: rest =>
      let expected := sha256Hex (chain_input prev (date h) (event h)) in
      let h' :=
        if bool_decide (or_empty (hash h) = []) || negb (bool_decide (hash h = Some expected))
        then mkEntry (date h) (event h) (Some expected)
        else h in
      h' :: backfill_loop (or_empty (hash h')) rest
  end.

(** The backfill of one complaint: [hist] is the history when it is an
    array and the empty array otherwise. *)
Definition backfill (c : Complaint) : Complaint :=
  match history c with
  | Some hist => mkComplaint (fields c) (Some (backfill_loop [] hist))
  | None => c
  end.

(** The backfill pass over [Data.complaints]. *)
Definition backfill_all (complaints : list Complaint) : list Complaint :=
  map backfill complaints.

(** A run of calls, each awaited before the next is made. *)
Definition appendHistory_all (c : Complaint) (calls : list (DateTime * jsstr)) : Complaint :=
  fold_left (fun c call => appendHistory call.1 c call.2) calls c.

(** The value of [prev] after a walk over [hist] in which every entry
    has a hash: the hash of the last entry, or [prev] itself when [hist]
    is empty. *)
Definition prev_after (prev : jsstr) (hist : list HistoryEntry) : jsstr :=
  match last hist with
  | Some h => or_empty (hash h)
  | None => prev
  end.

(** The hashes a chain over the given dates and events must carry: each
    is the digest of its predecessor, the date and the event. *)
Fixpoint expected_hashes (prev : jsstr) (hist : list HistoryEntry) : list jsstr :=
  match hist with
  | [] => []
  | h :: rest =>
      let x := sha256Hex (chain_input prev (date h) (event h)) in
      x :: expected_hashes x rest
  end.

(** The two text properties of a history entry. *)
Inductive text_field := FDate | FEvent.

Definition get_field (f : text_field) (h : HistoryEntry) : jsstr :=
  match f with FDate => date h | FEvent => event h end.

Definition set_field (f : text_field) (v : jsstr) (h : HistoryEntry) : HistoryEntry :=
  match f with
  | FDate => mkEntry v (event h) (hash h)
  | FEvent => mkEntry (date h) v (hash h)
  end.

End Digest.

Arguments mkComplaint {Fields}.
Arguments fields {Fields}.
Arguments history {Fields}.
Arguments appendHistory_entry digest {Fields}.
Arguments appendHistory_push {Fields}.
Arguments appendHistory digest {Fields}.
Arguments verifyHistoryChain digest {Fields}.
Arguments backfill digest {Fields}.
Arguments backfill_all digest {Fields}.
Arguments appendHistory_all digest {Fields}.

(* ===================================================================== *)
(** * Regular expressions *)
(* ===================================================================== *)

(** The patterns of [maskText] use character classes, literal
    characters, [\b], sequencing, alternation and greedy quantifiers;
    there are no capture groups. A class is the list of its members. *)
Inductive regex :=
| Empty
| Chars (A : list N)
| WordBoundary
| Seq (r1 r2 : regex)
| Alt (r1 r2 : regex)
| Repeat (r : regex) (min : nat) (max : option nat).

(** A position in the input: the code unit before it, if any, and the
    code units from it on. *)
Definition mstate : Type := option N * jsstr.

Definition continuation : Type := mstate -> option mstate.
Definition matcher : Type := mstate -> continuation -> option mstate.

(** The code units from [lo] to [hi]. *)
Definition rng (lo hi : ascii) : list N :=
  map (fun i => N_of_ascii lo + N.of_nat i)
      (seq 0 (N.to_nat (N_of_ascii hi) + 1 - N.to_nat (N_of_ascii lo))).

(** [Canonicalize] for a pattern without the [u] flag. With [ignoreCase]
    a character is replaced by its upper-case form; a character outside
    ASCII is never mapped into ASCII, and every character named in the
    patterns below is ASCII, so the upper-case table is only needed for
    the ASCII letters. *)
Definition Canonicalize (ignoreCase : bool) (ch : N) : N :=
  if ignoreCase && (97 <=? ch) && (ch <=? 122) then ch - 32 else ch.

(** [CharacterSetMatcher]: some member of the class has the same
    canonical form as the character. *)
Definition class_matches (ignoreCase : bool) (A : list N) (ch : N) : bool :=
  existsb (fun a => Canonicalize ignoreCase a =? Canonicalize ignoreCase ch) A.

(** [IsWordChar]: the characters of [\w]. *)
Definition is_word_char (c : N) : bool :=
  ((97 <=? c) && (c <=? 122)) || ((65 <=? c) && (c <=? 90)) ||
  ((48 <=? c) && (c <=? 57)) || (c =? 95).

Definition word_at (o : option N) : bool :=
  match o with Some c => is_word_char c | None => false end.

(** [RepeatMatcher] of the language specification, greedy case. The
    continuation [d] refuses an iteration that consumed nothing once
    [min] is reached. [fuel] bounds the number of iterations. *)
Fixpoint RepeatMatcher (m : matcher) (fuel : nat) (min : nat) (max : option nat)
    (x : mstate) (c : continuation) : option mstate :=
  match fuel with
  | O => None
  | S fuel' =>
      if bool_decide (max = Some O) then c x
      else
        let d : continuation := fun y =>
          if bool_decide (min = O) && bool_decide (length y.2 = length x.2)
          then None
          else RepeatMatcher m fuel' (Nat.pred min) (Nat.pred <$> max) y c in
        if negb (bool_decide (min = O)) then m x d
        else match m x d with
             | Some z => Some z
             | None => c x
             end
  end.

(** The matcher of a pattern, in continuation-passing style as in the
    language specification. *)
Fixpoint rmatch (ignoreCase : bool) (r : regex) (x : mstate) (c : continuation)
    : option mstate :=
  match r with
  | Empty => c x
  | Chars A =>
      match x.2 with
      | ch :: s => if class_matches ignoreCase A ch then c (Some ch, s) else None
      | [] => None
      end
  | WordBoundary =>
      if xorb (word_at x.1) (word_at (head x.2)) then c x else None
  | Seq r1 r2 => rmatch ignoreCase r1 x (fun y => rmatch ignoreCase r2 y c)
  | Alt r1 r2 =>
      match rmatch ignoreCase r1 x c with
      | Some z => Some z
      | None => rmatch ignoreCase r2 x c
      end
  | Repeat r min max =>
      RepeatMatcher (rmatch ignoreCase r) (S (min + length x.2)) min max x c
  end.

(** A regular expression object with the [g] flag. *)
Record RegExp := mkRegExp {
  pattern : regex;
  ignoreCase : bool
}.

(** One attempt of the pattern at a position: the position after the
    match, if there is one. *)
Definition match_at (re : RegExp) (x : mstate) : option mstate :=
  rmatch (ignoreCase re) (pattern re) x Some.

(** [String.prototype.replace] with a global pattern and a replacement
    text without [$]. The input is scanned from the left; [skip] counts
    the characters of the current match still to be dropped. Where the
    pattern matches, the replacement is written and the scan resumes
    after the match (one character further on after an empty match, that
    character being kept); elsewhere the character is kept. *)
Fixpoint replace_walk (re : RegExp) (replacement : jsstr) (skip : nat)
    (prev : option N) (s : jsstr) : jsstr :=
  match skip with
  | S n =>
      match s with
      | ch :: s' => replace_walk re replacement n (Some ch) s'
      | [] => []
      end
  | O =>
      match match_at re (prev, s) with
      | Some (_, after) =>
          match s with
          | ch :: s' =>
              match (length s - length after)%nat with
              | O => replacement ++ ch :: replace_walk re replacement O (Some ch) s'
              | S n => replacement ++ replace_walk re replacement n (Some ch) s'
              end
          | [] => replacement
          end
      | None =>
          match s with
          | ch :: s' => ch :: replace_walk re replacement O (Some ch) s'
          | [] => []
          end
      end
  end.

Definition replace (re : RegExp) (replacement : jsstr) (s : jsstr) : jsstr :=
  replace_walk re replacement O None s.

(** ** The patterns of [maskText] *)

Definition seq_all (rs : list regex) : regex := fold_right Seq Empty rs.
Fixpoint alt_all (rs : list regex) : regex :=
  match rs with
  | [] => Empty
  | [r] => r
  | r :: rs' => Alt r (alt_all rs')
  end.
Definition lit (s : string) : regex := seq_all (map (fun ch => Chars [ch]) (str s)).

(** [\d] and [\s]. *)
Definition digit : list N := rng "0" "9".
Definition space : list N :=
  [9; 10; 11; 12; 13; 32; 0xA0; 0x1680; 0x2000; 0x2001; 0x2002; 0x2003; 0x2004;
   0x2005; 0x2006; 0x2007; 0x2008; 0x2009; 0x200A; 0x2028; 0x2029; 0x202F;
   0x205F; 0x3000; 0xFEFF].

(** [/[A-Z0-9._%+-]+@[A-Z0-9.-]+\.[A-Z]{2,}/ig] *)
Definition email : RegExp :=
  mkRegExp
    (seq_all [Repeat (Chars (rng "A" "Z" ++ rng "0" "9" ++ str "._%+-")) 1 None;
              Chars (str "@");
              Repeat (Chars (rng "A" "Z" ++ rng "0" "9" ++ str ".-")) 1 None;
              Chars (str ".");
              Repeat (Chars (rng "A" "Z")) 2 None])
    true.

(** [/\b(?:\+?\d[\d\s\-()]{7,}\d)\b/g] *)
Definition phone : RegExp :=
  mkRegExp
    (seq_all [WordBoundary;
              seq_all [Repeat (Chars (str "+")) 0 (Some 1%nat);
                       Chars digit;
                       Repeat (Chars (digit ++ space ++ str "-()")) 7 None;
                       Chars digit];
              WordBoundary])
    false.

(** [/\b(?:badge|warrant|employee|staff)\s*#?\s*\d{3,}\b/ig] *)
Definition badge : RegExp :=
  mkRegExp
    (seq_all [WordBoundary;
              alt_all [lit "badge"; lit "warrant"; lit "employee"; lit "staff"];
              Repeat (Chars space) 0 None;
              Repeat (Chars (str "#")) 0 (Some 1%nat);
              Repeat (Chars space) 0 None;
              Repeat (Chars digit) 3 None;
              WordBoundary])
    true.

(** [/\b[A-Z]{2,5}\d{3,6}\b/g] *)
Definition idlike : RegExp :=
  mkRegExp
    (seq_all [WordBoundary;
              Repeat (Chars (rng "A" "Z")) 2 (Some 5%nat);
              Repeat (Chars digit) 3 (Some 6%nat);
              WordBoundary])
    false.

(** [maskText] on a string: the empty string is falsy and gives the
    empty string; otherwise the four replacements are applied in turn. *)
Definition maskText (text : jsstr) : jsstr :=
  match text with
  | [] => str ""
  | _ =>
      replace idlike (str "[redacted-id]")
        (replace badge (str "[redacted-id]")
          (replace phone (str "[redacted-phone]")
            (replace email (str "[redacted-email]") text)))
  end.

(* ===================================================================== *)
(** * Values and outcomes *)
(* ===================================================================== *)

(** The result of running a piece of the program: a value, a thrown
    exception, or a behaviour this development does not describe (a
    named property written on an array). *)
Inductive outcome (A : Type) : Type :=
| Ok (a : A)
| Throws
| Unmodelled.

Arguments Ok {A} a.
Arguments Throws {A}.
Arguments Unmodelled {A}.

#[global] Instance outcome_ret : MRet outcome := fun A a => Ok a.
#[global] Instance outcome_bind : MBind outcome := fun A B f m =>
  match m with
  | Ok a => f a
  | Throws => Throws
  | Unmodelled => Unmodelled
  end.
#[global] Instance outcome_fmap : FMap outcome := fun A B f m =>
  match m with
  | Ok a => Ok (f a)
  | Throws => Throws
  | Unmodelled => Unmodelled
  end.

(** The decimal text of a natural number. *)
Definition dec_string (n : nat) : jsstr := str (NilZero.string_of_uint (Nat.to_uint n)).

(** The own property [k] of a property list. *)
Fixpoint own_get {V : Type} (k : jsstr) (ps : list (jsstr * V)) : option V :=
  match ps with
  | [] => None
  | (k', v) :: ps' => if bool_decide (k' = k) then Some v else own_get k ps'
  end.

(** Defining the own property [k]: an existing property keeps its place,
    a new one comes last. *)
Fixpoint own_set {V : Type} (k : jsstr) (v : V) (ps : list (jsstr * V))
    : list (jsstr * V) :=
  match ps with
  | [] => [(k, v)]
  | (k', v') :: ps' =>
      if bool_decide (k' = k) then (k, v) :: ps' else (k', v') :: own_set k v ps'
  end.

(** The array index written as [k], among the first [n]. *)
Definition array_index (k : jsstr) (n : nat) : option nat :=
  find (fun i => bool_decide (dec_string i = k)) (seq 0 n).

(** [Array.prototype.join] on texts. *)
Fixpoint join (sep : jsstr) (parts : list jsstr) : jsstr :=
  match parts with
  | [] => []
  | [p] => p
  | p :: ps => p ++ sep ++ join sep ps
  end.

(** [s.includes(t)] on strings: [t] occurs in [s]. *)
Fixpoint occurs_in (t s : jsstr) : bool :=
  bool_decide (take (length t) s = t) ||
  match s with
  | [] => false
  | _ :: s' => occurs_in t s'
  end.

(** [l.map(f)] with a callback that may throw: the callback runs on the
    elements in order and the first exception ends the loop. *)
Fixpoint map_outcome {A B} (f : A -> outcome B) (l : list A) : outcome (list B) :=
  match l with
  | [] => Ok []
  | x :: l' => y ← f x; ys ← map_outcome f l'; Ok (y :: ys)
  end.

(** The field names of [redactComplaintDeep]. *)
Definition rootKeys : list jsstr :=
  map str ["title"; "institution"; "contactPerson"; "complaintContent";
           "institutionAddress"; "institutionEmail"; "status"; "passwordHint";
           "agreedTerms"]%string.

Definition concernKeys : list jsstr :=
  map str ["summary"; "details"; "decisionMaker"; "response"]%string.

(** ** Records as trees

    The content of a record, as [JSON.stringify] writes it and
    [JSON.parse] reads it. This is the view in which the result of the
    redaction is described; the store of mutable objects comes after. *)
Module Json.

(** Data as [JSON.parse] builds it, plus [undefined]. A number is kept as
    its decimal text, the result of [String] on it; an object is the list
    of its own properties in property order. *)
#[local] Set Warnings "-register-all".
Inductive value :=
| VUndef
| VNull
| VBool (b : bool)
| VNum (repr : jsstr)
| VStr (s : jsstr)
| VArr (elems : list value)
| VObj (props : list (jsstr * value)).
#[local] Set Warnings "register-all".

Definition properties : Type := list (jsstr * value).

(** [ToBoolean]. *)
Definition truthy (v : value) : bool :=
  match v with
  | VUndef | VNull => false
  | VBool b => b
  | VNum r => negb (bool_decide (r = str "0")) && negb (bool_decide (r = str "NaN"))
  | VStr s => negb (bool_decide (s = []))
  | VArr _ | VObj _ => true
  end.

(** [x === false]. *)
Definition is_false (v : value) : bool :=
  match v with
  | VBool false => true
  | _ => false
  end.

(** Reading the property [v[k]]. Properties inherited from the built-in
    prototypes are left out: none has a name this program reads with a
    fixed key, and under a computed key they are functions or prototype
    objects, which carry none of the override flags. *)
Definition get_prop (v : value) (k : jsstr) : outcome value :=
  match v with
  | VUndef | VNull => Throws
  | VBool _ | VNum _ => Ok VUndef
  | VStr s =>
      if bool_decide (k = str "length") then Ok (VNum (dec_string (length s)))
      else match array_index k (length s) ≫= (s !!.) with
           | Some ch => Ok (VStr [ch])
           | None => Ok VUndef
           end
  | VArr elems =>
      if bool_decide (k = str "length") then Ok (VNum (dec_string (length elems)))
      else Ok (default VUndef (array_index k (length elems) ≫= (elems !!.)))
  | VObj ps => Ok (default VUndef (own_get k ps))
  end.

(** The assignment [v[k] = x] in strict mode, [k] not an array index. *)
Definition set_prop (v : value) (k : jsstr) (x : value) : outcome value :=
  match v with
  | VObj ps => Ok (VObj (own_set k x ps))
  | VArr _ => Unmodelled
  | _ => Throws
  end.

(** [String(v)]. An array joins the texts of its elements, [null] and
    [undefined] counting as empty; an object is "[object Object]" unless
    it has an own property [toString], which is not a function and makes
    the conversion throw. *)
Fixpoint ToString (v : value) : outcome jsstr :=
  match v with
  | VUndef => Ok (str "undefined")
  | VNull => Ok (str "null")
  | VBool true => Ok (str "true")
  | VBool false => Ok (str "false")
  | VNum r => Ok r
  | VStr s => Ok s
  | VArr elems =>
      join (str ",") <$>
        map_outcome (fun e => match e with
                              | VUndef | VNull => Ok []
                              | _ => ToString e
                              end) elems
  | VObj ps =>
      match own_get (str "toString") ps with
      | Some _ => Throws
      | None => Ok (str "[object Object]")
      end
  end.

(** [JSON.parse(JSON.stringify(v))] below the top level: a property
    whose value is [undefined] is dropped, an [undefined] element becomes
    [null], a number that is not finite becomes [null]. *)
Fixpoint json_copy (v : value) : value :=
  match v with
  | VUndef => VNull
  | VNum r =>
      if bool_decide (r = str "NaN") || bool_decide (r = str "Infinity")
         || bool_decide (r = str "-Infinity")
      then VNull else VNum r
  | VArr elems => VArr (map json_copy elems)
  | VObj ps =>
      VObj (omap (fun '(k, x) => match x with
                                 | VUndef => None
                                 | _ => Some (k, json_copy x)
                                 end) ps)
  | x => x
  end.

(** [JSON.parse(JSON.stringify(v))]: [JSON.stringify(undefined)] is
    [undefined], which [JSON.parse] rejects. *)
Definition json_clone (v : value) : outcome value :=
  match v with
  | VUndef => Throws
  | _ => Ok (json_copy v)
  end.

(** The own enumerable properties copied by [{...v}]. *)
Definition spread (v : value) : properties :=
  match v with
  | VObj ps => ps
  | VArr elems => imap (fun i e => (dec_string i, e)) elems
  | VStr s => imap (fun i ch => (dec_string i, VStr [ch])) s
  | _ => []
  end.

(** [(v || []).map(f)], [.forEach(f)]: the elements the callback
    receives. A truthy value that is not an array has no such method. *)
Definition elements_or_empty (v : value) : outcome (list value) :=
  if truthy v then
    match v with
    | VArr elems => Ok elems
    | _ => Throws
    end
  else Ok [].

(** [maskText] on any argument. *)
Definition maskText_any (text : value) : outcome jsstr :=
  if truthy text then maskText <$> ToString text else Ok (str "").

(** ** Structural redaction *)

(** [redactFields]: [keys.forEach(k => { if (obj[k]) obj[k] = maskText(obj[k]); })]. *)
Fixpoint redactFields (obj : value) (keys : list jsstr) : outcome value :=
  match keys with
  | [] => Ok obj
  | k :: keys' =>
      x ← get_prop obj k;
      obj' ← (if truthy x then m ← maskText_any x; set_prop obj k (VStr m)
              else Ok obj);
      redactFields obj' keys'
  end.

(** [keys.filter(k => flags[k] !== false)]. *)
Fixpoint not_switched_off (flags : value) (keys : list jsstr) : outcome (list jsstr) :=
  match keys with
  | [] => Ok []
  | k :: keys' =>
      f ← get_prop flags k;
      rest ← not_switched_off flags keys';
      Ok (if is_false f then rest else k :: rest)
  end.

(** [flag === false ? x : maskText(x)]. *)
Definition mask_unless (cov : value) (flag : string) (x : value) : outcome value :=
  f ← get_prop cov (str flag);
  if is_false f then Ok x else VStr <$> maskText_any x.

(** [(x.urls || []).map(u => flag === false ? u : maskText(u))]. *)
Definition mask_urls (cov : value) (flag : string) (x : value) : outcome value :=
  us ← get_prop x (str "urls");
  l ← elements_or_empty us;
  VArr <$> map_outcome (mask_unless cov flag) l.

(** The callback of [c.notes.map]. *)
Definition redact_note (cov : value) (n : value) : outcome value :=
  let copied := spread n in
  t ← get_prop n (str "text");
  text ← mask_unless cov "notesText" t;
  urls ← mask_urls cov "notesUrls" n;
  Ok (VObj (own_set (str "urls") urls (own_set (str "text") text copied))).

(** The callback of [c.responses.map]. *)
Definition redact_response (cov : value) (r : value) : outcome value :=
  let copied := spread r in
  d ← get_prop r (str "decisionMaker");
  decisionMaker ← mask_unless cov "responsesDecision" d;
  t ← get_prop r (str "text");
  text ← mask_unless cov "responsesText" t;
  urls ← mask_urls cov "responsesUrls" r;
  Ok (VObj (own_set (str "urls") urls
             (own_set (str "text") text
               (own_set (str "decisionMaker") decisionMaker copied)))).

(** [SameValueZero] between a value of the copy and a value of the
    original: two objects or arrays are never the same. *)
Definition same_value_zero (a b : value) : bool :=
  match a, b with
  | VUndef, VUndef | VNull, VNull => true
  | VBool x, VBool y => bool_decide (x = y)
  | VNum x, VNum y => bool_decide (x = y)
  | VStr x, VStr y => bool_decide (x = y)
  | _, _ => false
  end.

(** [(overrides.safeAttachments || []).includes(key)]. *)
Definition marked_safe (overrides : value) (key : value) : outcome bool :=
  safe ← get_prop overrides (str "safeAttachments");
  if truthy safe then
    match safe with
    | VArr elems => Ok (existsb (same_value_zero key) elems)
    | VStr s => t ← ToString key; Ok (occurs_in t s)
    | _ => Throws
    end
  else Ok false.

(** [attachments.filter(key => marked_safe key)]. *)
Fixpoint filter_safe (overrides : value) (keys : list value) : outcome (list value) :=
  match keys with
  | [] => Ok []
  | key :: keys' =>
      ok ← marked_safe overrides key;
      rest ← filter_safe overrides keys';
      Ok (if (ok : bool) then key :: rest else rest)
  end.

(** [x || {}]. *)
Definition or_object (x : value) : value := if truthy x then x else VObj [].

(** The body of the [forEach] over the concerns of the copy. *)
Definition redact_concern (overrides : value) (c : value) : outcome value :=
  id ← get_prop c (str "id");
  let ck := if truthy id then id else VStr (str "") in
  oc ← get_prop overrides (str "concerns");
  key ← ToString ck;
  cv ← get_prop (or_object oc) key;
  let cov := or_object cv in
  keys ← not_switched_off cov concernKeys;
  c ← redactFields c keys;
  ev ← get_prop c (str "evidence");
  evs ← elements_or_empty ev;
  evidence ← map_outcome (fun e => VStr <$> maskText_any e) evs;
  c ← set_prop c (str "evidence") (VArr evidence);
  ns ← get_prop c (str "notes");
  nl ← elements_or_empty ns;
  notes ← map_outcome (redact_note cov) nl;
  c ← set_prop c (str "notes") (VArr notes);
  rs ← get_prop c (str "responses");
  rl ← elements_or_empty rs;
  responses ← map_outcome (redact_response cov) rl;
  c ← set_prop c (str "responses") (VArr responses);
  att ← get_prop c (str "attachments");
  match att with
  | VArr keys =>
      kept ← filter_safe overrides keys;
      set_prop c (str "attachments") (VArr kept)
  | _ => Ok c
  end.

(** The effect on [obj] of a loop that has updated, in place, the
    elements of the array [obj[k]]: the array now holds the updated
    elements. *)
Definition store_elements (obj : value) (k : jsstr) (elems : list value) : value :=
  match obj with
  | VObj ps =>
      match own_get k ps with
      | Some (VArr _) => VObj (own_set k (VArr elems) ps)
      | _ => obj
      end
  | _ => obj
  end.

(** [redactComplaintDeep] as a function of the record's content. The
    overrides are read from the record itself, everything else from its
    copy. *)
Definition redactComplaintDeep (complaint : value) : outcome value :=
  redacted ← json_clone complaint;
  ov ← get_prop complaint (str "redactOverrides");
  let overrides := or_object ov in
  keys ← not_switched_off overrides rootKeys;
  redacted ← redactFields redacted keys;
  cs ← get_prop redacted (str "concerns");
  cl ← elements_or_empty cs;
  concerns ← map_outcome (redact_concern overrides) cl;
  Ok (store_elements redacted (str "concerns") concerns).

End Json.

(* ===================================================================== *)
(** * The same pass over a store of mutable objects *)
(* ===================================================================== *)

(** Objects and arrays live in a store and are known by their location;
    a property holds a primitive value or a location. Two variables may
    hold the same location, and an assignment to a property is seen
    through both. Allocation extends the store at its end. *)
Module Heap.

Definition loc := nat.

Inductive hval :=
| HUndef
| HNull
| HBool (b : bool)
| HNum (repr : jsstr)
| HStr (s : jsstr)
| HRef (l : loc).

Inductive hobj :=
| HObj (props : list (jsstr * hval))
| HArr (elems : list hval).

Abbreviation heap := (list hobj).

(** A computation over the store. *)
Definition M (A : Type) : Type := heap -> outcome (A * heap).

#[global] Instance M_ret : MRet M := fun A a h => Ok (a, h).
#[global] Instance M_bind : MBind M := fun A B f m h =>
  match m h with
  | Ok (a, h') => f a h'
  | Throws => Throws
  | Unmodelled => Unmodelled
  end.
#[global] Instance M_fmap : FMap M := fun A B f m h =>
  match m h with
  | Ok (a, h') => Ok (f a, h')
  | Throws => Throws
  | Unmodelled => Unmodelled
  end.

Definition throw {A} : M A := fun _ => Throws.
Definition unmodelled {A} : M A := fun _ => Unmodelled.

(** A computation that does not touch the store. *)
Definition lift {A} (o : outcome A) : M A := fun h =>
  match o with
  | Ok a => Ok (a, h)
  | Throws => Throws
  | Unmodelled => Unmodelled
  end.

(** A new object. *)
Definition alloc (o : hobj) : M hval := fun h => Ok (HRef (length h), h ++ [o]).

(** The object at a location. *)
Definition deref (l : loc) : M hobj := fun h =>
  match h !! l with
  | Some o => Ok (o, h)
  | None => Throws
  end.

(** Overwriting the object at a location. *)
Definition store (l : loc) (o : hobj) : M unit := fun h => Ok (tt, <[l := o]> h).

(** [l.map(f)] over the store. *)
Fixpoint map_store {A B} (f : A -> M B) (l : list A) : M (list B) :=
  match l with
  | [] => mret []
  | x :: l' => y ← f x; ys ← map_store f l'; mret (y :: ys)
  end.

(** [forEach]. *)
Fixpoint forEach {A} (f : A -> M unit) (l : list A) : M unit :=
  match l with
  | [] => mret tt
  | x :: l' => f x;; forEach f l'
  end.

(** The values an object holds. *)
Definition held (o : hobj) : list hval :=
  match o with
  | HObj ps => ps.*2
  | HArr es => es
  end.

Definition truthy (v : hval) : bool :=
  match v with
  | HUndef | HNull => false
  | HBool b => b
  | HNum r => negb (bool_decide (r = str "0")) && negb (bool_decide (r = str "NaN"))
  | HStr s => negb (bool_decide (s = []))
  | HRef _ => true
  end.

Definition is_false (v : hval) : bool :=
  match v with
  | HBool false => true
  | _ => false
  end.

(** The content of a value, read through the store. [fuel] bounds the
    nesting; a cyclic structure exhausts it. *)
Fixpoint read_value (fuel : nat) (h : heap) (v : hval) : outcome Json.value :=
  match v with
  | HUndef => Ok Json.VUndef
  | HNull => Ok Json.VNull
  | HBool b => Ok (Json.VBool b)
  | HNum r => Ok (Json.VNum r)
  | HStr s => Ok (Json.VStr s)
  | HRef l =>
      match fuel with
      | O => Throws
      | S fuel' =>
          match h !! l with
          | Some (HObj ps) =>
              Json.VObj <$>
                map_outcome (fun '(k, x) => x' ← read_value fuel' h x; Ok (k, x')) ps
          | Some (HArr es) => Json.VArr <$> map_outcome (read_value fuel' h) es
          | None => Throws
          end
      end
  end.

(** Reading the whole content of a value. A chain of nested objects
    longer than the store has objects passes twice through one of them. *)
Definition reify (v : hval) : M Json.value := fun h =>
  match read_value (length h) h v with
  | Ok t => Ok (t, h)
  | Throws => Throws
  | Unmodelled => Unmodelled
  end.

(** [JSON.parse] of the text of [t]: every object and array is new. *)
Fixpoint build (t : Json.value) : M hval :=
  match t with
  | Json.VUndef => mret HUndef
  | Json.VNull => mret HNull
  | Json.VBool b => mret (HBool b)
  | Json.VNum r => mret (HNum r)
  | Json.VStr s => mret (HStr s)
  | Json.VArr elems => es ← map_store build elems; alloc (HArr es)
  | Json.VObj ps =>
      ps' ← map_store (fun '(k, x) => x' ← build x; mret (k, x')) ps;
      alloc (HObj ps')
  end.

(** [JSON.parse(JSON.stringify(v))]. *)
Definition json_clone (v : hval) : M hval :=
  t ← reify v;
  t' ← lift (Json.json_clone t);
  build t'.

(** Reading the property [v[k]]. *)
Definition get_prop (v : hval) (k : jsstr) : M hval :=
  match v with
  | HUndef | HNull => throw
  | HBool _ | HNum _ => mret HUndef
  | HStr s =>
      if bool_decide (k = str "length") then mret (HNum (dec_string (length s)))
      else match array_index k (length s) ≫= (s !!.) with
           | Some ch => mret (HStr [ch])
           | None => mret HUndef
           end
  | HRef l =>
      o ← deref l;
      match o with
      | HObj ps => mret (default HUndef (own_get k ps))
      | HArr es =>
          if bool_decide (k = str "length") then mret (HNum (dec_string (length es)))
          else mret (default HUndef (array_index k (length es) ≫= (es !!.)))
      end
  end.

(** The assignment [v[k] = x] in strict mode, [k] not an array index. *)
Definition set_prop (v : hval) (k : jsstr) (x : hval) : M unit :=
  match v with
  | HRef l =>
      o ← deref l;
      match o with
      | HObj ps => store l (HObj (own_set k x ps))
      | HArr _ => unmodelled
      end
  | _ => throw
  end.

(** The own enumerable properties copied by [{...v}]. *)
Definition spread (v : hval) : M (list (jsstr * hval)) :=
  match v with
  | HRef l =>
      o ← deref l;
      match o with
      | HObj ps => mret ps
      | HArr es => mret (imap (fun i e => (dec_string i, e)) es)
      end
  | HStr s => mret (imap (fun i ch => (dec_string i, HStr [ch])) s)
  | _ => mret []
  end.

(** [(v || []).map(f)], [.forEach(f)]: the elements the callback
    receives. None of the callbacks below writes the array it is
    applied to, so the elements are read once. *)
Definition elements_or_empty (v : hval) : M (list hval) :=
  if truthy v then
    match v with
    | HRef l =>
        o ← deref l;
        match o with
        | HArr es => mret es
        | HObj _ => throw
        end
    | _ => throw
    end
  else mret [].

(** [String(v)]. *)
Definition ToString (v : hval) : M jsstr :=
  t ← reify v;
  lift (Json.ToString t).

(** [maskText] on any argument. *)
Definition maskText_any (text : hval) : M jsstr :=
  if truthy text then maskText <$> ToString text else mret (str "").

(** [redactFields]: [keys.forEach(k => { if (obj[k]) obj[k] = maskText(obj[k]); })]. *)
Fixpoint redactFields (obj : hval) (keys : list jsstr) : M unit :=
  match keys with
  | [] => mret tt
  | k :: keys' =>
      x ← get_prop obj k;
      (if truthy x then m ← maskText_any x; set_prop obj k (HStr m) else mret tt);;
      redactFields obj keys'
  end.

(** [keys.filter(k => flags[k] !== false)]. *)
Fixpoint not_switched_off (flags : hval) (keys : list jsstr) : M (list jsstr) :=
  match keys with
  | [] => mret []
  | k :: keys' =>
      f ← get_prop flags k;
      rest ← not_switched_off flags keys';
      mret (if is_false f then rest else k :: rest)
  end.

(** [flag === false ? x : maskText(x)]. *)
Definition mask_unless (cov : hval) (flag : string) (x : hval) : M hval :=
  f ← get_prop cov (str flag);
  if is_false f then mret x else HStr <$> maskText_any x.

(** [(x.urls || []).map(u => flag === false ? u : maskText(u))]. *)
Definition mask_urls (cov : hval) (flag : string) (x : hval) : M hval :=
  us ← get_prop x (str "urls");
  l ← elements_or_empty us;
  masked ← map_store (mask_unless cov flag) l;
  alloc (HArr masked).

(** The callback of [c.notes.map]: a new object. *)
Definition redact_note (cov : hval) (n : hval) : M hval :=
  copied ← spread n;
  t ← get_prop n (str "text");
  text ← mask_unless cov "notesText" t;
  urls ← mask_urls cov "notesUrls" n;
  alloc (HObj (own_set (str "urls") urls (own_set (str "text") text copied))).

(** The callback of [c.responses.map]: a new object. *)
Definition redact_response (cov : hval) (r : hval) : M hval :=
  copied ← spread r;
  d ← get_prop r (str "decisionMaker");
  decisionMaker ← mask_unless cov "responsesDecision" d;
  t ← get_prop r (str "text");
  text ← mask_unless cov "responsesText" t;
  urls ← mask_urls cov "responsesUrls" r;
  alloc (HObj (own_set (str "urls") urls
                (own_set (str "text") text
                  (own_set (str "decisionMaker") decisionMaker copied)))).

(** [SameValueZero]: two locations are the same value when they are the
    same location. *)
Definition same_value_zero (a b : hval) : bool :=
  match a, b with
  | HUndef, HUndef | HNull, HNull => true
  | HBool x, HBool y => bool_decide (x = y)
  | HNum x, HNum y => bool_decide (x = y)
  | HStr x, HStr y => bool_decide (x = y)
  | HRef x, HRef y => bool_decide (x = y)
  | _, _ => false
  end.

(** [(overrides.safeAttachments || []).includes(key)]. *)
Definition marked_safe (overrides : hval) (key : hval) : M bool :=
  safe ← get_prop overrides (str "safeAttachments");
  if truthy safe then
    match safe with
    | HRef l =>
        o ← deref l;
        match o with
        | HArr es => mret (existsb (same_value_zero key) es)
        | HObj _ => throw
        end
    | HStr s => t ← ToString key; mret (occurs_in t s)
    | _ => throw
    end
  else mret false.

(** [attachments.filter(key => marked_safe key)]. *)
Fixpoint filter_safe (overrides : hval) (keys : list hval) : M (list hval) :=
  match keys with
  | [] => mret []
  | key :: keys' =>
      ok ← marked_safe overrides key;
      rest ← filter_safe overrides keys';
      mret (if (ok : bool) then key :: rest else rest)
  end.

(** [x || {}]: the literal is a new object. *)
Definition or_object (x : hval) : M hval :=
  if truthy x then mret x else alloc (HObj []).

(** [Array.isArray]. *)
Definition isArray (v : hval) : M bool :=
  match v with
  | HRef l =>
      o ← deref l;
      mret (match o with HArr _ => true | HObj _ => false end)
  | _ => mret false
  end.

(** The body of the [forEach] over the concerns of the copy. *)
Definition redact_concern (overrides : hval) (c : hval) : M unit :=
  id ← get_prop c (str "id");
  let ck := if truthy id then id else HStr (str "") in
  oc ← get_prop overrides (str "concerns");
  oc ← or_object oc;
  key ← ToString ck;
  cv ← get_prop oc key;
  cov ← or_object cv;
  keys ← not_switched_off cov concernKeys;
  redactFields c keys;;
  ev ← get_prop c (str "evidence");
  evs ← elements_or_empty ev;
  evidence ← map_store (fun e => HStr <$> maskText_any e) evs;
  evidence ← alloc (HArr evidence);
  set_prop c (str "evidence") evidence;;
  ns ← get_prop c (str "notes");
  nl ← elements_or_empty ns;
  notes ← map_store (redact_note cov) nl;
  notes ← alloc (HArr notes);
  set_prop c (str "notes") notes;;
  rs ← get_prop c (str "responses");
  rl ← elements_or_empty rs;
  responses ← map_store (redact_response cov) rl;
  responses ← alloc (HArr responses);
  set_prop c (str "responses") responses;;
  att ← get_prop c (str "attachments");
  is_arr ← isArray att;
  if (is_arr : bool) then
    keys ← elements_or_empty att;
    kept ← filter_safe overrides keys;
    kept ← alloc (HArr kept);
    set_prop c (str "attachments") kept
  else mret tt.

(** [redactComplaintDeep]. *)
Definition redactComplaintDeep (complaint : hval) : M hval :=
  redacted ← json_clone complaint;
  ov ← get_prop complaint (str "redactOverrides");
  overrides ← or_object ov;
  keys ← not_switched_off overrides rootKeys;
  redactFields redacted keys;;
  cs ← get_prop redacted (str "concerns");
  cl ← elements_or_empty cs;
  forEach (redact_concern overrides) cl;;
  mret redacted.

(** A location can be reached from a value through the store. *)
Inductive reachable (h : heap) : hval -> loc -> Prop :=
| reach_here l : reachable h (HRef l) l
| reach_step l o v l' :
    h !! l = Some o -> v ∈ held o -> reachable h v l' -> reachable h (HRef l) l'.

(** ** Old and new objects *)

(** A value that is not a location below [n]. *)
Definition new_value (n : nat) (v : hval) : Prop :=
  match v with
  | HRef l => (n <= l)%nat
  | _ => True
  end.

(** An object that holds no location below [n]. *)
Definition new_object (n : nat) (o : hobj) : Prop := Forall (new_value n) (held o).

(** The objects from [n] on hold no location below [n]. *)
Definition closed_from (n : nat) (h : heap) : Prop :=
  forall l o, (n <= l)%nat -> h !! l = Some o -> new_object n o.

(** [keeps n m P]: run in a store whose objects from [n] on are closed,
    [m] leaves the objects below [n] as they are, keeps the objects from
    [n] on closed, and returns a result that satisfies [P]. *)
Definition keeps {A} (n : nat) (m : M A) (P : A -> Prop) : Prop :=
  forall h a h',
    (n <= length h)%nat -> closed_from n h -> m h = Ok (a, h') ->
    (n <= length h')%nat /\ closed_from n h'
    /\ (forall l, (l < n)%nat -> h' !! l = h !! l) /\ P a.

End Heap.

(** The two characters written for a byte. *)
Definition hex_pair (b : Byte.byte) : jsstr := padStart 2 48 (toString16 (Byte.to_N b)).


(* ===================================================================== *)
(** * What a pattern can match *)
(* ===================================================================== *)

(** [matches ic r x y]: the pattern [r] can take the matcher from
    position [x] to position [y]. The relation forgets the order in
    which the matcher tries the alternatives; it is used to bound what
    a successful attempt can have consumed. *)
Inductive matches (ic : bool) : regex -> mstate -> mstate -> Prop :=
| matches_empty x : matches ic Empty x x
| matches_chars A p ch s :
    class_matches ic A ch = true ->
    matches ic (Chars A) (p, ch :: s) (Some ch, s)
| matches_boundary x :
    xorb (word_at x.1) (word_at (head x.2)) = true ->
    matches ic WordBoundary x x
| matches_seq r1 r2 x y z :
    matches ic r1 x y -> matches ic r2 y z -> matches ic (Seq r1 r2) x z
| matches_alt_l r1 r2 x y : matches ic r1 x y -> matches ic (Alt r1 r2) x y
| matches_alt_r r1 r2 x y : matches ic r2 x y -> matches ic (Alt r1 r2) x y
| matches_repeat_stop r min max x :
    min = O \/ max = Some O -> matches ic (Repeat r min max) x x
| matches_repeat_step r min max x y z :
    max <> Some O ->
    matches ic r x y ->
    matches ic (Repeat r (Nat.pred min) (Nat.pred <$> max)) y z ->
    matches ic (Repeat r min max) x z.

(** The least number of characters a match of the pattern consumes. *)
Fixpoint min_length (r : regex) : nat :=
  match r with
  | Empty | WordBoundary => 0
  | Chars _ => 1
  | Seq r1 r2 => min_length r1 + min_length r2
  | Alt r1 r2 => Nat.min (min_length r1) (min_length r2)
  | Repeat r min max =>
      match max with
      | Some n => Nat.min min n
      | None => min
      end * min_length r
  end.

(** [requires P r]: every match of [r] consumes a character of a class
    all of whose members satisfy [P]. *)
Fixpoint requires (P : N -> bool) (r : regex) : bool :=
  match r with
  | Empty | WordBoundary => false
  | Chars A => forallb P A
  | Seq r1 r2 => requires P r1 || requires P r2
  | Alt r1 r2 => requires P r1 && requires P r2
  | Repeat r min max =>
      negb (bool_decide (min = O)) && negb (bool_decide (max = Some O)) && requires P r
  end.

Definition is_digit (c : N) : bool := (48 <=? c) && (c <=? 57).
Definition is_at_sign (c : N) : bool := c =? 64.

(** Text made of the three placeholders and white space only. *)
Inductive placeholder_text : jsstr -> Prop :=
| placeholder_nil : placeholder_text []
| placeholder_space c s :
    In c space -> placeholder_text s -> placeholder_text (c :: s)
| placeholder_email s :
    placeholder_text s -> placeholder_text (str "[redacted-email]" ++ s)
| placeholder_phone s :
    placeholder_text s -> placeholder_text (str "[redacted-phone]" ++ s)
| placeholder_id s :
    placeholder_text s -> placeholder_text (str "[redacted-id]" ++ s).

(** A class of characters that [Canonicalize] does not lead out of. *)
Definition respects_case (P : N -> bool) : Prop :=
  forall ic a ch, P a = true -> Canonicalize ic a = Canonicalize ic ch -> P ch = true.

(** The previous character after reading [w] from a position whose
    previous character is [p]. *)
Definition prev_of (p : option N) (w : jsstr) : option N :=
  match last w with
  | Some ch => Some ch
  | None => p
  end.


(* ===================================================================== *)
(** * Sample data *)
(* ===================================================================== *)

(** A digest without collisions, to instantiate the statements that
    assume one: the bytes themselves. *)
Definition plain_digest (bs : list Byte.byte) : list Byte.byte := bs.

(** A reading of the clock: 10 January 2025, 09:30 UTC. *)
Definition sample_time : DateTime := mkDateTime 2025 1 10 9 30 0 0.

(** A history of two entries built by [appendHistory]. *)
Definition sample_complaint : Complaint unit :=
  appendHistory_all plain_digest (mkComplaint tt (Some []))
    [(sample_time, str "Complaint created"); (sample_time, str "Status updated: Filed")].

(** An entry whose event is a single unpaired surrogate, with the hash
    [appendHistory] gives it in an empty history. *)
Definition surrogate_entry : HistoryEntry :=
  mkEntry (str "2025-01-10") [0xD800]
    (Some (sha256Hex plain_digest (chain_input [] (str "2025-01-10") [0xD800]))).

(* ===================================================================== *)
(** * Reading a record *)
(* ===================================================================== *)

(** The own property [k] of an object, [undefined] when it has none and
    for a value that is not an object. *)
Definition field (v : Json.value) (k : string) : Json.value :=
  match v with
  | Json.VObj ps => default Json.VUndef (own_get (str k) ps)
  | _ => Json.VUndef
  end.

(** The elements of an array; none for any other value. *)
Definition elements (v : Json.value) : list Json.value :=
  match v with
  | Json.VArr l => l
  | _ => []
  end.

(** The concerns of a complaint. *)
Definition concerns_of (v : Json.value) : list Json.value :=
  elements (field v "concerns").





(** The names of the properties. *)
Definition keys_of {V : Type} (ps : list (jsstr * V)) : list jsstr := ps.*1.

(** The properties of a concern that [redactComplaintDeep] writes. *)
Definition concern_written : list jsstr :=
  concernKeys ++ map str ["evidence"; "notes"; "responses"; "attachments"]%string.

(** The properties of a note and of a response that it writes. *)
Definition note_written : list jsstr := map str ["text"; "urls"]%string.
Definition response_written : list jsstr :=
  map str ["decisionMaker"; "text"; "urls"]%string.

(** The override flags of a concern, as [redact_concern] computes them. *)
Definition concern_flags (overrides c : Json.value) : outcome Json.value :=
  id ← Json.get_prop c (str "id");
  oc ← Json.get_prop overrides (str "concerns");
  key ← Json.ToString (if Json.truthy id then id else Json.VStr (str ""));
  cv ← Json.get_prop (Json.or_object oc) key;
  Ok (Json.or_object cv).

(** The own property [k] of an object, if any. *)
Definition own (v : Json.value) (k : jsstr) : option Json.value :=
  match v with
  | Json.VObj ps => own_get k ps
  | _ => None
  end.

(** ** Sample records *)

(** Properties written with their names as literals. *)
Definition props (l : list (string * Json.value)) : list (jsstr * Json.value) :=
  map (fun '(k, v) => (str k, v)) l.

(** An object written with its property names as literals. *)
Definition obj (l : list (string * Json.value)) : Json.value := Json.VObj (props l).

(** A string value written as a literal. *)
Definition text (s : string) : Json.value := Json.VStr (str s).

(** A complaint with one file of its own and a concern with two files,
    a note, a response and a history entry that quotes an address. The
    overrides mark one file of the concern as safe. *)
Definition sample_fields : list (string * Json.value) :=
  [("id", text "cmp_001");
       ("title", text "No reply from jane.doe@example.org");
       ("attachments", Json.VArr [text "cmp_001/letter.pdf"]);
       ("concerns", Json.VArr
          [obj [("id", text "c1");
                ("summary", text "Call logged by staff 12345");
                ("evidence", Json.VArr [text "https://example.org/case/AB1234"]);
                ("notes", Json.VArr
                   [obj [("id", text "n1"); ("text", text "mail a@b.co");
                         ("urls", Json.VArr [])]]);
                ("responses", Json.VArr
                   [obj [("id", text "r1"); ("date", text "2025-02-01");
                         ("decisionMaker", text "PC AB1234");
                         ("text", text "Not upheld"); ("urls", Json.VArr []);
                         ("attachments", Json.VArr [text "cmp_001/c1/reply.pdf"])]]);
                ("attachments",
                 Json.VArr [text "cmp_001/c1/scan.png"; text "cmp_001/c1/log.txt"])]]);
       ("history", Json.VArr
          [obj [("date", text "2025-01-10");
                ("event", text "Note added to concern: write to jane.doe@example.org");
                ("hash", text "00")]]);
       ("redactOverrides",
        obj [("safeAttachments", Json.VArr [text "cmp_001/c1/scan.png"])])]%string.

Definition sample_record : Json.value := obj sample_fields.



(** The value returned for a sample, [undefined] if there is none. *)
Definition redacted (complaint : Json.value) : Json.value :=
  match Json.redactComplaintDeep complaint with
  | Ok r => r
  | _ => Json.VUndef
  end.
(** ** A sample store *)

(** The sample complaint parsed into an empty store. *)
Definition sample_parsed : outcome (Heap.hval * Heap.heap) :=
  Heap.build sample_record [].

(** The reference to the parsed complaint. *)
Definition sample_ref : Heap.hval :=
  match sample_parsed with Ok (v, _) => v | _ => Heap.HUndef end.

(** The store that holds the parsed complaint. *)
Definition sample_store : Heap.heap :=
  match sample_parsed with Ok (_, h) => h | _ => [] end.

(** What the redaction of the parsed complaint returns, and the store
    it leaves. *)
Definition sample_result : Heap.hval :=
  match Heap.redactComplaintDeep sample_ref sample_store with
  | Ok (r, _) => r
  | _ => Heap.HUndef
  end.

Definition sample_store_after : Heap.heap :=
  match Heap.redactComplaintDeep sample_ref sample_store with
  | Ok (_, h) => h
  | _ => []
  end.


(* ===================================================================== *)
(** * Further samples for the audit chain *)
(* ===================================================================== *)

(** A digest without collisions that never returns the empty byte
    string: the bytes after a zero byte. *)
Definition marked_digest (bs : list Byte.byte) : list Byte.byte := Byte.x00 :: bs.

(** The entries of the sample history. *)
Definition sample_entries : list HistoryEntry := default [] (history sample_complaint).


(* ===================================================================== *)
(** * What a flag of the overrides decides *)
(* ===================================================================== *)

(** The value [x'] written for [x] under the flag [f]: [x] itself when
    the flag is [false], the mask of its text otherwise. *)
Definition written_for (f x x' : Json.value) : Prop :=
  if Json.is_false f then x' = x
  else exists m, Json.maskText_any x = Ok m /\ x' = Json.VStr m.

(** The same, the flag being read from the overrides [cov] of a
    concern under the name [flag]. *)
Definition written_under (cov : Json.value) (flag : string) (x x' : Json.value) : Prop :=
  exists f, Json.get_prop cov (str flag) = Ok f /\ written_for f x x'.

(** A note or a response [n'] holds under [k] what is written for the
    property [k] of [n] under a flag of [cov]. *)
Definition text_written (cov : Json.value) (flag : string) (k : string)
    (n n' : Json.value) : Prop :=
  exists t t', Json.get_prop n (str k) = Ok t /\ own n' (str k) = Some t'
               /\ written_under cov flag t t'.

(** A note or a response [n'] holds under [urls] the list of what is
    written for the elements of [n.urls]. *)
Definition urls_written (cov : Json.value) (flag : string) (n n' : Json.value) : Prop :=
  exists us urls', Json.get_prop n (str "urls") = Ok us
                   /\ own n' (str "urls") = Some (Json.VArr urls')
                   /\ Forall2 (written_under cov flag) (elements us) urls'.


(* ===================================================================== *)
(** * The data layer: identifiers *)
(* ===================================================================== *)

(** The numbers the identifier functions compute with: [NaN], an
    infinity, or a finite number that is an integer. [parseInt] gives no
    other, and [Math.max] and [+ 1] lead to no other. Every [Int z] that
    occurs is a number a double holds exactly. The sign of zero is not
    recorded: the only operations are [Math.max] with a first argument
    that is never negative, [+ 1] and [String], which give the same for
    both zeros. *)
Inductive number :=
| NaN
| Int (z : Z)
| Infinity (negative : bool).

(** The first integer a double cannot tell from its successor, 2^53. *)
Definition two53 : N := 9007199254740992.

(** The double nearest to a natural number, ties going to the even
    significand of 53 bits; none when the result is beyond the largest
    double. *)
Definition to_double (n : N) : option N :=
  if n <? two53 then Some n
  else
    let e := N.log2 n - 52 in
    let q := n / 2 ^ e in
    let r := n mod 2 ^ e in
    let half := 2 ^ (e - 1) in
    let q' := if (half <? r) || ((r =? half) && N.odd q) then q + 1 else q in
    let v := q' * 2 ^ e in
    if v <? 2 ^ 1024 then Some v else None.

(** The double of an integer with its sign. *)
Definition double_of (negative : bool) (n : N) : number :=
  match to_double n with
  | Some v => Int (if negative then - Z.of_N v else Z.of_N v)
  | None => Infinity negative
  end.

(** [s.split(sep)] with a separator of one character: the pieces
    between its occurrences. *)
Fixpoint split_on (sep : N) (s : jsstr) : list jsstr :=
  match s with
  | [] => [[]]
  | c :: s' =>
      if c =? sep then [] :: split_on sep s'
      else match split_on sep s' with
           | p :: ps => (c :: p) :: ps
           | [] => [[c]]
           end
  end.

(** The white space [parseInt] skips at the start of its argument. *)
Fixpoint skip_space (s : jsstr) : jsstr :=
  match s with
  | c :: s' => if existsb (N.eqb c) space then skip_space s' else s
  | [] => []
  end.

(** The value of the decimal digits at the start of [s], after [acc]. *)
Fixpoint parse_digits (acc : N) (s : jsstr) : N :=
  match s with
  | c :: s' => if is_digit c then parse_digits (10 * acc + (c - 48)) s' else acc
  | [] => acc
  end.

(** [Number.MAX_SAFE_INTEGER], 2^53 - 1. *)
Definition MAX_SAFE_INTEGER : N := 9007199254740991.

(** [parseInt(s, 10)]: white space is skipped, then a sign is read,
    then the longest run of decimal digits; without a digit the result is
    [NaN]. The result is the double nearest to the integer read, an
    infinity when there is none. *)
Definition parseInt (s : jsstr) : number :=
  let s1 := skip_space s in
  let negative := match s1 with c :: _ => c =? 45 | [] => false end in
  let s2 := match s1 with
            | c :: r => if (c =? 45) || (c =? 43) then r else s1
            | [] => []
            end in
  match s2 with
  | c :: _ => if is_digit c then double_of negative (parse_digits 0 s2) else NaN
  | [] => NaN
  end.

(** [Math.max(a, b)]. *)
Definition Math_max (a b : number) : number :=
  match a, b with
  | NaN, _ | _, NaN => NaN
  | Infinity false, _ | _, Infinity false => Infinity false
  | Infinity true, x | x, Infinity true => x
  | Int x, Int y => Int (Z.max x y)
  end.

(** [parseInt((c.id || '').split('_')[1] || '0', 10)]: a truthy [id]
    that is not a string has no method [split]. *)
Definition id_number (c : Json.value) : outcome number :=
  id ← Json.get_prop c (str "id");
  s ← (if Json.truthy id
       then match id with
            | Json.VStr s => Ok s
            | _ => Throws
            end
       else Ok []);
  Ok (parseInt (match split_on 95 s !! 1%nat with
                | Some (ch :: piece) => ch :: piece
                | _ => str "0"
                end)).

(** The identifier of [c] reads as a number below
    [Number.MAX_SAFE_INTEGER], or as no number. One more than such a
    number is a number that a double holds exactly. *)
Definition safe_number (x : number) : bool :=
  match x with
  | Int k => (k <? Z.of_N MAX_SAFE_INTEGER)%Z
  | NaN => true
  | Infinity _ => false
  end.

Definition safe_id (c : Json.value) : bool :=
  match id_number c with
  | Ok x => safe_number x
  | _ => true
  end.

(** [items.reduce((max, c) => Math.max(max, id_number(c)), max)]. *)
Fixpoint max_id_number (max : number) (items : list Json.value) : outcome number :=
  match items with
  | [] => Ok max
  | c :: rest => n ← id_number c; max_id_number (Math_max max n) rest
  end.

(** [num + 1]: the double nearest to the sum. *)
Definition plus_one (num : number) : number :=
  match num with
  | Int z =>
      if (0 <=? z + 1)%Z then double_of false (Z.to_N (z + 1))
      else double_of true (Z.to_N (- (z + 1)))
  | _ => num
  end.

(** The decimal text of a natural number, and the number of its
    digits. *)
Definition dec_text (n : N) : jsstr := str (NilZero.string_of_uint (N.to_uint n)).
Definition digits_count (n : N) : nat := length (dec_text n).

(** The digits [String] writes for a double [v] that is an integer of
    [nd] digits: the least number [k] of digits, from [k] on, such that
    some integer [s] of [k] digits followed by [nd - k] zeros is a
    number whose nearest double is [v]; of two such [s] the one nearer
    to [v], and the even one if they are as near. After [fuel] attempts
    the digits are those of [v] itself. *)
Fixpoint shortest_from (fuel k : nat) (v : N) (nd : nat) : N * nat :=
  match fuel with
  | O => (v, nd)
  | S fuel' =>
      let p := 10 ^ N.of_nat (nd - k) in
      let s0 := v / p in
      let fits s :=
        (10 ^ N.of_nat (k - 1) <=? s) && (s <? 10 ^ N.of_nat k)
        && bool_decide (to_double (s * p) = Some v) in
      match fits s0, fits (s0 + 1) with
      | true, true =>
          let below := v - s0 * p in
          let above := (s0 + 1) * p - v in
          if (below <? above) || ((below =? above) && N.even s0)
          then (s0, k) else (s0 + 1, k)
      | true, false => (s0, k)
      | false, true => (s0 + 1, k)
      | false, false => shortest_from fuel' (S k) v nd
      end
  end.

(** The digits, their number and the number of digits of the integer
    they stand for; a power of ten above [v] whose nearest double is [v]
    is written as that power. *)
Definition shortest (v : N) : N * nat * nat :=
  let nd := digits_count v in
  if bool_decide (to_double (10 ^ N.of_nat nd) = Some v) then (1, 1%nat, S nd)
  else let sk := shortest_from 17 1 v nd in (sk.1, sk.2, nd).

(** [String(v)] for a positive double that is an integer. Below 2^53
    the digits are those of the integer. From 2^53 on they are the
    shortest that give the number back, followed by zeros when the
    integer has at most 21 digits, and with an exponent otherwise. *)
Definition integer_text (v : N) : jsstr :=
  if v <? two53 then dec_string (N.to_nat v)
  else
    let '(s, k, n) := shortest v in
    if (n <=? 21)%nat then dec_text s ++ replicate (n - k) 48
    else
      match dec_text s with
      | d :: rest =>
          d :: (if (k =? 1)%nat then [] else str "." ++ rest)
            ++ str "e+" ++ dec_string (n - 1)
      | [] => []
      end.

(** [String(num)]. *)
Definition Number_toString (num : number) : jsstr :=
  match num with
  | NaN => str "NaN"
  | Infinity negative => if negative then str "-Infinity" else str "Infinity"
  | Int z => if (0 <=? z)%Z then integer_text (Z.to_N z)
             else str "-" ++ integer_text (Z.to_N (- z))
  end.

(** The body the four identifier functions share:
    [`${prefix}${String(num).padStart(3, "0")}`] with [num] one more than
    the largest number found in the identifiers of [items]. *)
Definition next_id (prefix : string) (items : list Json.value) : outcome jsstr :=
  max ← max_id_number (Int 0) items;
  Ok (str prefix ++ padStart 3 48 (Number_toString (plus_one max))).

(** [Data.nextComplaintId], [Data.nextPhsoId] and [Data.nextLegalId],
    on the elements of [Data.complaints], [Data.phsoCases] and
    [Data.legalCases]. *)
Definition nextComplaintId (complaints : list Json.value) : outcome jsstr :=
  next_id "cmp_" complaints.

Definition nextPhsoId (phsoCases : list Json.value) : outcome jsstr :=
  next_id "phso_" phsoCases.

Definition nextLegalId (legalCases : list Json.value) : outcome jsstr :=
  next_id "legal_" legalCases.

(** [Data.nextConcernId(complaint)], on [complaint.concerns || []]. *)
Definition nextConcernId (complaint : Json.value) : outcome jsstr :=
  cs ← Json.get_prop complaint (str "concerns");
  concerns ← Json.elements_or_empty cs;
  next_id "conc_" concerns.

(** An object with the identifier [id] and nothing else. *)
Definition with_id (id : jsstr) : Json.value := Json.VObj [(str "id", Json.VStr id)].


(* ===================================================================== *)
(** * The data layer: storing and finding a complaint *)
(* ===================================================================== *)

(** [a === b] on the content of records. Two objects or arrays are
    strictly equal when they are the same object, which the content
    does not tell. *)
Definition strict_equal (a b : Json.value) : outcome bool :=
  match a, b with
  | Json.VUndef, Json.VUndef | Json.VNull, Json.VNull => Ok true
  | Json.VBool x, Json.VBool y => Ok (bool_decide (x = y))
  | Json.VNum x, Json.VNum y =>
      Ok (bool_decide (x = y) && negb (bool_decide (x = str "NaN")))
  | Json.VStr x, Json.VStr y => Ok (bool_decide (x = y))
  | (Json.VArr _ | Json.VObj _), (Json.VArr _ | Json.VObj _) => Unmodelled
  | _, _ => Ok false
  end.

(** [l.findIndex(f)] with a callback that may throw: the index of the
    first element the callback accepts. *)
Fixpoint findIndex {A} (f : A -> outcome bool) (l : list A) : outcome (option nat) :=
  match l with
  | [] => Ok None
  | x :: l' =>
      b ← f x;
      if (b : bool) then Ok (Some O) else option_map S <$> findIndex f l'
  end.

(** [l.find(f)]: the first element the callback accepts. *)
Fixpoint find_first {A} (f : A -> outcome bool) (l : list A) : outcome (option A) :=
  match l with
  | [] => Ok None
  | x :: l' => b ← f x; if (b : bool) then Ok (Some x) else find_first f l'
  end.

(** The callback [c => c.id === id]. *)
Definition id_is (id : Json.value) (c : Json.value) : outcome bool :=
  a ← Json.get_prop c (str "id");
  strict_equal a id.

Section DataStore.

(** [Data.save()]: the arrays of the data layer are written to
    [localStorage] as JSON text. The call reads the data and changes
    none of it; it throws when the data cannot be written. *)
Variable save : list Json.value -> outcome unit.

(** [Data.upsertComplaint(newComplaint)] as a function of the elements
    of [Data.complaints]: the first complaint with the identifier of the
    new one is replaced, or the new one is added at the end; then the
    data is saved. The callback reads [c.id] and then
    [newComplaint.id]. *)
Definition upsertComplaint (complaints : list Json.value) (newComplaint : Json.value)
    : outcome (list Json.value) :=
  idx ← findIndex (fun c => a ← Json.get_prop c (str "id");
                            b ← Json.get_prop newComplaint (str "id");
                            strict_equal a b) complaints;
  let complaints' := match idx with
                     | Some i => <[i := newComplaint]> complaints
                     | None => complaints ++ [newComplaint]
                     end in
  save complaints';;
  Ok complaints'.

End DataStore.

(** [Data.getComplaint(id)]: the first complaint with that identifier,
    [undefined] when there is none. *)
Definition getComplaint (complaints : list Json.value) (id : Json.value)
    : outcome Json.value :=
  found ← find_first (id_is id) complaints;
  Ok (default Json.VUndef found).

(** The identifier of a complaint when it is a string. *)
Definition id_text (c : Json.value) : option jsstr :=
  match Json.get_prop c (str "id") with
  | Ok (Json.VStr s) => Some s
  | _ => None
  end.

(** A store that always accepts the data. *)
Definition save_ok (complaints : list Json.value) : outcome unit := Ok tt.


(* ===================================================================== *)
(** * The CSV exports *)
(* ===================================================================== *)

(** [re.test(s)] for a pattern without the [g] flag: the pattern is
    tried at every position from the first on. *)
Fixpoint test_walk (re : RegExp) (prev : option N) (s : jsstr) : bool :=
  match match_at re (prev, s) with
  | Some _ => true
  | None =>
      match s with
      | ch :: s' => test_walk re (Some ch) s'
      | [] => false
      end
  end.

Definition RegExp_test (re : RegExp) (s : jsstr) : bool := test_walk re None s.

(** The quote, the comma and the line feed. *)
Definition quote : N := 34.
Definition comma : N := 44.
Definition line_feed : N := 10.

(** The pattern that finds a character in need of quotes, and the
    pattern of the quotes to double. *)
Definition needs_quotes : RegExp := mkRegExp (Chars [quote; comma; line_feed]) false.
Definition every_quote : RegExp := mkRegExp (Chars [quote]) false.

(** The text of a cell: in quotes, with every quote doubled, when it
    holds a quote, a comma or a line feed; as it is otherwise. *)
Definition csv_quote (s : jsstr) : jsstr :=
  if RegExp_test needs_quotes s
  then [quote] ++ replace every_quote [quote; quote] s ++ [quote]
  else s.

(** [v || ''] and [String(v || '')]. *)
Definition or_text (v : Json.value) : Json.value :=
  if Json.truthy v then v else Json.VStr [].

Definition cell_text (v : Json.value) : outcome jsstr := Json.ToString (or_text v).

(** [(v || '').slice(0, 10)]: the first ten characters of a string, the
    first ten elements of an array; no other truthy value has the
    method. *)
Definition date_prefix (v : Json.value) : outcome Json.value :=
  match or_text v with
  | Json.VStr s => Ok (Json.VStr (slice 0 10 s))
  | Json.VArr l => Ok (Json.VArr (take 10 l))
  | _ => Throws
  end.

(** The row of a complaint:
    [[c.id, c.title, c.institution||'', (c.dateFiled||'').slice(0,10), c.status||'']]. *)
Definition complaint_row (c : Json.value) : outcome (list Json.value) :=
  id ← Json.get_prop c (str "id");
  title ← Json.get_prop c (str "title");
  institution ← Json.get_prop c (str "institution");
  dateFiled ← Json.get_prop c (str "dateFiled");
  filed ← date_prefix dateFiled;
  status ← Json.get_prop c (str "status");
  Ok [id; title; or_text institution; filed; or_text status].

Definition complaint_headers : list jsstr :=
  map str ["ID"; "Title"; "Institution"; "Date Filed"; "Status"]%string.

(** [exportComplaintsCsv(list)]: the text handed to [downloadBlob]. *)
Definition exportComplaintsCsv (complaints : list Json.value) : outcome jsstr :=
  rows ← map_outcome complaint_row complaints;
  lines ← map_outcome
            (fun r => join [comma] <$> map_outcome (fun v => csv_quote <$> cell_text v) r)
            rows;
  Ok (join [line_feed] (join [comma] complaint_headers :: lines)).

(** The texts of the cells, row by row. *)
Definition complaint_table (complaints : list Json.value)
    : outcome (list (list jsstr)) :=
  rows ← map_outcome complaint_row complaints;
  map_outcome (map_outcome cell_text) rows.

(** A character that puts a cell in quotes. *)
Definition special (ch : N) : bool :=
  (ch =? quote) || (ch =? comma) || (ch =? line_feed).

(** Every quote written twice. *)
Definition double_quotes (s : jsstr) : jsstr :=
  flat_map (fun ch => if ch =? quote then [quote; quote] else [ch]) s.

(** ** Readers of CSV text

    The export is checked against two readers that share one step
    function. In both, cells are separated by commas; a cell that
    starts with a quote runs to the next quote that is not doubled, and
    a doubled quote in it stands for one quote.

    [read_lf] ends a row at a line feed only and takes every other
    character outside quotes, a carriage return included, as text. It
    is not a reader of the CSV format; it is the left inverse used to
    show that the export loses nothing.

    [read_csv] is the reader of RFC 4180: a row ends at a line feed or
    at a carriage return followed by a line feed, and a line break at
    the end of the text ends the last row without starting another. *)
Inductive csv_mode := AtStart | InRaw | InQuoted | AfterQuote.

Record csv_state := mkCsv {
  mode : csv_mode;
  cell : jsstr;              (* the cell being read, last character first *)
  row : list jsstr;          (* the cells of the row being read, last first *)
  rows : list (list jsstr)   (* the rows read, last first *)
}.

Definition end_cell (st : csv_state) : csv_state :=
  mkCsv AtStart [] (rev (cell st) :: row st) (rows st).

Definition end_row (st : csv_state) : csv_state :=
  mkCsv AtStart [] [] (rev (rev (cell st) :: row st) :: rows st).

Definition keep (ch : N) (m : csv_mode) (st : csv_state) : csv_state :=
  mkCsv m (ch :: cell st) (row st) (rows st).

Definition csv_step (st : csv_state) (ch : N) : csv_state :=
  match mode st with
  | InQuoted =>
      if ch =? quote then mkCsv AfterQuote (cell st) (row st) (rows st)
      else keep ch InQuoted st
  | AfterQuote =>
      if ch =? quote then keep ch InQuoted st
      else if ch =? comma then end_cell st
      else if ch =? line_feed then end_row st
      else keep ch InRaw st
  | AtStart =>
      if ch =? quote then mkCsv InQuoted (cell st) (row st) (rows st)
      else if ch =? comma then end_cell st
      else if ch =? line_feed then end_row st
      else keep ch InRaw st
  | InRaw =>
      if ch =? comma then end_cell st
      else if ch =? line_feed then end_row st
      else keep ch InRaw st
  end.

Definition csv_run (st : csv_state) (text : jsstr) : csv_state :=
  fold_left csv_step text st.

Definition read_lf (text : jsstr) : list (list jsstr) :=
  rev (rows (end_row (csv_run (mkCsv AtStart [] [] []) text))).

Definition carriage_return : N := 13.

(** A step of the reader of RFC 4180 when no carriage return is
    pending: outside quotes a carriage return is held back until the
    next character is seen. *)
Definition plain_step (st : csv_state) (ch : N) : bool * csv_state :=
  match mode st with
  | InQuoted => (false, csv_step st ch)
  | _ => if ch =? carriage_return then (true, st) else (false, csv_step st ch)
  end.

(** A carriage return held back is a line break with the line feed that
    follows it, and text before any other character. *)
Definition rfc_step (x : bool * csv_state) (ch : N) : bool * csv_state :=
  if x.1 then
    if ch =? line_feed then (false, end_row x.2)
    else plain_step (keep carriage_return InRaw x.2) ch
  else plain_step x.2 ch.

(** The rows at the end of the text: the row being read is the last
    one, unless the text is empty or ends with a line break. *)
Definition csv_finish (st : csv_state) : list (list jsstr) :=
  match mode st, row st with
  | AtStart, [] => rows st
  | _, _ => rows (end_row st)
  end.

Definition read_csv (text : jsstr) : list (list jsstr) :=
  let x := fold_left rfc_step text (false, mkCsv AtStart [] [] []) in
  rev (csv_finish (if x.1 then keep carriage_return InRaw x.2 else x.2)).

(** The line of a row of cell texts. *)
Definition csv_line (r : list jsstr) : jsstr := join [comma] (map csv_quote r).

(** ** The export of the institutions *)

(** [r.caseCount || 0] and [String] of it. *)
Definition case_count (v : Json.value) : outcome Json.value :=
  Json.VStr <$> Json.ToString (if Json.truthy v then v else Json.VNum (str "0")).

(** The cells of an institution:
    [[r.name||'', r.address||'', r.email||'', String(r.caseCount||0)]]. *)
Definition institution_row (r : Json.value) : outcome (list Json.value) :=
  name ← Json.get_prop r (str "name");
  address ← Json.get_prop r (str "address");
  email ← Json.get_prop r (str "email");
  caseCount ← Json.get_prop r (str "caseCount");
  cases ← case_count caseCount;
  Ok [or_text name; or_text address; or_text email; cases].

(** The callback of [line.map]: a cell in which the pattern finds a
    quote, a comma or a line feed is written in quotes with its quotes
    doubled, any other as it is; [join] then takes the text of the
    result. The test reads the text of [s]; only a string has the
    method [replace]. *)
Definition institution_cell (s : Json.value) : outcome jsstr :=
  t ← Json.ToString s;
  if RegExp_test needs_quotes t then
    match s with
    | Json.VStr _ => Ok (csv_quote t)
    | _ => Throws
    end
  else Ok t.

Definition institution_headers : list jsstr :=
  map str ["name"; "address"; "email"; "cases"]%string.

(** [exportInstitutionsCsv(rows)]: the text handed to [downloadBlob]. *)
Definition exportInstitutionsCsv (institutions : list Json.value) : outcome jsstr :=
  lines ← map_outcome
            (fun r => line ← institution_row r;
                      join [comma] <$> map_outcome institution_cell line)
            institutions;
  Ok (join [line_feed] (join [comma] institution_headers :: lines)).

(** The texts of the cells, row by row. *)
Definition institution_table (institutions : list Json.value)
    : outcome (list (list jsstr)) :=
  map_outcome (fun r => line ← institution_row r; map_outcome Json.ToString line)
    institutions.

(** ** Samples *)

(** A title that holds quotes and a comma, and a status that runs over
    two lines. *)
Definition quoted_title : jsstr :=
  str "Told " ++ [quote] ++ str "no" ++ [quote] ++ str ", twice".

Definition two_line_status : jsstr := str "Filed" ++ [line_feed] ++ str "chased".

Definition sample_csv_complaints : list Json.value :=
  [obj [("id", text "cmp_001");
        ("title", Json.VStr quoted_title);
        ("institution", text "GMC");
        ("dateFiled", text "2025-06-10T08:00:00Z");
        ("status", text "Refused")];
   obj [("id", text "cmp_002");
        ("title", text "No reply");
        ("status", Json.VStr two_line_status)]]%string.

(** Other complaints with the same cells: a property that is not
    exported, an institution that is the empty string and a filing date
    that is [null]. *)
Definition sample_csv_complaints_too : list Json.value :=
  [obj [("id", text "cmp_001");
        ("title", Json.VStr quoted_title);
        ("institution", text "GMC");
        ("contactPerson", text "J. Doe");
        ("dateFiled", text "2025-06-10T17:45:00Z");
        ("status", text "Refused")];
   obj [("id", text "cmp_002");
        ("title", text "No reply");
        ("institution", text "");
        ("dateFiled", Json.VNull);
        ("status", Json.VStr two_line_status)]]%string.

(** The text of an export, empty if there is none. *)
Definition exported (r : outcome jsstr) : jsstr :=
  match r with
  | Ok t => t
  | _ => []
  end.

(** A complaint whose status ends with a carriage return. *)
Definition returned_status : jsstr := str "Filed" ++ [carriage_return].

Definition status_with_return : list Json.value :=
  [obj [("id", text "cmp_001"); ("title", text "No reply");
        ("status", Json.VStr returned_status)]]%string.

Definition sample_institutions : list Json.value :=
  [obj [("name", text "Devon & Cornwall Police");
        ("address", text "Middlemoor, Exeter");
        ("email", text "psd@example.org");
        ("caseCount", Json.VNum (str "2"))];
   obj [("name", text "GMC")]]%string.


(* ===================================================================== *)
(** * The status of a complaint on the dashboard *)
(* ===================================================================== *)

(** The lower-case form of an ASCII character; a character outside
    ASCII is left as it is. *)
Definition lower_char (ch : N) : N :=
  if (65 <=? ch) && (ch <=? 90) then ch + 32 else ch.

Section Lowering.

(** The Unicode lower-case mapping on a run of characters outside ASCII:
    [lower_run before run after] is what [toLowerCase] writes for [run]
    where it stands between the texts [before] and [after]. The context
    matters for the capital sigma, which is written as a final sigma at
    the end of a word. *)
Variable lower_run : jsstr -> jsstr -> jsstr -> jsstr.

(** What is written for the run read so far, kept last character first:
    nothing when there is none. *)
Definition lower_flush (before run after : jsstr) : jsstr :=
  match run with
  | [] => []
  | _ => lower_run (rev before) (rev run) after
  end.

(** [s.toLowerCase()]: an ASCII letter is written in lower case, any
    other ASCII character as it is, and every longest run of characters
    outside ASCII as the Unicode tables have it. [before] is the text
    already passed and [run] the run being read, both last character
    first. *)
Fixpoint lower_walk (before run s : jsstr) : jsstr :=
  match s with
  | [] => lower_flush before run []
  | ch :: s' =>
      if ch <? 128
      then lower_flush before run s ++ lower_char ch :: lower_walk (ch :: run ++ before) [] s'
      else lower_walk before (ch :: run) s'
  end.

Definition toLowerCase (s : jsstr) : jsstr := lower_walk [] [] s.

(** [(v || '').toLowerCase()]: only a string has the method. *)
Definition lower_text (v : Json.value) : outcome jsstr :=
  match or_text v with
  | Json.VStr s => Ok (toLowerCase s)
  | _ => Throws
  end.

End Lowering.

(** A table for the samples, which leaves every character outside ASCII
    as it is. *)
Definition unchanged_run (before run after : jsstr) : jsstr := run.

(** A pattern that is a choice between words. *)
Definition words (ws : list string) : regex := alt_all (map lit ws).

(** [/refus|refused|rejected|declined/], [/resolved|closed/] and
    [/escalated|phso|appeal|iopc|chief|legal/]. *)
Definition refused_words : list string :=
  ["refus"; "refused"; "rejected"; "declined"]%string.
Definition resolved_words : list string := ["resolved"; "closed"]%string.
Definition escalated_words : list string :=
  ["escalated"; "phso"; "appeal"; "iopc"; "chief"; "legal"]%string.

(** The four chips. *)
Inductive chip := Refused | Resolved | Escalated | Unresolved.

(** The markup of a chip: a [span] of class [chip] and of a class of
    its own, with a sign and a word. *)
Definition chip_html (c : chip) : jsstr :=
  let span (class : string) (sign : jsstr) (word : string) :=
    str "<span class=" ++ [quote] ++ str "chip " ++ str class ++ [quote] ++ str ">"
    ++ sign ++ str " " ++ str word ++ str "</span>" in
  match c with
  | Refused => span "status-refused"%string [0x26D4] "Refused"%string
  | Resolved => span "status-green"%string [0xD83D; 0xDFE2] "Resolved"%string
  | Escalated => span "status-amber"%string [0xD83D; 0xDFE0] "Escalated"%string
  | Unresolved => span "status-red"%string [0xD83D; 0xDD34] "Unresolved"%string
  end.

Section Status.

Variable lower_run : jsstr -> jsstr -> jsstr -> jsstr.

(** The chip [renderStatusChip] chooses. *)
Definition status_chip (complaint : Json.value) : outcome chip :=
  st ← Json.get_prop complaint (str "status");
  status ← lower_text lower_run st;
  if RegExp_test (mkRegExp (words refused_words) false) status then Ok Refused
  else if RegExp_test (mkRegExp (words resolved_words) false) status then Ok Resolved
  else if RegExp_test (mkRegExp (words escalated_words) false) status then Ok Escalated
  else Ok Unresolved.

(** [renderStatusChip(complaint)]. *)
Definition renderStatusChip (complaint : Json.value) : outcome jsstr :=
  chip_html <$> status_chip complaint.

(** The callbacks of the two filters of [computeMetrics]:
    [c => (c.status||'').toLowerCase().includes('escalated')] and
    [c => !/(resolved|closed)/i.test(c.status || '')]. The test takes
    the text of its argument. *)
Definition counts_as_escalated (c : Json.value) : outcome bool :=
  st ← Json.get_prop c (str "status");
  status ← lower_text lower_run st;
  Ok (occurs_in (str "escalated") status).

Definition counts_as_unresolved (c : Json.value) : outcome bool :=
  st ← Json.get_prop c (str "status");
  status ← Json.ToString (or_text st);
  Ok (negb (RegExp_test (mkRegExp (words resolved_words) true) status)).

End Status.

(** A complaint with the status [s] and nothing else. *)
Definition with_status (s : string) : Json.value := obj [("status"%string, text s)].

(** The text [s] starts with the word [w], letters compared as the
    pattern compares them; and [w] occurs in [s]. *)
Fixpoint starts_with (ic : bool) (w s : jsstr) : bool :=
  match w, s with
  | [], _ => true
  | a :: w', ch :: s' =>
      (Canonicalize ic a =? Canonicalize ic ch) && starts_with ic w' s'
  | _ :: _, [] => false
  end.

Fixpoint contains (ic : bool) (w s : jsstr) : bool :=
  starts_with ic w s ||
  match s with
  | [] => false
  | _ :: s' => contains ic w s'
  end.

(** Some word of the list occurs in the text. *)
Definition has_word (ws : list string) (s : jsstr) : bool :=
  existsb (fun w => occurs_in (str w) s) ws.

(** Two texts that are alike but for their runs of characters that no
    word of the patterns contains: characters outside ASCII, [i] and
    [k]. A run of the one text answers to a run of the other. *)
Definition outside_words (u : N) : Prop := 128 <= u \/ u = 105 \/ u = 107.

Inductive alike : jsstr -> jsstr -> Prop :=
| alike_nil : alike [] []
| alike_cons c x y : alike x y -> alike (c :: x) (c :: y)
| alike_runs a b x y :
    a <> [] -> b <> [] -> Forall outside_words a -> Forall outside_words b ->
    alike x y -> alike (a ++ x) (b ++ y).

(** A status with a dash that is not an ASCII character. *)
Definition dashed_status : jsstr := str "Unresolved " ++ [0x2013] ++ str " awaiting reply".

(* ===================================================================== *)
(** * Base64 *)
(* ===================================================================== *)

(** The alphabet of base64 and the padding character. *)
Definition base64_alphabet : jsstr :=
  str "ABCDEFGHIJKLMNOPQRSTUVWXYZabcdefghijklmnopqrstuvwxyz0123456789+/".

Definition base64_pad : N := 61.

(** The character of a six-bit value. *)
Definition base64_char (i : N) : N := nth (N.to_nat i) base64_alphabet 0.

(** The six-bit value of a character of the alphabet. *)
Definition base64_index (ch : N) : option N :=
  N.of_nat <$> find (fun i => nth i base64_alphabet 0 =? ch) (seq 0 64).

(** Base64 with padding: three bytes give four characters. *)
Fixpoint base64_encode (bytes : list N) : jsstr :=
  match bytes with
  | a :: b :: c :: rest =>
      base64_char (a / 4) :: base64_char (a mod 4 * 16 + b / 16)
      :: base64_char (b mod 16 * 4 + c / 64) :: base64_char (c mod 64)
      :: base64_encode rest
  | [a; b] =>
      [base64_char (a / 4); base64_char (a mod 4 * 16 + b / 16);
       base64_char (b mod 16 * 4); base64_pad]
  | [a] => [base64_char (a / 4); base64_char (a mod 4 * 16); base64_pad; base64_pad]
  | [] => []
  end.

(** [btoa(s)]: a character above U+00FF is refused; the others are
    taken as bytes. *)
Definition btoa (s : jsstr) : outcome jsstr :=
  if forallb (fun ch => ch <=? 255) s then Ok (base64_encode s) else Throws.

(** [arrayBufferToBase64(buffer)]: the bytes are written as characters,
    one for each, and the string is given to [btoa]. *)
Definition arrayBufferToBase64 (buffer : list Byte.byte) : outcome jsstr :=
  btoa (map Byte.to_N buffer).

(** The bytes of a run of six-bit values: four values give three
    bytes; of two or three values left over, the bits that do not fill
    a byte are dropped. *)
Fixpoint base64_bytes (values : list N) : list N :=
  match values with
  | a :: b :: c :: d :: rest =>
      (a * 4 + b / 16) :: (b mod 16 * 16 + c / 4) :: (c mod 4 * 64 + d)
      :: base64_bytes rest
  | [a; b; c] => [a * 4 + b / 16; b mod 16 * 16 + c / 4]
  | [a; b] => [a * 4 + b / 16]
  | _ => []
  end.

(** ASCII white space: tab, line feed, form feed, carriage return and
    space. *)
Definition ascii_whitespace (ch : N) : bool :=
  (ch =? 9) || (ch =? 10) || (ch =? 12) || (ch =? 13) || (ch =? 32).

(** One or two padding characters removed from the end. *)
Definition strip_padding (data : jsstr) : jsstr :=
  match rev data with
  | p1 :: p2 :: r =>
      if p1 =? base64_pad then
        if p2 =? base64_pad then rev r else rev (p2 :: r)
      else data
  | [p1] => if p1 =? base64_pad then [] else data
  | [] => []
  end.

(** [atob(data)], the forgiving decoder: white space is removed; when
    the length is a multiple of four, one or two padding characters are
    removed from the end; a length that leaves the remainder one, or a
    character outside the alphabet, is refused. *)
Definition atob (data : jsstr) : outcome jsstr :=
  let d1 := List.filter (fun ch => negb (ascii_whitespace ch)) data in
  let d2 := if (length d1 mod 4 =? 0)%nat then strip_padding d1 else d1 in
  if (length d2 mod 4 =? 1)%nat then Throws
  else match mapM base64_index d2 with
       | Some values => Ok (base64_bytes values)
       | None => Throws
       end.

(** The six-bit values of a run of bytes, and the number of padding
    characters that follow their characters. *)
Fixpoint base64_values (bytes : list N) : list N :=
  match bytes with
  | a :: b :: c :: rest =>
      (a / 4) :: (a mod 4 * 16 + b / 16) :: (b mod 16 * 4 + c / 64) :: (c mod 64)
      :: base64_values rest
  | [a; b] => [a / 4; a mod 4 * 16 + b / 16; b mod 16 * 4]
  | [a] => [a / 4; a mod 4 * 16]
  | [] => []
  end.

Fixpoint padding_of (bytes : list N) : nat :=
  match bytes with
  | _ :: _ :: _ :: rest => padding_of rest
  | [_; _] => 1
  | [_] => 2
  | [] => 0
  end.


(* ===================================================================== *)
(** * Properties of the encoder and of [sha256Hex] *)
(* ===================================================================== *)

Lemma byte_of_N_to_N (n : N) : n < 256 -> Byte.to_N (byte_of_N n) = n.
Proof.
  intros Hn. unfold byte_of_N.
  destruct (Byte.of_N n) as [b|] eqn:E.
  - simpl. apply Byte.to_of_N. exact E.
  - apply Byte.of_N_None_iff in E. lia.
Qed.

Lemma map_byte_of_N_inj (l1 l2 : list N) :
  Forall (fun n => n < 256) l1 -> Forall (fun n => n < 256) l2 ->
  map byte_of_N l1 = map byte_of_N l2 -> l1 = l2.
Proof.
  intros H1. revert l2.
  induction H1 as [|x l1 Hx _ IH]; intros l2 H2 E; destruct H2 as [|y l2 Hy H2];
    simpl in E; try discriminate; [reflexivity|].
  injection E as Exy E. f_equal; [|eauto].
  rewrite <- (byte_of_N_to_N x Hx), <- (byte_of_N_to_N y Hy). congruence.
Qed.

Lemma utf8_of_scalar_bytes (u : N) :
  u < 0x110000 -> Forall (fun n => n < 256) (utf8_of_scalar u).
Proof.
  intros Hu. unfold utf8_of_scalar.
  repeat case_match; repeat constructor;
    repeat match goal with H : (_ <? _) = _ |- _ =>
      first [apply N.ltb_lt in H | apply N.ltb_ge in H] end; nlia.
Qed.

Lemma utf8_of_scalar_not_nil (u : N) : utf8_of_scalar u <> [].
Proof. unfold utf8_of_scalar. repeat case_match; discriminate. Qed.

(** UTF-8 is a prefix code: the encoded scalar value can be read back. *)
Lemma utf8_of_scalar_prefix (u v : N) (a b : list N) :
  u < 0x110000 -> v < 0x110000 ->
  utf8_of_scalar u ++ a = utf8_of_scalar v ++ b -> u = v /\ a = b.
Proof.
  intros Hu Hv. unfold utf8_of_scalar.
  repeat case_match;
    repeat match goal with H : (_ <? _) = _ |- _ =>
      first [apply N.ltb_lt in H | apply N.ltb_ge in H] end;
    simpl; intros E; simplify_eq;
    first [split; [nlia | reflexivity] | exfalso; nlia].
Qed.

Lemma surrogate_split (c : N) :
  is_surrogate c = is_high_surrogate c || is_low_surrogate c.
Proof.
  unfold is_surrogate, is_high_surrogate, is_low_surrogate.
  destruct (N.leb_spec 0xD800 c), (N.leb_spec c 0xDBFF), (N.leb_spec 0xDC00 c),
    (N.leb_spec c 0xDFFF); simpl; try reflexivity; lia.
Qed.

Lemma utf8_units_unit (c : N) (s : jsstr) :
  is_surrogate c = false -> utf8_units (c :: s) = utf8_of_scalar c ++ utf8_units s.
Proof.
  rewrite surrogate_split. intros [H1 H2]%orb_false_iff. simpl. rewrite H1, H2.
  reflexivity.
Qed.

Lemma utf8_units_pair (h l : N) (s : jsstr) :
  is_high_surrogate h = true -> is_low_surrogate l = true ->
  utf8_units (h :: l :: s) = utf8_of_scalar (pair_scalar h l) ++ utf8_units s.
Proof. intros H1 H2. simpl. rewrite H1, H2. reflexivity. Qed.

Lemma pair_scalar_range (h l : N) :
  is_high_surrogate h = true -> is_low_surrogate l = true ->
  0x10000 <= pair_scalar h l < 0x110000.
Proof.
  unfold is_high_surrogate, is_low_surrogate, pair_scalar.
  intros [H1 H2]%andb_true_iff [H3 H4]%andb_true_iff.
  apply N.leb_le in H1, H2, H3, H4. lia.
Qed.

Lemma pair_scalar_inj (h l h' l' : N) :
  is_high_surrogate h = true -> is_low_surrogate l = true ->
  is_high_surrogate h' = true -> is_low_surrogate l' = true ->
  pair_scalar h l = pair_scalar h' l' -> h = h' /\ l = l'.
Proof.
  unfold is_high_surrogate, is_low_surrogate, pair_scalar.
  intros [H1 H2]%andb_true_iff [H3 H4]%andb_true_iff
         [H5 H6]%andb_true_iff [H7 H8]%andb_true_iff.
  apply N.leb_le in H1, H2, H3, H4, H5, H6, H7, H8. lia.
Qed.

Lemma utf8_units_bytes (s : jsstr) :
  well_formed s -> Forall (fun n => n < 256) (utf8_units s).
Proof.
  induction 1 as [|c s Hc Hs _ IH|h l s Hh Hl _ IH].
  - constructor.
  - rewrite utf8_units_unit by assumption.
    apply Forall_app. split; [apply utf8_of_scalar_bytes; lia | exact IH].
  - rewrite utf8_units_pair by assumption.
    apply Forall_app. split; [|exact IH].
    apply utf8_of_scalar_bytes. apply pair_scalar_range; assumption.
Qed.

(** On well-formed strings the encoder loses nothing. *)
Lemma utf8_units_inj (s t : jsstr) :
  well_formed s -> well_formed t -> utf8_units s = utf8_units t -> s = t.
Proof.
  intros Hs. revert t.
  induction Hs as [|c s Hc Hcs _ IH|h l s Hh Hl _ IH];
    intros t Ht; destruct Ht as [|c' t Hc' Hcs' Ht|h' l' t Hh' Hl' Ht]; intros E;
    rewrite ?(utf8_units_unit c), ?(utf8_units_unit c'),
      ?(utf8_units_pair h l), ?(utf8_units_pair h' l') in E by assumption;
    try pose proof (pair_scalar_range h l Hh Hl);
    try pose proof (pair_scalar_range h' l' Hh' Hl').
  - reflexivity.
  - symmetry in E. apply app_eq_nil in E as [E _].
    destruct (utf8_of_scalar_not_nil _ E).
  - symmetry in E. apply app_eq_nil in E as [E _].
    destruct (utf8_of_scalar_not_nil _ E).
  - apply app_eq_nil in E as [E _]. destruct (utf8_of_scalar_not_nil _ E).
  - apply utf8_of_scalar_prefix in E as [-> E]; [|lia..].
    f_equal. auto.
  - apply utf8_of_scalar_prefix in E as [E _]; lia.
  - apply app_eq_nil in E as [E _]. destruct (utf8_of_scalar_not_nil _ E).
  - apply utf8_of_scalar_prefix in E as [E _]; lia.
  - apply utf8_of_scalar_prefix in E as [E1 E]; [|lia..].
    apply pair_scalar_inj in E1 as [-> ->]; try assumption.
    f_equal. f_equal. auto.
Qed.

Lemma TextEncoder_encode_inj (s t : jsstr) :
  well_formed s -> well_formed t ->
  TextEncoder_encode s = TextEncoder_encode t -> s = t.
Proof.
  intros Hs Ht E. apply utf8_units_inj; try assumption.
  apply map_byte_of_N_inj; auto using utf8_units_bytes.
Qed.

Lemma well_formed_app (s t : jsstr) :
  well_formed s -> well_formed t -> well_formed (s ++ t).
Proof.
  intros Hs Ht.
  induction Hs; simpl; [assumption | apply wf_unit; auto | apply wf_pair; auto].
Qed.

Lemma well_formed_ascii (s : jsstr) :
  Forall (fun c => c < 128) s -> well_formed s.
Proof.
  induction 1 as [|c s Hc _ IH]; [constructor|].
  apply wf_unit; [lia | | exact IH].
  unfold is_surrogate. destruct (N.leb_spec 0xD800 c); [lia | reflexivity].
Qed.

Lemma hex_pair_eq (b : Byte.byte) :
  hex_pair b = [hex_digit (Byte.to_N b / 16); hex_digit (Byte.to_N b mod 16)].
Proof.
  unfold hex_pair, toString16, padStart.
  destruct (N.ltb_spec (Byte.to_N b) 16) as [H|H]; simpl; [|reflexivity].
  rewrite N.div_small, N.mod_small by assumption. reflexivity.
Qed.

Lemma hex_digit_lower (d : N) : d < 16 -> is_lower_hex (hex_digit d) = true.
Proof.
  intros Hd. unfold hex_digit, is_lower_hex.
  destruct (N.ltb_spec d 10).
  - replace (48 <=? 48 + d) with true by (symmetry; apply N.leb_le; lia).
    replace (48 + d <=? 57) with true by (symmetry; apply N.leb_le; lia).
    reflexivity.
  - replace (97 <=? 87 + d) with true by (symmetry; apply N.leb_le; lia).
    replace (87 + d <=? 102) with true by (symmetry; apply N.leb_le; lia).
    apply orb_true_r.
Qed.

Lemma hex_digit_inj (d e : N) : d < 16 -> e < 16 -> hex_digit d = hex_digit e -> d = e.
Proof.
  unfold hex_digit. intros Hd He.
  destruct (N.ltb_spec d 10), (N.ltb_spec e 10); lia.
Qed.

Lemma byte_to_N_bound (b : Byte.byte) : Byte.to_N b < 256.
Proof. destruct b; vm_compute; reflexivity. Qed.

Lemma byte_to_N_inj (a b : Byte.byte) : Byte.to_N a = Byte.to_N b -> a = b.
Proof.
  intros E. apply (f_equal Byte.of_N) in E. rewrite !Byte.of_to_N in E. congruence.
Qed.

Lemma hex_pair_inj (a b : Byte.byte) : hex_pair a = hex_pair b -> a = b.
Proof.
  rewrite !hex_pair_eq. intros E. injection E as E1 E2.
  pose proof (byte_to_N_bound a). pose proof (byte_to_N_bound b).
  apply hex_digit_inj in E1; [|nlia..]. apply hex_digit_inj in E2; [|nlia..].
  apply byte_to_N_inj. nlia.
Qed.

Lemma concat_hex_pair_inj (l1 l2 : list Byte.byte) :
  concat (map hex_pair l1) = concat (map hex_pair l2) -> l1 = l2.
Proof.
  revert l2. induction l1 as [|a l1 IH]; intros [|b l2]; simpl;
    rewrite ?hex_pair_eq; try discriminate; [reflexivity|].
  simpl. intros E. injection E as E1 E2 E.
  f_equal; [|auto]. apply hex_pair_inj. rewrite !hex_pair_eq. congruence.
Qed.

Lemma utf8_units_ascii_cons (c : N) (s : jsstr) :
  c < 128 -> utf8_units (c :: s) = c :: utf8_units s.
Proof.
  intros Hc. rewrite utf8_units_unit.
  - unfold utf8_of_scalar. destruct (N.ltb_spec c 0x80); [reflexivity | lia].
  - unfold is_surrogate. destruct (N.leb_spec 0xD800 c); [lia | reflexivity].
Qed.

(** The encoder writes an ASCII character as the byte of its code. *)
Lemma utf8_units_ascii (s : jsstr) : Forall (fun c => c < 128) s -> utf8_units s = s.
Proof.
  induction 1 as [|c s Hc _ IH]; [reflexivity|].
  rewrite utf8_units_ascii_cons, IH by exact Hc. reflexivity.
Qed.

(** An ASCII character is never the second half of a pair: the bytes
    before it and after it are those of the two parts. *)
Lemma utf8_units_app_ascii (a b : jsstr) (c : N) :
  c < 128 -> utf8_units (a ++ c :: b) = utf8_units a ++ c :: utf8_units b.
Proof.
  intros Hc.
  assert (Hlow : is_low_surrogate c = false).
  { unfold is_low_surrogate. destruct (N.leb_spec 0xDC00 c); [lia | reflexivity]. }
  assert (H : forall n a, (length a <= n)%nat ->
            utf8_units (a ++ c :: b) = utf8_units a ++ c :: utf8_units b).
  { clear a. induction n as [|n IH]; intros a Hn.
    - destruct a; [|simpl in Hn; lia]. apply utf8_units_ascii_cons, Hc.
    - destruct a as [|x a]; [apply utf8_units_ascii_cons, Hc|].
      simpl in Hn. cbn [app utf8_units].
      destruct (is_high_surrogate x).
      + destruct a as [|d a]; cbn [app].
        * rewrite Hlow, utf8_units_ascii_cons by exact Hc. reflexivity.
        * simpl in Hn. destruct (is_low_surrogate d).
          -- rewrite IH by lia. rewrite app_assoc. reflexivity.
          -- change (d :: a ++ c :: b) with ((d :: a) ++ c :: b).
             rewrite (IH (d :: a)) by (simpl; lia). rewrite app_assoc. reflexivity.
      + destruct (is_low_surrogate x); rewrite IH by lia; rewrite app_assoc; reflexivity. }
  apply (H (length a)). lia.
Qed.

Lemma hex_digit_alphabet (k : N) :
  k < 16 -> str "0123456789abcdef" !! N.to_nat k = Some (hex_digit k).
Proof.
  intros Hk. rewrite <- (N2Nat.id k) at 2.
  assert (Hn : (N.to_nat k < 16)%nat) by lia.
  revert Hn. generalize (N.to_nat k). intros n Hn.
  do 16 (destruct n as [|n]; [reflexivity|]). lia.
Qed.

(** Every number the encoder writes for 16-bit code units is a byte. *)
Lemma utf8_units_code_units (s : jsstr) :
  code_units s -> Forall (fun n => n < 256) (utf8_units s).
Proof.
  assert (Hrep : Forall (fun n => n < 256) (utf8_of_scalar 0xFFFD))
    by (apply utf8_of_scalar_bytes; lia).
  assert (H : forall n s, (length s <= n)%nat -> code_units s ->
            Forall (fun n => n < 256) (utf8_units s)).
  { clear s. induction n as [|n IH]; intros s Hn Hs.
    - destruct s; [constructor | simpl in Hn; lia].
    - destruct s as [|c s]; [constructor|].
      simpl in Hn. apply Forall_cons in Hs as [Hc Hs]. cbn [utf8_units].
      destruct (is_high_surrogate c) eqn:Eh.
      + destruct s as [|d s]; [exact Hrep|].
        simpl in Hn. destruct (is_low_surrogate d) eqn:El.
        * apply Forall_cons in Hs as [_ Hs]. apply Forall_app. split.
          -- apply utf8_of_scalar_bytes. apply pair_scalar_range; assumption.
          -- apply IH; [lia | exact Hs].
        * apply Forall_app. split; [exact Hrep|]. apply IH; [simpl; lia | exact Hs].
      + destruct (is_low_surrogate c);
          (apply Forall_app; split; [|apply IH; [lia | exact Hs]]);
          [exact Hrep | apply utf8_of_scalar_bytes; lia]. }
  apply (H (length s)). lia.
Qed.

Lemma map_to_N_byte_of_N (l : list N) :
  Forall (fun n => n < 256) l -> map Byte.to_N (map byte_of_N l) = l.
Proof.
  induction 1 as [|x l Hx _ IH]; [reflexivity|].
  simpl. rewrite byte_of_N_to_N, IH by exact Hx. reflexivity.
Qed.

(** The encoded bytes, read as numbers, for a string of code units. *)
Lemma TextEncoder_encode_units (s : jsstr) :
  code_units s -> map Byte.to_N (TextEncoder_encode s) = utf8_units s.
Proof.
  intros Hs. apply map_to_N_byte_of_N, utf8_units_code_units, Hs.
Qed.

Section DigestFacts.

Variable digest : list Byte.byte -> list Byte.byte.

Lemma sha256Hex_eq (input : jsstr) :
  sha256Hex digest input = concat (map hex_pair (digest (TextEncoder_encode input))).
Proof. reflexivity. Qed.

(** The text of a digest is made of lowercase hexadecimal digits, two
    for each byte of the digest. *)
Lemma sha256Hex_lower_hex (input : jsstr) :
  Forall (fun c => is_lower_hex c = true) (sha256Hex digest input)
  /\ length (sha256Hex digest input)
     = (2 * length (digest (TextEncoder_encode input)))%nat.
Proof.
  rewrite sha256Hex_eq.
  induction (digest (TextEncoder_encode input)) as [|b l [IH1 IH2]]; simpl.
  - split; [constructor | reflexivity].
  - rewrite hex_pair_eq. simpl. pose proof (byte_to_N_bound b). split.
    + repeat constructor; [apply hex_digit_lower; nlia .. | exact IH1].
    + rewrite IH2. lia.
Qed.

Lemma sha256Hex_well_formed (input : jsstr) : well_formed (sha256Hex digest input).
Proof.
  apply well_formed_ascii.
  eapply Forall_impl; [exact (proj1 (sha256Hex_lower_hex input))|].
  intros c Hc. simpl in Hc. unfold is_lower_hex in Hc.
  apply orb_true_iff in Hc as [[_ H]%andb_true_iff|[_ H]%andb_true_iff];
    apply N.leb_le in H; lia.
Qed.

(** If the digest has no collisions, neither has [sha256Hex] on
    well-formed strings. *)
Lemma sha256Hex_inj (a b : jsstr) :
  (forall x y, digest x = digest y -> x = y) ->
  well_formed a -> well_formed b ->
  sha256Hex digest a = sha256Hex digest b -> a = b.
Proof.
  intros Hinj Ha Hb E. rewrite !sha256Hex_eq in E.
  apply concat_hex_pair_inj, Hinj in E.
  apply TextEncoder_encode_inj; assumption.
Qed.

End DigestFacts.

(* ===================================================================== *)
(** * Properties of the audit chain *)
(* ===================================================================== *)

Section AuditChainFacts.

Variable digest : list Byte.byte -> list Byte.byte.
Variable Fields : Type.

Lemma or_empty_Some (s : jsstr) : or_empty (Some s) = s.
Proof. destruct s; reflexivity. Qed.

Lemma prev_after_cons (prev : jsstr) (s : jsstr) (h : HistoryEntry) (hist : list HistoryEntry) :
  hash h = Some s -> prev_after prev (h :: hist) = prev_after s hist.
Proof.
  intros Hh. unfold prev_after. destruct hist as [|h' hist].
  - simpl. rewrite Hh. apply or_empty_Some.
  - rewrite last_cons_cons. destruct (last (h' :: hist)) eqn:E; [reflexivity|].
    apply last_None in E. discriminate.
Qed.

(** The predecessor hash that [appendHistory] reads. *)
Lemma appendHistory_entry_eq (now : DateTime) (c : Complaint Fields) (e : jsstr) :
  appendHistory_entry digest now c e
  = let d := slice 0 10 (toISOString now) in
    mkEntry d e
      (Some (sha256Hex digest (chain_input (prev_after [] (default [] (history c))) d e))).
Proof.
  unfold appendHistory_entry, prev_after. simpl.
  destruct (history c) as [hist|]; [|reflexivity]. simpl.
  destruct hist as [|h hist] using rev_ind; [reflexivity|].
  rewrite last_snoc, length_app. simpl.
  replace (0 <? length hist + 1)%nat with true by (symmetry; apply Nat.ltb_lt; lia).
  replace (length hist + 1 - 1)%nat with (length hist) by lia.
  rewrite list_lookup_middle by reflexivity. reflexivity.
Qed.

(** Verifying a history with one more entry. *)
Lemma verify_loop_snoc (prev : jsstr) (hist : list HistoryEntry) (h : HistoryEntry) :
  verify_loop digest prev (hist ++ [h])
  = verify_loop digest prev hist
    && bool_decide (hash h = Some (sha256Hex digest
                      (chain_input (prev_after prev hist) (date h) (event h)))).
Proof.
  revert prev. induction hist as [|h0 hist IH]; intros prev; simpl.
  - unfold prev_after. simpl. destruct (hash h) as [s|]; [|reflexivity].
    repeat case_bool_decide; simplify_eq; reflexivity || congruence.
  - destruct (hash h0) as [s|] eqn:Eh0; [|reflexivity].
    case_bool_decide; [|reflexivity].
    rewrite IH. erewrite prev_after_cons by eassumption. reflexivity.
Qed.

(** One awaited call keeps a valid chain valid. *)
Lemma appendHistory_preserves_validity (now : DateTime) (c : Complaint Fields) (e : jsstr) :
  verifyHistoryChain digest c = true -> verifyHistoryChain digest (appendHistory digest now c e) = true.
Proof.
  unfold verifyHistoryChain, appendHistory, appendHistory_push.
  rewrite appendHistory_entry_eq. simpl. intros Hc.
  rewrite verify_loop_snoc, Hc. simpl. apply bool_decide_eq_true. reflexivity.
Qed.

Lemma appendHistory_all_valid (c : Complaint Fields) (calls : list (DateTime * jsstr)) :
  verifyHistoryChain digest c = true ->
  verifyHistoryChain digest (appendHistory_all digest c calls) = true.
Proof.
  revert c. induction calls as [|[now e] calls IH]; intros c Hc; simpl.
  - exact Hc.
  - apply IH. apply appendHistory_preserves_validity. exact Hc.
Qed.

(** The events and the number of entries of a run of calls. *)
Lemma appendHistory_all_events (c : Complaint Fields) (calls : list (DateTime * jsstr)) :
  map event (default [] (history (appendHistory_all digest c calls)))
  = map event (default [] (history c)) ++ map snd calls.
Proof.
  revert c. induction calls as [|[now e] calls IH]; intros c; simpl.
  - rewrite app_nil_r. reflexivity.
  - rewrite IH. unfold appendHistory, appendHistory_push. simpl.
    rewrite map_app, <- app_assoc. reflexivity.
Qed.

(** C1. Chain validity is an invariant of the append operation: starting
    from a complaint whose history is empty (an empty array, or no
    history at all) and making any finite sequence of [appendHistory]
    calls, each awaited before the next, with arbitrary clock readings
    and arbitrary event strings, [verifyHistoryChain] returns true on the
    result; the history then holds exactly the events of the calls, in
    order. *)
Theorem chain_validity (f : Fields) (calls : list (DateTime * jsstr)) :
  (verifyHistoryChain digest (appendHistory_all digest (mkComplaint f (Some [])) calls) = true
   /\ map event (default [] (history (appendHistory_all digest (mkComplaint f (Some [])) calls)))
      = map snd calls)
  /\ (verifyHistoryChain digest (appendHistory_all digest (mkComplaint f None) calls) = true
      /\ map event (default [] (history (appendHistory_all digest (mkComplaint f None) calls)))
         = map snd calls).
Proof.
  split; (split; [apply appendHistory_all_valid; reflexivity
                 | rewrite appendHistory_all_events; reflexivity]).
Qed.

(** Two calls made without awaiting the first: both read the history
    before either has pushed its entry. With a digest that tells the two
    inputs apart, the second entry does not verify. *)
Lemma overlapping_calls_break_chain (f : Fields) (now : DateTime) (e1 e2 : jsstr) :
  let c0 := mkComplaint f (Some []) in
  let entry1 := appendHistory_entry digest now c0 e1 in
  let entry2 := appendHistory_entry digest now c0 e2 in
  let c2 := appendHistory_push (appendHistory_push c0 entry1) entry2 in
  default [] (hash entry2)
    <> sha256Hex digest (chain_input (default [] (hash entry1)) (date entry2) e2) ->
  verifyHistoryChain digest c2 = false.
Proof.
  simpl. intros Hne. unfold verifyHistoryChain. simpl.
  rewrite bool_decide_eq_true_2 by reflexivity.
  rewrite bool_decide_eq_false_2; [reflexivity | exact Hne].
Qed.



Lemma length_dec_digits (w : nat) (n : N) : length (dec_digits w n) = w.
Proof.
  revert n. induction w as [|w IH]; intros n; simpl; [reflexivity|].
  rewrite length_app, IH. simpl. lia.
Qed.

(** The first ten characters of the ISO text are the calendar date. *)
Lemma slice_toISOString (now : DateTime) :
  (0 <= year now <= 9999)%Z ->
  slice 0 10 (toISOString now)
  = dec_digits 4 (Z.to_N (year now)) ++ str "-" ++ dec_digits 2 (month now)
    ++ str "-" ++ dec_digits 2 (day now).
Proof.
  intros Hy. unfold slice, toISOString, iso_year.
  replace ((0 <=? year now)%Z && (year now <=? 9999)%Z) with true
    by (symmetry; apply andb_true_iff; split; apply Z.leb_le; lia).
  rewrite drop_0.
  set (y := dec_digits 4 _). set (m := dec_digits 2 (month now)).
  set (d := dec_digits 2 (day now)).
  replace (y ++ str "-" ++ m ++ str "-" ++ d ++ _)
    with ((y ++ str "-" ++ m ++ str "-" ++ d) ++
          str "T" ++ dec_digits 2 (hours now) ++ str ":" ++
          dec_digits 2 (minutes now) ++ str ":" ++ dec_digits 2 (seconds now) ++
          str "." ++ dec_digits 3 (milliseconds now) ++ str "Z")
    by (rewrite <- !app_assoc; reflexivity).
  apply take_app_length'.
  rewrite !length_app. unfold y, m, d. rewrite !length_dec_digits. reflexivity.
Qed.

Lemma dec_digits_ascii (w : nat) (n : N) : Forall (fun c => c < 128) (dec_digits w n).
Proof.
  revert n. induction w as [|w IH]; intros n; simpl; [constructor|].
  apply Forall_app. split; [apply IH|]. repeat constructor. nlia.
Qed.

(** C3. [appendHistory] with event string [e] appends exactly one entry
    to the history (an absent history counting as empty) and leaves
    everything else in place. The entry carries the date of the clock,
    written YYYY-MM-DD without a time of day, the event [e], and as hash
    the lowercase hexadecimal text of the digest of the string
    [prevHash + "|" + date + "|" + e], where [prevHash] is the hash of
    the last entry, or the empty string when there is none; for an empty
    history the hash is that of ["|" + date + "|" + e].

    The hexadecimal text has two characters for each byte [b] of the
    digest, the digits of [b / 16] and of [b mod 16], taken from
    0123456789abcdef. The digest is taken of the UTF-8 bytes of the
    string: those of [prevHash], the bar, the date, the bar and those of
    [e], where a character below U+0080 is one byte, one below U+0800
    two, any other of the basic plane three, a surrogate pair the four
    bytes of its code point and an unpaired surrogate the three bytes of
    U+FFFD. The clock is read in UTC and in the years 0 to 9999. *)
Theorem appendHistory_appends_one (now : DateTime) (c : Complaint Fields) (e : jsstr) :
  (0 <= year now <= 9999)%Z ->
  let hist := default [] (history c) in
  let prevHash := match last hist with
                  | Some l => default [] (hash l)
                  | None => []
                  end in
  let d := dec_digits 4 (Z.to_N (year now)) ++ str "-" ++
           dec_digits 2 (month now) ++ str "-" ++ dec_digits 2 (day now) in
  let hex := fun bs : list Byte.byte =>
    concat (map (fun b => [hex_digit (Byte.to_N b / 16); hex_digit (Byte.to_N b mod 16)]) bs) in
  let bytes := TextEncoder_encode (prevHash ++ str "|" ++ d ++ str "|" ++ e) in
  appendHistory digest now c e
    = mkComplaint (fields c) (Some (hist ++ [mkEntry d e (Some (hex (digest bytes)))]))
  /\ (hist = [] ->
      appendHistory digest now c e
      = mkComplaint (fields c)
          (Some [mkEntry d e
                   (Some (hex (digest (TextEncoder_encode (str "|" ++ d ++ str "|" ++ e)))))]))
  /\ (forall k, k < 16 -> str "0123456789abcdef" !! N.to_nat k = Some (hex_digit k))
  /\ (code_units prevHash -> code_units e ->
      map Byte.to_N bytes
      = utf8_units prevHash ++ str "|" ++ d ++ str "|" ++ utf8_units e)
  /\ (forall u s, u < 65536 -> is_surrogate u = false ->
      utf8_units (u :: s)
      = (if u <? 0x80 then [u]
         else if u <? 0x800 then [0xC0 + u / 64; 0x80 + u mod 64]
         else [0xE0 + u / 4096; 0x80 + u / 64 mod 64; 0x80 + u mod 64])
        ++ utf8_units s)
  /\ (forall hi lo s, 0xD800 <= hi <= 0xDBFF -> 0xDC00 <= lo <= 0xDFFF ->
      let u := 0x10000 + (hi - 0xD800) * 1024 + (lo - 0xDC00) in
      utf8_units (hi :: lo :: s)
      = [0xF0 + u / 262144; 0x80 + u / 4096 mod 64; 0x80 + u / 64 mod 64; 0x80 + u mod 64]
        ++ utf8_units s)
  /\ (forall u s, 0xD800 <= u <= 0xDFFF ->
      (u <= 0xDBFF -> match s with lo :: _ => ~ 0xDC00 <= lo <= 0xDFFF | [] => True end) ->
      utf8_units (u :: s) = [0xEF; 0xBF; 0xBD] ++ utf8_units s).
Proof.
  intros Hy hist prevHash d hex bytes.
  assert (Hprev : prev_after [] hist = prevHash).
  { unfold prev_after, prevHash. destruct (last hist) as [l|]; [|reflexivity].
    destruct (hash l) as [[|]|]; reflexivity. }
  assert (Hhex : forall x, sha256Hex digest x = hex (digest (TextEncoder_encode x))).
  { intros x. rewrite sha256Hex_eq. unfold hex. f_equal. apply map_ext.
    intros b. apply hex_pair_eq. }
  assert (Happ : appendHistory digest now c e
                 = mkComplaint (fields c)
                     (Some (hist ++ [mkEntry d e (Some (hex (digest bytes)))]))).
  { unfold appendHistory, appendHistory_push. rewrite appendHistory_entry_eq.
    simpl. rewrite slice_toISOString by exact Hy. fold hist. rewrite Hprev, Hhex.
    reflexivity. }
  assert (Hd : Forall (fun ch => ch < 128) d).
  { unfold d. repeat first [ apply dec_digits_ascii | apply Forall_app; split
                           | apply Forall_cons; split; [reflexivity|]
                           | apply Forall_nil_2 ]. }
  split; [exact Happ|]. split.
  { intros Hnil. rewrite Happ. unfold bytes, prevHash. rewrite Hnil. reflexivity. }
  split; [exact hex_digit_alphabet|]. split.
  { intros Hp He. unfold bytes. rewrite TextEncoder_encode_units.
    - change (str "|" ++ d ++ str "|" ++ e) with (124 :: d ++ 124 :: e).
      rewrite utf8_units_app_ascii by lia.
      rewrite utf8_units_app_ascii by lia.
      rewrite (utf8_units_ascii d Hd). reflexivity.
    - unfold code_units in *. rewrite !Forall_app. repeat split; try assumption.
      + repeat constructor.
      + eapply Forall_impl; [exact Hd|]. simpl. lia.
      + repeat constructor. }
  split.
  { intros u s Hu Hs. rewrite utf8_units_unit by exact Hs. unfold utf8_of_scalar.
    destruct (u <? 0x80); [reflexivity|]. destruct (u <? 0x800); [reflexivity|].
    destruct (N.ltb_spec u 0x10000); [reflexivity | lia]. }
  split.
  { intros hi lo s Hhi Hlo u.
    assert (H1 : is_high_surrogate hi = true)
      by (apply andb_true_iff; split; apply N.leb_le; lia).
    assert (H2 : is_low_surrogate lo = true)
      by (apply andb_true_iff; split; apply N.leb_le; lia).
    rewrite utf8_units_pair by assumption.
    pose proof (pair_scalar_range hi lo H1 H2) as Hr. fold (pair_scalar hi lo) in u.
    unfold utf8_of_scalar.
    destruct (N.ltb_spec (pair_scalar hi lo) 0x80); [lia|].
    destruct (N.ltb_spec (pair_scalar hi lo) 0x800); [lia|].
    destruct (N.ltb_spec (pair_scalar hi lo) 0x10000); [lia|]. reflexivity. }
  intros u s Hu Hs. cbn [utf8_units].
  destruct (is_high_surrogate u) eqn:Eh.
  - apply andb_true_iff in Eh as [_ Eh%N.leb_le]. specialize (Hs Eh).
    destruct s as [|lo s]; [reflexivity|].
    destruct (is_low_surrogate lo) eqn:El; [|reflexivity].
    apply andb_true_iff in El as [E1%N.leb_le E2%N.leb_le]. destruct Hs. lia.
  - destruct (is_low_surrogate u) eqn:El; [reflexivity|].
    unfold is_high_surrogate, is_low_surrogate in Eh, El.
    apply andb_false_iff in Eh, El. rewrite !N.leb_gt in Eh, El. lia.
Qed.

(** ** The backfill pass *)

Lemma backfill_loop_spec (prev : jsstr) (hist : list HistoryEntry) :
  map date (backfill_loop digest prev hist) = map date hist
  /\ map event (backfill_loop digest prev hist) = map event hist
  /\ map hash (backfill_loop digest prev hist)
     = map Some (expected_hashes digest prev hist).
Proof.
  revert prev. induction hist as [|h hist IH]; intros prev; simpl.
  - repeat split.
  - set (x := sha256Hex digest (chain_input prev (date h) (event h))).
    match goal with |- context [if ?b then ?a else h] =>
      set (h' := if b then a else h) end.
    assert (Hh' : date h' = date h /\ event h' = event h /\ hash h' = Some x).
    { unfold h'. destruct (bool_decide (or_empty (hash h) = [])); simpl;
        [repeat split|].
      case_bool_decide; simpl; repeat split. assumption. }
    destruct Hh' as (Hd & He & Hx).
    rewrite Hd, He, Hx, or_empty_Some.
    destruct (IH x) as (IH1 & IH2 & IH3). rewrite IH1, IH2, IH3.
    repeat split.
Qed.

(** A history verifies exactly when it carries the expected hashes. *)
Lemma verify_loop_expected (prev : jsstr) (hist : list HistoryEntry) :
  verify_loop digest prev hist = true
  <-> map hash hist = map Some (expected_hashes digest prev hist).
Proof.
  revert prev. induction hist as [|h hist IH]; intros prev; simpl.
  - split; reflexivity.
  - destruct (hash h) as [s|]; [|split; discriminate].
    case_bool_decide as E.
    + subst s. rewrite IH. split; [intros ->; reflexivity|].
      intros H. injection H. tauto.
    + split; [discriminate|]. intros H. injection H. congruence.
Qed.

(** C4. The backfill pass over a complaint's history walks the entries
    with a running predecessor seeded from the empty string and leaves
    every entry with the recomputed hash: an absent, empty or different
    hash is overwritten, a hash that is already the recomputed one
    stays. Dates, event texts and the rest of the complaint are
    unchanged. After the pass [verifyHistoryChain] returns true, whatever
    hashes, or none, the entries held before; so it does on every
    complaint of the list the pass runs over. *)
Theorem backfill_makes_chain_valid (c : Complaint Fields) (cs : list (Complaint Fields)) :
  let hist := default [] (history c) in
  let hist' := default [] (history (backfill digest c)) in
  fields (backfill digest c) = fields c
  /\ map date hist' = map date hist
  /\ map event hist' = map event hist
  /\ map hash hist' = map Some (expected_hashes digest [] hist)
  /\ (forall (i : nat) (h : HistoryEntry), hist !! i = Some h ->
        hash h = expected_hashes digest [] hist !! i ->
        hist' !! i = Some h)
  /\ verifyHistoryChain digest (backfill digest c) = true
  /\ Forall (fun c' => verifyHistoryChain digest c' = true) (backfill_all digest cs).
Proof.
  assert (Hone : forall c0 : Complaint Fields,
    let hist := default [] (history c0) in
    let hist' := default [] (history (backfill digest c0)) in
    fields (backfill digest c0) = fields c0
    /\ map date hist' = map date hist /\ map event hist' = map event hist
    /\ map hash hist' = map Some (expected_hashes digest [] hist)).
  { intros c0. unfold backfill. destruct (history c0) as [hist0|] eqn:E; simpl.
    - split; [reflexivity|]. apply backfill_loop_spec.
    - rewrite E. repeat split. }
  assert (Hvalid : forall c0 : Complaint Fields,
    verifyHistoryChain digest (backfill digest c0) = true).
  { intros c0. destruct (Hone c0) as (_ & Hd & He & Hh).
    unfold verifyHistoryChain. apply verify_loop_expected. rewrite Hh.
    f_equal. clear Hh. revert Hd He.
    generalize (default [] (history (backfill digest c0))) as l'.
    generalize (default [] (history c0)) as l. generalize (@nil N) as prev.
    intros prev l. revert prev.
    induction l as [|h l IH]; intros prev [|h' l'] Hd He; try discriminate;
      [reflexivity|].
    simpl in *. injection Hd as Hd1 Hd. injection He as He1 He.
    rewrite Hd1, He1. f_equal. apply IH; assumption. }
  intros hist hist'. destruct (Hone c) as (Hf & Hd & He & Hh).
  fold hist hist' in Hd, He, Hh. clearbody hist hist'.
  repeat split; try assumption.
  - intros i h Hi Hhash.
    assert (Hi' : is_Some (hist' !! i)).
    { apply lookup_lt_is_Some. apply lookup_lt_Some in Hi.
      replace (length hist') with (length (map date hist')) by apply length_map.
      rewrite Hd, length_map. exact Hi. }
    destruct Hi' as [h' Hi']. rewrite Hi'. f_equal.
    apply (f_equal (fun l => l !! i)) in Hd, He, Hh.
    rewrite !list_lookup_fmap, Hi, Hi' in Hd, He.
    rewrite list_lookup_fmap, Hi' in Hh.
    change (map Some ?l) with (Some <$> l) in Hh.
    rewrite list_lookup_fmap in Hh. simpl in Hd, He, Hh.
    destruct h as [d1 e1 x1], h' as [d2 e2 x2]. simpl in *. rewrite <- Hhash in Hh.
    destruct x1; simpl in Hh; congruence.
  - apply Hvalid.
  - unfold backfill_all. induction cs as [|c0 cs' IH]; simpl; constructor;
      [apply Hvalid | exact IH].
Qed.

(** ** Tampering *)

Lemma verify_loop_app (prev : jsstr) (l1 l2 : list HistoryEntry) :
  verify_loop digest prev (l1 ++ l2)
  = verify_loop digest prev l1 && verify_loop digest (prev_after prev l1) l2.
Proof.
  revert prev. induction l1 as [|h l1 IH]; intros prev; simpl; [reflexivity|].
  destruct (hash h) as [s|] eqn:Eh; [|reflexivity].
  case_bool_decide; [|reflexivity].
  rewrite IH. erewrite prev_after_cons by eassumption. reflexivity.
Qed.

Lemma prev_after_well_formed (prev : jsstr) (hist : list HistoryEntry) :
  verify_loop digest prev hist = true -> well_formed prev ->
  well_formed (prev_after prev hist).
Proof.
  revert prev. induction hist as [|h hist IH]; intros prev; simpl.
  - intros _ H. exact H.
  - destruct (hash h) as [s|] eqn:Eh; [|discriminate].
    case_bool_decide as E; [|discriminate]. intros Hv _.
    erewrite prev_after_cons by eassumption. apply IH; [exact Hv|].
    subst s. apply sha256Hex_well_formed.
Qed.

Lemma chain_input_well_formed (p d e : jsstr) :
  well_formed p -> well_formed d -> well_formed e -> well_formed (chain_input p d e).
Proof.
  intros Hp Hd He. unfold chain_input.
  assert (Hbar : well_formed (str "|")).
  { apply well_formed_ascii. repeat constructor. }
  repeat apply well_formed_app; assumption.
Qed.

Lemma chain_input_field (p : jsstr) (f : text_field) (v : jsstr) (h : HistoryEntry) :
  chain_input p (date (set_field f v h)) (event (set_field f v h))
  = chain_input p (date h) (event h) -> v = get_field f h.
Proof.
  unfold chain_input.
  destruct f; cbn [set_field date event get_field]; intros E.
  - do 2 apply app_inv_head in E. apply app_inv_tail in E. exact E.
  - do 4 apply app_inv_head in E. exact E.
Qed.

(** C2, as amended. Tamper detection: in a history on which
    [verifyHistoryChain] returns true, changing the event or the date of
    any one entry to a different value, all hashes and all other entries
    staying as they are, makes [verifyHistoryChain] return false,
    provided the digest has no collisions and the old and the new texts
    of that entry are well-formed UTF-16 (no unpaired surrogate). *)
Theorem tamper_detected (f : Fields) (pre post : list HistoryEntry)
    (h : HistoryEntry) (fld : text_field) (v : jsstr) :
  (forall x y, digest x = digest y -> x = y) ->
  verifyHistoryChain digest (mkComplaint f (Some (pre ++ h :: post))) = true ->
  v <> get_field fld h ->
  well_formed (date h) -> well_formed (event h) -> well_formed v ->
  verifyHistoryChain digest
    (mkComplaint f (Some (pre ++ set_field fld v h :: post))) = false.
Proof.
  intros Hinj Hvalid Hne Hwd Hwe Hwv. unfold verifyHistoryChain in *. simpl in *.
  rewrite verify_loop_app in Hvalid. apply andb_true_iff in Hvalid as [Hpre Hrest].
  rewrite verify_loop_app, Hpre. simpl.
  pose proof (prev_after_well_formed [] pre Hpre wf_nil) as Hp.
  simpl in Hrest.
  replace (hash (set_field fld v h)) with (hash h) by (destruct fld; reflexivity).
  destruct (hash h) as [s|]; [|reflexivity].
  case_bool_decide as E; [|discriminate]. clear Hrest.
  rewrite bool_decide_eq_false_2; [reflexivity|].
  intros E'. apply Hne. apply (chain_input_field (prev_after [] pre)).
  apply (sha256Hex_inj digest); [exact Hinj| | |congruence].
  - apply chain_input_well_formed; [exact Hp|destruct fld; assumption..].
  - apply chain_input_well_formed; assumption.
Qed.

End AuditChainFacts.

(** ** Instances *)

Lemma plain_digest_inj (x y : list Byte.byte) : plain_digest x = plain_digest y -> x = y.
Proof. intros H. exact H. Qed.

Lemma appendHistory_appends_one_witness :
  (0 <= year sample_time <= 9999)%Z
  /\ appendHistory plain_digest sample_time (mkComplaint tt None) (str "Complaint created")
     = mkComplaint tt
         (Some [mkEntry (str "2025-01-10") (str "Complaint created")
                  (Some (str "7c323032352d30312d31307c436f6d706c61696e742063726561746564"))]).
Proof.
  assert (H : (0 <= year sample_time <= 9999)%Z) by (simpl; lia).
  split; [exact H|].
  exact (proj1 (appendHistory_appends_one plain_digest unit sample_time
                  (mkComplaint tt None) (str "Complaint created") H)).
Defined.

Lemma tamper_detected_witness :
  let h1 := mkEntry (str "2025-01-10") (str "Complaint created")
              (Some (sha256Hex plain_digest (str "|2025-01-10|Complaint created"))) in
  let h2 := mkEntry (str "2025-01-10") (str "Status updated: Filed")
              (Some (sha256Hex plain_digest
                 (chain_input (default [] (hash h1)) (str "2025-01-10")
                    (str "Status updated: Filed")))) in
  verifyHistoryChain plain_digest (mkComplaint tt (Some ([] ++ h1 :: [h2]))) = true
  /\ str "Complaint withdrawn" <> get_field FEvent h1
  /\ verifyHistoryChain plain_digest
       (mkComplaint tt (Some ([] ++ set_field FEvent (str "Complaint withdrawn") h1 :: [h2])))
     = false.
Proof.
  intros h1 h2.
  assert (Hvalid : verifyHistoryChain plain_digest
                     (mkComplaint tt (Some ([] ++ h1 :: [h2]))) = true)
    by (vm_compute; reflexivity).
  assert (Hne : str "Complaint withdrawn" <> get_field FEvent h1)
    by (vm_compute; discriminate).
  split; [exact Hvalid|]. split; [exact Hne|].
  apply (tamper_detected plain_digest unit tt [] [h2] h1 FEvent
           (str "Complaint withdrawn") plain_digest_inj Hvalid Hne);
    apply well_formed_ascii; repeat constructor.
Defined.

(** The claim C2 as first stated fails: with a digest without
    collisions, an event that is an unpaired surrogate can be changed to
    U+FFFD, a different string, and the chain still verifies, because the
    encoder writes both as the same bytes. *)
Lemma tamper_unpaired_surrogate_undetected :
  (forall x y, plain_digest x = plain_digest y -> x = y)
  /\ verifyHistoryChain plain_digest (mkComplaint tt (Some [surrogate_entry])) = true
  /\ [0xFFFD] <> event surrogate_entry
  /\ verifyHistoryChain plain_digest
       (mkComplaint tt (Some [set_field FEvent [0xFFFD] surrogate_entry])) = true.
Proof.
  split; [exact plain_digest_inj|].
  split; [vm_compute; reflexivity|].
  split; [vm_compute; discriminate | vm_compute; reflexivity].
Qed.

(* ===================================================================== *)
(** * Properties of the matcher *)
(* ===================================================================== *)

(** The matcher only succeeds along the relation [matches]. *)
Lemma RepeatMatcher_sound (ic : bool) (r : regex) (m : matcher) :
  (forall x c z, m x c = Some z -> exists y, matches ic r x y /\ c y = Some z) ->
  forall fuel min max x c z,
    RepeatMatcher m fuel min max x c = Some z ->
    exists y, matches ic (Repeat r min max) x y /\ c y = Some z.
Proof.
  intros Hm fuel. induction fuel as [|fuel IH]; intros min max x c z; simpl;
    [discriminate|].
  case_bool_decide as Emax.
  { intros Hc. exists x. split; [|exact Hc]. apply matches_repeat_stop. auto. }
  match goal with |- context [m x ?d0] => set (d := d0) end.
  assert (Hd : forall z', m x d = Some z' ->
            exists y, matches ic (Repeat r min max) x y /\ c y = Some z').
  { intros z' Hz. apply Hm in Hz as (y & Hxy & Hdy). unfold d in Hdy.
    destruct (_ && _); [discriminate|].
    apply IH in Hdy as (y' & Hyy' & Hc). exists y'. split; [|exact Hc].
    eapply matches_repeat_step; eassumption. }
  destruct (bool_decide (min = O)) eqn:Emin; simpl.
  - destruct (m x d) as [z'|] eqn:Ez.
    + intros [= <-]. apply Hd. reflexivity.
    + intros Hc. exists x. split; [|exact Hc].
      apply matches_repeat_stop. left. apply bool_decide_eq_true in Emin. exact Emin.
  - apply Hd.
Qed.

Lemma rmatch_sound (ic : bool) (r : regex) :
  forall x c z, rmatch ic r x c = Some z ->
    exists y, matches ic r x y /\ c y = Some z.
Proof.
  induction r as [|A| |r1 IH1 r2 IH2|r1 IH1 r2 IH2|r IH min max];
    intros x c z; cbn [rmatch].
  - intros Hc. exists x. split; [constructor | exact Hc].
  - destruct x as [p [|ch s]]; simpl; [discriminate|].
    destruct (class_matches ic A ch) eqn:E; [|discriminate].
    intros Hc. exists (Some ch, s). split; [constructor; exact E | exact Hc].
  - destruct (xorb _ _) eqn:E; [|discriminate].
    intros Hc. exists x. split; [constructor; exact E | exact Hc].
  - intros H. apply IH1 in H as (y & Hxy & H). apply IH2 in H as (y' & Hyy' & H).
    exists y'. split; [econstructor; eassumption | exact H].
  - destruct (rmatch ic r1 x c) as [z'|] eqn:E.
    + intros [= <-]. apply IH1 in E as (y & Hxy & H).
      exists y. split; [apply matches_alt_l; exact Hxy | exact H].
    + intros H. apply IH2 in H as (y & Hxy & H).
      exists y. split; [apply matches_alt_r; exact Hxy | exact H].
  - apply RepeatMatcher_sound. exact IH.
Qed.

Lemma match_at_sound (re : RegExp) (x y : mstate) :
  match_at re x = Some y -> matches (ignoreCase re) (pattern re) x y.
Proof.
  intros H. apply rmatch_sound in H as (y' & Hm & [= ->]). exact Hm.
Qed.

(** A match consumes a prefix of the input, of at least [min_length]
    characters. *)
Lemma matches_consumes (ic : bool) (r : regex) (x y : mstate) :
  matches ic r x y ->
  exists w, x.2 = w ++ y.2 /\ (min_length r <= length w)%nat.
Proof.
  induction 1 as [x|A p ch s E|x E|r1 r2 x y z _ IH1 _ IH2|r1 r2 x y _ IH
                 |r1 r2 x y _ IH|r min max x E|r min max x y z E _ IH1 _ IH2];
    simpl in *.
  - exists []. split; [reflexivity | simpl; lia].
  - exists [ch]. split; [reflexivity | simpl; lia].
  - exists []. split; [reflexivity | simpl; lia].
  - destruct IH1 as (w1 & -> & H1), IH2 as (w2 & -> & H2).
    exists (w1 ++ w2). rewrite app_assoc, length_app. split; [reflexivity | lia].
  - destruct IH as (w & -> & H). exists w. split; [reflexivity | lia].
  - destruct IH as (w & -> & H). exists w. split; [reflexivity | lia].
  - exists []. split; [reflexivity|]. simpl.
    destruct E as [->| ->]; [destruct max | rewrite Nat.min_0_r]; simpl; lia.
  - destruct IH1 as (w1 & -> & H1), IH2 as (w2 & -> & H2).
    exists (w1 ++ w2). rewrite app_assoc, length_app. split; [reflexivity|].
    destruct max as [[|n]|]; [congruence|..]; destruct min; simpl in *; nia.
Qed.

Lemma matches_rest (ic : bool) (r : regex) (x y : mstate) (ch : N) :
  matches ic r x y -> In ch y.2 -> In ch x.2.
Proof.
  intros H Hin. apply matches_consumes in H as (w & -> & _).
  apply in_or_app. right. exact Hin.
Qed.

(** A match of a pattern that requires a character of a class finds
    one in the input. *)
Lemma requires_sound (P : N -> bool) (ic : bool) (r : regex) (x y : mstate) :
  respects_case P -> matches ic r x y -> requires P r = true ->
  exists ch, In ch x.2 /\ P ch = true.
Proof.
  intros HP H.
  induction H as [x|A p ch s E|x E|r1 r2 x y z H1 IH1 H2 IH2|r1 r2 x y _ IH
                 |r1 r2 x y _ IH|r min max x E|r min max x y z E H1 IH1 _ _];
    simpl; try discriminate.
  - intros HA. exists ch. split; [left; reflexivity|].
    unfold class_matches in E. apply existsb_exists in E as (a & Ha & Ea).
    rewrite forallb_forall in HA. apply N.eqb_eq in Ea.
    eapply HP; [apply HA; exact Ha | exact Ea].
  - intros [Hr|Hr]%orb_true_iff.
    + apply IH1. exact Hr.
    + destruct (IH2 Hr) as (ch & Hin & Hch). exists ch. split; [|exact Hch].
      eapply matches_rest; eassumption.
  - intros [Hr _]%andb_true_iff. apply IH. exact Hr.
  - intros [_ Hr]%andb_true_iff. apply IH. exact Hr.
  - intros [[Hmin Hmax]%andb_true_iff _]%andb_true_iff.
    apply negb_true_iff, bool_decide_eq_false in Hmin, Hmax. tauto.
  - intros [_ Hr]%andb_true_iff. apply IH1. exact Hr.
Qed.

Lemma is_digit_respects_case : respects_case is_digit.
Proof.
  intros ic a ch. unfold is_digit, Canonicalize.
  intros [H1 H2]%andb_true_iff. apply N.leb_le in H1, H2.
  destruct ic; simpl; [|intros ->; apply andb_true_iff; split; apply N.leb_le; lia].
  destruct (N.leb_spec 97 a), (N.leb_spec a 122), (N.leb_spec 97 ch),
    (N.leb_spec ch 122); simpl; intros E;
    apply andb_true_iff; split; apply N.leb_le; lia.
Qed.

Lemma is_at_sign_respects_case : respects_case is_at_sign.
Proof.
  intros ic a ch. unfold is_at_sign, Canonicalize. intros H1%N.eqb_eq.
  destruct ic; simpl; [|intros <-; apply N.eqb_eq; exact H1].
  destruct (N.leb_spec 97 a), (N.leb_spec a 122), (N.leb_spec 97 ch),
    (N.leb_spec ch 122); simpl; intros E; apply N.eqb_eq; lia.
Qed.


(** Where the pattern matches nowhere, [replace] changes nothing. *)
Lemma replace_walk_no_match (re : RegExp) (replacement : jsstr) (s : jsstr) :
  forall p,
    (forall (u s' : jsstr) (p' : option N), s = u ++ s' -> match_at re (p', s') = None) ->
    replace_walk re replacement O p s = s.
Proof.
  induction s as [|ch s IH]; intros p Hno; cbn [replace_walk].
  - rewrite (Hno [] [] p) by reflexivity. reflexivity.
  - rewrite (Hno [] (ch :: s) p) by reflexivity. f_equal. apply IH.
    intros u s' p' ->. apply (Hno (ch :: u)). reflexivity.
Qed.

Lemma replace_walk_without (P : N -> bool) (re : RegExp) (replacement : jsstr)
    (p : option N) (s : jsstr) :
  respects_case P -> requires P (pattern re) = true ->
  Forall (fun ch => P ch = false) s ->
  replace_walk re replacement O p s = s.
Proof.
  intros HP Hreq Hs. apply replace_walk_no_match. intros u s' p' ->.
  destruct (match_at re (p', s')) as [y|] eqn:E; [|reflexivity].
  apply match_at_sound in E.
  destruct (requires_sound P _ _ _ _ HP E Hreq) as (ch & Hin & Hch).
  rewrite Forall_forall in Hs. rewrite Hs in Hch; [discriminate|].
  apply list_elem_of_In. apply in_or_app. right. exact Hin.
Qed.

Lemma email_requires_at_sign : requires is_at_sign (pattern email) = true.
Proof. vm_compute. reflexivity. Qed.
Lemma phone_requires_digit : requires is_digit (pattern phone) = true.
Proof. vm_compute. reflexivity. Qed.
Lemma badge_requires_digit : requires is_digit (pattern badge) = true.
Proof. vm_compute. reflexivity. Qed.
Lemma idlike_requires_digit : requires is_digit (pattern idlike) = true.
Proof. vm_compute. reflexivity. Qed.

(** Text without digits and without [@] is left as it is. *)
Lemma maskText_without_digit_and_at (s : jsstr) :
  Forall (fun ch => is_digit ch = false) s ->
  Forall (fun ch => is_at_sign ch = false) s ->
  maskText s = s.
Proof.
  intros Hd Ha. unfold maskText, replace. destruct s as [|c s]; [reflexivity|].
  rewrite (replace_walk_without is_at_sign email)
    by auto using is_at_sign_respects_case, email_requires_at_sign.
  rewrite (replace_walk_without is_digit phone)
    by auto using is_digit_respects_case, phone_requires_digit.
  rewrite (replace_walk_without is_digit badge)
    by auto using is_digit_respects_case, badge_requires_digit.
  rewrite (replace_walk_without is_digit idlike)
    by auto using is_digit_respects_case, idlike_requires_digit.
  reflexivity.
Qed.

Lemma placeholder_text_plain (s : jsstr) :
  placeholder_text s ->
  Forall (fun ch => is_digit ch = false) s /\ Forall (fun ch => is_at_sign ch = false) s.
Proof.
  induction 1 as [|c s Hc _ [IH1 IH2]|s _ [IH1 IH2]|s _ [IH1 IH2]|s _ [IH1 IH2]].
  - split; constructor.
  - split; (constructor; [|assumption]);
      repeat (destruct Hc as [<-|Hc]; [reflexivity|]); destruct Hc.
  - split; apply Forall_app; (split; [|assumption]); repeat constructor.
  - split; apply Forall_app; (split; [|assumption]); repeat constructor.
  - split; apply Forall_app; (split; [|assumption]); repeat constructor.
Qed.

(** C9. Pattern-level idempotence: a string made only of the placeholder
    tokens "[redacted-email]", "[redacted-phone]" and "[redacted-id]" and
    of white space is a fixed point of [maskText]. *)
Theorem maskText_placeholders_fixed (s : jsstr) :
  placeholder_text s -> maskText s = s.
Proof.
  intros H. apply placeholder_text_plain in H as [Hd Ha].
  apply maskText_without_digit_and_at; assumption.
Qed.

(** C8. The concrete masking scenario. *)
Theorem maskText_concrete_scenario :
  maskText (str "Contact: jane.doe@example.org re: case ABC1234")
  = str "Contact: [redacted-email] re: case [redacted-id]".
Proof. vm_compute. reflexivity. Qed.

Lemma maskText_placeholders_fixed_witness :
  placeholder_text (str "[redacted-email]" ++ 32 :: str "[redacted-id]" ++ [])
  /\ maskText (str "[redacted-email]" ++ 32 :: str "[redacted-id]" ++ [])
     = str "[redacted-email]" ++ 32 :: str "[redacted-id]" ++ [].
Proof.
  assert (H : placeholder_text (str "[redacted-email]" ++ 32 :: str "[redacted-id]" ++ [])).
  { apply placeholder_email, placeholder_space;
      [unfold space; simpl; tauto | apply placeholder_id, placeholder_nil]. }
  split; [exact H | exact (maskText_placeholders_fixed _ H)].
Defined.

(* ===================================================================== *)
(** * The phone pattern *)
(* ===================================================================== *)








Section GreedyRun.

Variable A : list N.
Variable c : continuation.

(** The continuation wants a digit next. *)
Hypothesis c_wants_digit :
  forall q s, (forall ch s', s = ch :: s' -> is_digit ch = false) -> c (q, s) = None.



End GreedyRun.







(** ** Replacing along the input *)







(** ** What a match of the phone pattern looks like *)























Lemma prev_of_app (p : option N) (u : jsstr) (ch : N) : prev_of p (u ++ [ch]) = Some ch.
Proof. unfold prev_of. rewrite last_snoc. reflexivity. Qed.



(** ** What a match of the phone pattern looks like *)
















(* ===================================================================== *)
(** * Properties of structural redaction *)
(* ===================================================================== *)

Lemma bind_Ok {A B} (m : outcome A) (f : A -> outcome B) (b : B) :
  m ≫= f = Ok b -> exists a, m = Ok a /\ f a = Ok b.
Proof. destruct m as [a| |]; simpl; [eauto | discriminate..]. Qed.

Lemma fmap_Ok {A B} (m : outcome A) (f : A -> B) (b : B) :
  f <$> m = Ok b -> exists a, m = Ok a /\ b = f a.
Proof. destruct m as [a| |]; simpl; [intros [= <-]; eauto | discriminate..]. Qed.

Lemma map_outcome_Ok {A B} (f : A -> outcome B) (l : list A) (l' : list B) :
  map_outcome f l = Ok l' -> Forall2 (fun x y => f x = Ok y) l l'.
Proof.
  revert l'. induction l as [|x l IH]; intros l' H; simpl in H.
  - injection H as <-. constructor.
  - apply bind_Ok in H as (y & Hy & H). apply bind_Ok in H as (ys & Hys & H).
    injection H as <-. constructor; [exact Hy | apply IH, Hys].
Qed.

Section OwnProperties.

Context {V : Type}.
Implicit Types (ps : list (jsstr * V)) (k : jsstr) (v : V).

Lemma own_get_set_eq k v ps : own_get k (own_set k v ps) = Some v.
Proof.
  induction ps as [|[k' v'] ps IH]; simpl.
  - rewrite bool_decide_eq_true_2 by reflexivity. reflexivity.
  - case_bool_decide as E; simpl.
    + rewrite bool_decide_eq_true_2 by reflexivity. reflexivity.
    + rewrite bool_decide_eq_false_2 by exact E. exact IH.
Qed.

Lemma own_get_set_ne k k' v ps : k' <> k -> own_get k' (own_set k v ps) = own_get k' ps.
Proof.
  intros Hne. induction ps as [|[k0 v0] ps IH]; simpl.
  - rewrite bool_decide_eq_false_2 by congruence. reflexivity.
  - case_bool_decide as E; simpl.
    + subst k0. rewrite !bool_decide_eq_false_2 by congruence. reflexivity.
    + case_bool_decide; [reflexivity | exact IH].
Qed.

(** Overwriting an existing property keeps the properties in place. *)
Lemma keys_of_set_present k v ps :
  is_Some (own_get k ps) -> keys_of (own_set k v ps) = keys_of ps.
Proof.
  unfold keys_of. induction ps as [|[k0 v0] ps IH]; simpl.
  - intros [? [=]].
  - case_bool_decide as E; simpl; [subst; reflexivity|].
    intros H. f_equal. apply IH. exact H.
Qed.

End OwnProperties.

Import Json.

Lemma get_prop_object (ps : properties) (k : jsstr) :
  get_prop (VObj ps) k = Ok (default VUndef (own_get k ps)).
Proof. reflexivity. Qed.

(** [redactFields] on an object: only the listed properties change, each
    to a string, and none is added. *)
Lemma redactFields_object (keys : list jsstr) :
  forall (ps : properties) (obj' : value),
    redactFields (VObj ps) keys = Ok obj' ->
    exists ps', obj' = VObj ps'
      /\ keys_of ps' = keys_of ps
      /\ (forall k, ~ In k keys -> own_get k ps' = own_get k ps).
Proof.
  induction keys as [|k keys IH]; intros ps obj' H; simpl in H.
  - injection H as <-. exists ps. repeat split.
  - apply bind_Ok in H as (obj1 & H1 & H).
    assert (Hps1 : exists ps1, obj1 = VObj ps1 /\ keys_of ps1 = keys_of ps
                   /\ (forall k', k' <> k -> own_get k' ps1 = own_get k' ps)).
    { destruct (own_get k ps) as [x|] eqn:Ex; simpl in H1.
      - destruct (truthy x).
        + apply bind_Ok in H1 as (m & _ & H1). injection H1 as <-.
          exists (own_set k (VStr m) ps). split; [reflexivity|]. split.
          * apply keys_of_set_present. rewrite Ex. eauto.
          * intros k' Hk'. apply own_get_set_ne. exact Hk'.
        + injection H1 as <-. exists ps. repeat split.
      - injection H1 as <-. exists ps. repeat split. }
    destruct Hps1 as (ps1 & -> & Hkeys1 & Hframe1).
    apply IH in H as (ps' & -> & Hkeys & Hframe).
    exists ps'. split; [reflexivity|]. split; [congruence|].
    intros k' Hk'. rewrite Hframe by (intros Hin; apply Hk'; right; exact Hin).
    apply Hframe1. intros ->. apply Hk'. left. reflexivity.
Qed.

Lemma not_switched_off_incl (flags : value) (keys keys' : list jsstr) :
  not_switched_off flags keys = Ok keys' -> incl keys' keys.
Proof.
  revert keys'. induction keys as [|k keys IH]; intros keys' H; simpl in H.
  - injection H as <-. intros x Hx. exact Hx.
  - apply bind_Ok in H as (f & _ & H). apply bind_Ok in H as (rest & Hrest & H).
    injection H as <-. apply IH in Hrest.
    destruct (is_false f); intros x Hx.
    + right. apply Hrest, Hx.
    + destruct Hx as [<-|Hx]; [left; reflexivity | right; apply Hrest, Hx].
Qed.

Import Json.

Lemma redactFields_kind (keys : list jsstr) :
  forall obj obj', redactFields obj keys = Ok obj' ->
    (exists ps, obj = VObj ps) \/ obj' = obj.
Proof.
  induction keys as [|k keys IH]; intros obj obj' H; simpl in H.
  - injection H as <-. right. reflexivity.
  - apply bind_Ok in H as (x & _ & H). apply bind_Ok in H as (obj1 & H1 & H).
    destruct (truthy x).
    + apply bind_Ok in H1 as (m & _ & H1).
      destruct obj; simpl in H1; try discriminate. left. eauto.
    + injection H1 as <-. apply IH, H.
Qed.

Lemma set_prop_Ok (v : value) (k : jsstr) (x v' : value) :
  set_prop v k x = Ok v' -> exists ps, v = VObj ps /\ v' = VObj (own_set k x ps).
Proof. destruct v; simpl; try discriminate. intros [= <-]. eauto. Qed.

Lemma elements_or_empty_Ok (v : value) (l : list value) :
  elements_or_empty v = Ok l -> l = elements v.
Proof.
  unfold elements_or_empty. destruct v; simpl; try congruence;
    repeat case_match; simpl; congruence.
Qed.

(** A redacted note: the properties of the note, with [text] and [urls]
    written. *)
Lemma redact_note_frame (cov n n' : value) :
  redact_note cov n = Ok n' ->
  exists ps', n' = VObj ps'
    /\ (forall k, ~ In k note_written -> own_get k ps' = own_get k (spread n)).
Proof.
  unfold redact_note. intros H.
  apply bind_Ok in H as (t & _ & H). apply bind_Ok in H as (text & _ & H).
  apply bind_Ok in H as (urls & _ & H). injection H as <-.
  eexists. split; [reflexivity|]. intros k Hk.
  rewrite !own_get_set_ne; [reflexivity|..]; intros ->; apply Hk; simpl; auto.
Qed.

(** A redacted response: the properties of the response, with
    [decisionMaker], [text] and [urls] written. *)
Lemma redact_response_frame (cov r r' : value) :
  redact_response cov r = Ok r' ->
  exists ps', r' = VObj ps'
    /\ (forall k, ~ In k response_written -> own_get k ps' = own_get k (spread r)).
Proof.
  unfold redact_response. intros H.
  apply bind_Ok in H as (d & _ & H). apply bind_Ok in H as (dm & _ & H).
  apply bind_Ok in H as (t & _ & H). apply bind_Ok in H as (text & _ & H).
  apply bind_Ok in H as (urls & _ & H). injection H as <-.
  eexists. split; [reflexivity|]. intros k Hk.
  rewrite !own_get_set_ne; [reflexivity|..]; intros ->; apply Hk; simpl; auto.
Qed.

(** What [redact_concern] does to a concern. *)
Lemma redact_concern_spec (overrides c c' : value) :
  redact_concern overrides c = Ok c' ->
  exists cov ps ps' evidence notes responses,
    c = VObj ps /\ c' = VObj ps'
    /\ concern_flags overrides c = Ok cov
    /\ (forall k, ~ In k concern_written -> own_get k ps' = own_get k ps)
    /\ own_get (str "evidence") ps' = Some (VArr evidence)
    /\ own_get (str "notes") ps' = Some (VArr notes)
    /\ Forall2 (fun n n' => redact_note cov n = Ok n')
         (elements (field c "notes")) notes
    /\ own_get (str "responses") ps' = Some (VArr responses)
    /\ Forall2 (fun r r' => redact_response cov r = Ok r')
         (elements (field c "responses")) responses
    /\ match field c "attachments" with
       | VArr keys =>
           exists kept, filter_safe overrides keys = Ok kept
                        /\ own_get (str "attachments") ps' = Some (VArr kept)
       | _ => own_get (str "attachments") ps' = own_get (str "attachments") ps
       end.
Proof.
  unfold redact_concern. intros H.
  apply bind_Ok in H as (id & Hid & H). apply bind_Ok in H as (oc & Hoc & H).
  apply bind_Ok in H as (key & Hkey & H). apply bind_Ok in H as (cv & Hcv & H).
  apply bind_Ok in H as (keys & Hkeys & H). apply bind_Ok in H as (c1 & Hc1 & H).
  apply bind_Ok in H as (ev & Hev & H). apply bind_Ok in H as (evs & Hevs & H).
  apply bind_Ok in H as (evidence & Hevidence & H).
  apply bind_Ok in H as (c2 & Hc2 & H).
  apply bind_Ok in H as (ns & Hns & H). apply bind_Ok in H as (nl & Hnl & H).
  apply bind_Ok in H as (notes & Hnotes & H).
  apply bind_Ok in H as (c3 & Hc3 & H).
  apply bind_Ok in H as (rs & Hrs & H). apply bind_Ok in H as (rl & Hrl & H).
  apply bind_Ok in H as (responses & Hresponses & H).
  apply bind_Ok in H as (c4 & Hc4 & H).
  apply bind_Ok in H as (att & Hatt & H).
  apply set_prop_Ok in Hc2 as (ps1 & -> & ->).
  apply set_prop_Ok in Hc3 as (ps2 & [= <-] & ->).
  apply set_prop_Ok in Hc4 as (ps3 & [= <-] & ->).
  assert (Hc : exists ps, c = VObj ps).
  { destruct (redactFields_kind _ _ _ Hc1) as [Hobj| <-]; [exact Hobj | eauto]. }
  destruct Hc as (ps & ->).
  apply redactFields_object in Hc1 as (ps1' & [= <-] & _ & Hframe1).
  apply not_switched_off_incl in Hkeys.
  assert (Hframe : forall k, ~ In k concernKeys -> own_get k ps1 = own_get k ps).
  { intros k Hk. apply Hframe1. intros Hin. apply Hk, Hkeys, Hin. }
  assert (Hnot : forall k, In k (map str ["evidence"; "notes"; "responses"; "attachments"]%string) ->
                   ~ In k concernKeys).
  { intros k Hk Hin. simpl in Hk, Hin.
    repeat (destruct Hk as [<-|Hk]; [repeat (destruct Hin as [Hin|Hin]; [discriminate Hin|]); exact Hin|]).
    exact Hk. }
  rewrite get_prop_object in Hev, Hns, Hrs, Hatt.
  injection Hev as <-. injection Hns as <-. injection Hrs as <-. injection Hatt as <-.
  rewrite own_get_set_ne in Hnl by discriminate.
  rewrite !own_get_set_ne in Hrl by discriminate.
  rewrite !own_get_set_ne in H by discriminate.
  rewrite Hframe in Hnl, Hrl, H by (apply Hnot; simpl; auto).
  apply elements_or_empty_Ok in Hnl, Hrl. subst nl rl.
  apply map_outcome_Ok in Hnotes, Hresponses.
  set (ps4 := own_set (str "responses") (VArr responses)
                (own_set (str "notes") (VArr notes)
                   (own_set (str "evidence") (VArr evidence) ps1))) in *.
  assert (Hframe4 : forall k, ~ In k concern_written -> own_get k ps4 = own_get k ps).
  { intros k Hk. unfold ps4.
    rewrite !own_get_set_ne;
      [apply Hframe; intros Hin; apply Hk, in_or_app; left; exact Hin|..];
      intros ->; apply Hk, in_or_app; right; simpl; auto. }
  assert (Hev4 : own_get (str "evidence") ps4 = Some (VArr evidence)).
  { unfold ps4. rewrite !own_get_set_ne by discriminate. apply own_get_set_eq. }
  assert (Hno4 : own_get (str "notes") ps4 = Some (VArr notes)).
  { unfold ps4. rewrite own_get_set_ne by discriminate. apply own_get_set_eq. }
  assert (Hre4 : own_get (str "responses") ps4 = Some (VArr responses)).
  { unfold ps4. apply own_get_set_eq. }
  assert (Hat4 : own_get (str "attachments") ps4 = own_get (str "attachments") ps).
  { unfold ps4. rewrite !own_get_set_ne by discriminate.
    apply Hframe, Hnot. simpl. auto. }
  assert (Hflags : concern_flags overrides (VObj ps) = Ok (or_object cv)).
  { unfold concern_flags. rewrite Hid. simpl. rewrite Hoc. simpl.
    rewrite Hkey. simpl. rewrite Hcv. reflexivity. }
  unfold field. cbn [default].
  destruct (default VUndef (own_get (str "attachments") ps)) as [| | | | |akeys|] eqn:Eatt;
    try (injection H as <-;
         exists (or_object cv), ps, ps4, evidence, notes, responses;
         repeat split; assumption).
  apply bind_Ok in H as (kept & Hkept & H). injection H as <-.
  exists (or_object cv), ps, (own_set (str "attachments") (VArr kept) ps4),
    evidence, notes, responses.
  split; [reflexivity|]. split; [reflexivity|]. split; [exact Hflags|].
  split.
  { intros k Hk. rewrite own_get_set_ne; [apply Hframe4, Hk|].
    intros ->. apply Hk, in_or_app. right. simpl. auto. }
  rewrite !own_get_set_ne by discriminate.
  repeat split; try assumption.
  exists kept. split; [exact Hkept | apply own_get_set_eq].
Qed.

Import Json.

Lemma json_copy_object (cps : properties) :
  exists ps0, json_copy (VObj cps) = VObj ps0.
Proof. simpl. eauto. Qed.

(** What [redactComplaintDeep] does to a complaint that is an object:
    the copy keeps its properties; outside the root keys and [concerns]
    they keep their values; the concerns are redacted one by one. *)
Lemma redactComplaintDeep_spec (cps : properties) (r : value) :
  redactComplaintDeep (VObj cps) = Ok r ->
  exists ps0 ps',
    json_copy (VObj cps) = VObj ps0 /\ r = VObj ps'
    /\ keys_of ps' = keys_of ps0
    /\ (forall k, ~ In k rootKeys -> k <> str "concerns" ->
          own_get k ps' = own_get k ps0)
    /\ Forall2 (fun c c' =>
                  redact_concern (or_object (field (VObj cps) "redactOverrides")) c = Ok c')
         (concerns_of (VObj ps0)) (concerns_of (VObj ps')).
Proof.
  unfold redactComplaintDeep. intros H.
  destruct (json_copy_object cps) as (ps0 & Hcopy).
  cbn [json_clone mbind outcome_bind] in H. rewrite Hcopy in H.
  rewrite get_prop_object in H. cbn [mbind outcome_bind] in H.
  apply bind_Ok in H as (keys & Hkeys & H). apply bind_Ok in H as (red & Hred & H).
  apply redactFields_object in Hred as (ps1 & -> & Hkeys1 & Hframe1).
  apply not_switched_off_incl in Hkeys.
  rewrite get_prop_object in H. cbn [mbind outcome_bind] in H.
  apply bind_Ok in H as (cl & Hcl & H). apply bind_Ok in H as (concerns & Hcs & H).
  injection H as <-. apply elements_or_empty_Ok in Hcl. subst cl.
  apply map_outcome_Ok in Hcs.
  assert (Hc1 : own_get (str "concerns") ps1 = own_get (str "concerns") ps0).
  { apply Hframe1. intros Hin. apply Hkeys in Hin. simpl in Hin.
    repeat (destruct Hin as [Hin|Hin]; [discriminate Hin|]). exact Hin. }
  assert (Hframe : forall k, ~ In k rootKeys -> own_get k ps1 = own_get k ps0).
  { intros k Hk. apply Hframe1. intros Hin. apply Hk, Hkeys, Hin. }
  assert (Hplain : forall v, (forall cs, v <> VArr cs) -> elements v = []).
  { intros v Hv. destruct v; try reflexivity. destruct (Hv elems). reflexivity. }
  unfold concerns_of, field in *. cbn [default] in *. unfold store_elements.
  rewrite Hc1 in *.
  destruct (own_get (str "concerns") ps0) as [[| | | | |cs|]|] eqn:Ec;
    cbn [default elements] in Hcs |- *.
  6:{ exists ps0, (own_set (str "concerns") (VArr concerns) ps1).
      split; [exact Hcopy|]. split; [reflexivity|]. split.
      { rewrite keys_of_set_present; [exact Hkeys1 | rewrite Hc1; eauto]. }
      split.
      { intros k Hk Hne. rewrite own_get_set_ne by exact Hne. apply Hframe, Hk. }
      rewrite own_get_set_eq, Ec. exact Hcs. }
  all: apply Forall2_nil_inv_l in Hcs; subst concerns;
    exists ps0, ps1; rewrite Hc1;
    (split; [exact Hcopy|]); (split; [reflexivity|]); (split; [exact Hkeys1|]);
    (split; [intros k Hk _; apply Hframe, Hk | rewrite ?Ec; constructor]).
Qed.

(** ** Attachments *)







Import Json.



Import Json.

(** ** The frame of the redaction *)

Lemma own_get_json_copy (k : jsstr) (x : value) (ps ps0 : properties) :
  json_copy (VObj ps) = VObj ps0 ->
  own_get k ps = Some x -> x <> VUndef -> own_get k ps0 = Some (json_copy x).
Proof.
  intros Hcopy. simpl in Hcopy. injection Hcopy as <-.
  induction ps as [|[k' v'] ps IH]; simpl; [discriminate|].
  case_bool_decide as E.
  - intros [= ->] Hx. destruct x; try (destruct Hx; reflexivity);
      cbn [own_get]; rewrite bool_decide_eq_true_2 by exact E; reflexivity.
  - intros Hget Hx. destruct v'; cbn [own_get];
      rewrite ?bool_decide_eq_false_2 by exact E; apply IH; assumption.
Qed.

(** C10, as amended. The frame of structural redaction. On a complaint
    that is an object, [redactComplaintDeep] returns the deep copy with
    the same properties, in which only these have been written: the nine
    root fields; in each concern its four text fields, [evidence],
    [notes], [responses] and [attachments]; in each note [text] and
    [urls]; in each response [decisionMaker], [text] and [urls]. Every
    other property of the copy, of its concerns and of their notes and
    responses has the value it has in the copy. In particular the
    history is returned as it is: the date and the event text of every
    history entry are unmasked in the output. *)
Theorem redaction_frame (cps : properties) (r : value) :
  redactComplaintDeep (VObj cps) = Ok r ->
  (exists ps', r = VObj ps' /\ keys_of ps' = keys_of (spread (json_copy (VObj cps))))
  /\ (forall k, ~ In k rootKeys -> k <> str "concerns" ->
        own r k = own (json_copy (VObj cps)) k)
  /\ Forall2
       (fun c c' =>
          (forall k, ~ In k concern_written -> own c' k = own c k)
          /\ Forall2 (fun n n' => forall k, ~ In k note_written ->
                                   own n' k = own_get k (spread n))
               (elements (field c "notes")) (elements (field c' "notes"))
          /\ Forall2 (fun x x' => forall k, ~ In k response_written ->
                                   own x' k = own_get k (spread x))
               (elements (field c "responses")) (elements (field c' "responses")))
       (concerns_of (json_copy (VObj cps))) (concerns_of r)
  /\ (forall entries i entry fld e,
        own (VObj cps) (str "history") = Some (VArr entries) ->
        entries !! i = Some entry ->
        own entry fld = Some (VStr e) ->
        exists entries' entry',
          own r (str "history") = Some (VArr entries')
          /\ entries' !! i = Some entry'
          /\ own entry' fld = Some (VStr e)).
Proof.
  intros H.
  apply redactComplaintDeep_spec in H
    as (ps0 & ps' & Hcopy & -> & Hkeys & Hframe & Hcs).
  rewrite Hcopy. split; [exists ps'; split; [reflexivity | exact Hkeys]|].
  split; [exact Hframe|]. split.
  - eapply Forall2_impl; [exact Hcs|]. intros c c' Hc. simpl in Hc.
    apply redact_concern_spec in Hc
      as (cov & ps & psc & ev & ns & rs & -> & -> & _ & Hfr & _ & Hn & Hns & Hr & Hrs & _).
    split; [exact Hfr|].
    unfold field at 2 4. rewrite Hn, Hr. cbn [default elements]. split.
    + eapply Forall2_impl; [exact Hns|]. intros n n' Hnn k Hk. simpl in Hnn.
      apply redact_note_frame in Hnn as (psn & -> & Hnn). apply Hnn, Hk.
    + eapply Forall2_impl; [exact Hrs|]. intros x x' Hxx k Hk. simpl in Hxx.
      apply redact_response_frame in Hxx as (psx & -> & Hxx). apply Hxx, Hk.
  - intros entries i entry fld e Hh Hi He. simpl in Hh.
    apply (own_get_json_copy _ _ _ _ Hcopy) in Hh; [|discriminate].
    exists (map json_copy entries), (json_copy entry). split.
    { simpl. rewrite Hframe; [exact Hh | | discriminate].
      simpl. intros Hin. repeat (destruct Hin as [Hin|Hin]; [discriminate Hin|]).
      exact Hin. }
    split.
    { change (map json_copy entries) with (json_copy <$> entries).
      rewrite list_lookup_fmap, Hi. reflexivity. }
    destruct entry as [| | | | | |eps]; try discriminate He. simpl in He.
    destruct (json_copy_object eps) as (eps0 & Heps). rewrite Heps. simpl.
    apply (own_get_json_copy _ _ _ _ Heps) in He; [exact He | discriminate].
Qed.

Lemma redaction_frame_witness :
  redactComplaintDeep sample_record = Ok (redacted sample_record)
  /\ (exists entries' entry',
        own (redacted sample_record) (str "history") = Some (VArr entries')
        /\ entries' !! 0%nat = Some entry'
        /\ own entry' (str "event")
           = Some (text "Note added to concern: write to jane.doe@example.org")).
Proof.
  assert (H1 : redactComplaintDeep sample_record = Ok (redacted sample_record))
    by (vm_compute; reflexivity).
  split; [exact H1|].
  refine (proj2 (proj2 (proj2 (redaction_frame (props sample_fields) _ H1)))
            _ 0%nat _ (str "event") _ _ _ _); vm_compute; reflexivity.
Defined.

(** The claim C10 as first stated fails: the decision maker of a
    response, which is not among the fields the claim lists, is masked,
    and the attachments of a concern are not returned unchanged. *)
Lemma response_decision_maker_masked :
  exists c c' x x',
    concerns_of (json_copy sample_record) = [c]
    /\ concerns_of (redacted sample_record) = [c']
    /\ elements (field c "responses") = [x]
    /\ elements (field c' "responses") = [x']
    /\ field x "decisionMaker" = text "PC AB1234"
    /\ field x' "decisionMaker" = text "PC [redacted-id]"
    /\ field c "attachments"
       = VArr [text "cmp_001/c1/scan.png"; text "cmp_001/c1/log.txt"]
    /\ field c' "attachments" = VArr [text "cmp_001/c1/scan.png"].
Proof. eexists _, _, _, _. vm_compute. repeat split. Qed.

(* ===================================================================== *)
(** * Redaction does not write to its argument *)
(* ===================================================================== *)

Import Heap.

Open Scope nat_scope.

Lemma keeps_ret {A} (n : nat) (a : A) (P : A -> Prop) : P a -> keeps n (mret a) P.
Proof. intros Ha h a' h' Hn Hc [= <- <-]. auto. Qed.

Lemma keeps_bind {A B} (n : nat) (m : M A) (f : A -> M B) (P : A -> Prop)
    (Q : B -> Prop) :
  keeps n m P -> (forall a, P a -> keeps n (f a) Q) -> keeps n (m ≫= f) Q.
Proof.
  intros Hm Hf h b h' Hn Hc H. unfold mbind, M_bind in H.
  destruct (m h) as [[a h1]| |] eqn:E; try discriminate.
  destruct (Hm h a h1 Hn Hc E) as (Hn1 & Hc1 & Hold1 & Ha).
  destruct (Hf a Ha h1 b h' Hn1 Hc1 H) as (Hn2 & Hc2 & Hold2 & Hb).
  repeat split; try assumption. intros l Hl. rewrite Hold2, Hold1 by exact Hl.
  reflexivity.
Qed.

Lemma keeps_fmap {A B} (n : nat) (m : M A) (f : A -> B) (P : A -> Prop)
    (Q : B -> Prop) :
  keeps n m P -> (forall a, P a -> Q (f a)) -> keeps n (f <$> m) Q.
Proof.
  intros Hm Hf h b h' Hn Hc H. unfold fmap, M_fmap in H.
  destruct (m h) as [[a h1]| |] eqn:E; try discriminate. injection H as <- <-.
  destruct (Hm h a h1 Hn Hc E) as (Hn1 & Hc1 & Hold1 & Ha). auto.
Qed.

Lemma keeps_weaken {A} (n : nat) (m : M A) (P Q : A -> Prop) :
  keeps n m P -> (forall a, P a -> Q a) -> keeps n m Q.
Proof.
  intros Hm HPQ h a h' Hn Hc H.
  destruct (Hm h a h' Hn Hc H) as (? & ? & ? & ?). auto.
Qed.

Lemma keeps_throw {A} (n : nat) (P : A -> Prop) : keeps n throw P.
Proof. intros h a h' _ _ H. discriminate H. Qed.

Lemma keeps_unmodelled {A} (n : nat) (P : A -> Prop) : keeps n unmodelled P.
Proof. intros h a h' _ _ H. discriminate H. Qed.

Lemma keeps_lift {A} (n : nat) (o : outcome A) : keeps n (lift o) (fun _ => True).
Proof.
  intros h a h' Hn Hc H. unfold lift in H. destruct o; try discriminate.
  injection H as <- <-. auto.
Qed.

Lemma keeps_alloc (n : nat) (o : hobj) : new_object n o -> keeps n (alloc o) (new_value n).
Proof.
  intros Ho h a h' Hn Hc [= <- <-]. rewrite length_app. simpl.
  split; [lia|]. split; [|split; [|exact Hn]].
  - intros l o' Hl Hlook.
    destruct (Nat.lt_ge_cases l (length h)) as [Hlt|Hge].
    + rewrite lookup_app_l in Hlook by exact Hlt. eapply Hc; eassumption.
    + rewrite lookup_app_r in Hlook by exact Hge.
      destruct (l - length h) as [|i]; simpl in Hlook; [|discriminate].
      injection Hlook as <-. exact Ho.
  - intros l Hl. apply lookup_app_l. lia.
Qed.

Lemma keeps_deref (n : nat) (l : loc) :
  keeps n (deref l) (fun o => n <= l -> new_object n o).
Proof.
  intros h o h' Hn Hc H. unfold deref in H.
  destruct (h !! l) as [o'|] eqn:E; try discriminate. injection H as <- <-.
  repeat split; try assumption; auto. intros Hl. eapply Hc; eassumption.
Qed.

Lemma keeps_store (n : nat) (l : loc) (o : hobj) :
  n <= l -> new_object n o -> keeps n (store l o) (fun _ => True).
Proof.
  intros Hl Ho h a h' Hn Hc [= <- <-]. rewrite length_insert.
  split; [exact Hn|]. split; [|split; [|exact I]].
  - intros l' o' Hl' Hlook. destruct (decide (l' = l)) as [->|Hne].
    + destruct (Nat.lt_ge_cases l (length h)) as [Hlt|Hge].
      * rewrite list_lookup_insert_eq in Hlook by exact Hlt.
        injection Hlook as <-. exact Ho.
      * rewrite list_insert_ge in Hlook by exact Hge. eapply Hc; eassumption.
    + rewrite list_lookup_insert_ne in Hlook by congruence.
      eapply Hc; eassumption.
  - intros l' Hl'. apply list_lookup_insert_ne. lia.
Qed.

Lemma new_value_own_get (n : nat) (k : jsstr) (ps : list (jsstr * hval)) :
  Forall (new_value n) ps.*2 -> new_value n (default HUndef (own_get k ps)).
Proof.
  induction ps as [|[k' v] ps IH]; simpl; [intros _; exact I|].
  intros [Hv Hps]%Forall_cons_1. case_bool_decide; [exact Hv | apply IH, Hps].
Qed.

Lemma new_value_own_set (n : nat) (k : jsstr) (x : hval) (ps : list (jsstr * hval)) :
  new_value n x -> Forall (new_value n) ps.*2 ->
  Forall (new_value n) (own_set k x ps).*2.
Proof.
  intros Hx. induction ps as [|[k' v] ps IH]; simpl.
  - intros _. repeat constructor. exact Hx.
  - intros [Hv Hps]%Forall_cons_1. case_bool_decide; simpl; constructor; auto.
Qed.

Lemma new_value_lookup (n : nat) (es : list hval) (i : option nat) :
  Forall (new_value n) es -> new_value n (default HUndef (i ≫= (es !!.))).
Proof.
  intros Hes. destruct i as [i|]; simpl; [|exact I].
  destruct (es !! i) as [v|] eqn:E; simpl; [|exact I].
  rewrite Forall_forall in Hes. apply Hes. eapply list_elem_of_lookup_2, E.
Qed.

(** A property read from a new object is a new value. *)
Lemma keeps_get_prop (n : nat) (v : hval) (k : jsstr) :
  keeps n (get_prop v k) (fun x => new_value n v -> new_value n x).
Proof.
  destruct v; simpl; try apply keeps_throw;
    try (apply keeps_ret; intros _; exact I).
  - repeat case_match; apply keeps_ret; intros _; exact I.
  - eapply keeps_bind; [apply keeps_deref|]. intros o Ho.
    destruct o as [ps|es].
    + apply keeps_ret. intros Hl. apply new_value_own_get, Ho, Hl.
    + case_bool_decide; apply keeps_ret; intros Hl; [exact I|].
      apply new_value_lookup, Ho, Hl.
Qed.

Lemma keeps_set_prop (n : nat) (v : hval) (k : jsstr) (x : hval) :
  new_value n v -> new_value n x -> keeps n (set_prop v k x) (fun _ => True).
Proof.
  intros Hv Hx. destruct v; simpl; try apply keeps_throw.
  eapply keeps_bind; [apply keeps_deref|]. intros o Ho.
  destruct o as [ps|es]; [|apply keeps_unmodelled].
  apply keeps_store; [exact Hv|]. apply new_value_own_set; [exact Hx | apply Ho, Hv].
Qed.

Lemma keeps_pure {A} (n : nat) (m : M A) :
  (forall h a h', m h = Ok (a, h') -> h' = h) -> keeps n m (fun _ => True).
Proof.
  intros Hm h a h' Hn Hc H. apply Hm in H. subst h'. auto.
Qed.

Lemma keeps_reify (n : nat) (v : hval) : keeps n (reify v) (fun _ => True).
Proof.
  apply keeps_pure. intros h a h' H. unfold reify in H.
  destruct (read_value (length h) h v); congruence.
Qed.

Lemma keeps_ToString (n : nat) (v : hval) : keeps n (ToString v) (fun _ => True).
Proof.
  unfold ToString. eapply keeps_bind; [apply keeps_reify|]. intros t _.
  apply keeps_lift.
Qed.

Lemma keeps_maskText_any (n : nat) (v : hval) :
  keeps n (maskText_any v) (fun _ => True).
Proof.
  unfold maskText_any. destruct (truthy v); [|apply keeps_ret; exact I].
  eapply keeps_fmap; [apply keeps_ToString | auto].
Qed.

Lemma Forall_imap_snd {A} (P : hval -> Prop) (f : nat -> A -> jsstr * hval)
    (l : list A) :
  (forall i x, l !! i = Some x -> P (f i x).2) -> Forall P (imap f l).*2.
Proof.
  intros H. apply Forall_lookup. intros i y Hi.
  rewrite list_lookup_fmap, list_lookup_imap in Hi.
  destruct (l !! i) as [x|] eqn:E; simpl in Hi; [|discriminate].
  injection Hi as <-. apply H, E.
Qed.

Lemma keeps_spread (n : nat) (v : hval) :
  new_value n v -> keeps n (spread v) (fun ps => Forall (new_value n) ps.*2).
Proof.
  intros Hv. destruct v; simpl; try (apply keeps_ret; constructor).
  - apply keeps_ret. apply Forall_imap_snd. intros i x _. exact I.
  - eapply keeps_bind; [apply keeps_deref|]. intros o Ho. specialize (Ho Hv).
    destruct o as [ps|es]; apply keeps_ret; [exact Ho|].
    apply Forall_imap_snd. intros i x Hi. simpl.
    unfold new_object in Ho. rewrite Forall_forall in Ho. apply Ho.
    eapply list_elem_of_lookup_2, Hi.
Qed.

Lemma keeps_elements_or_empty (n : nat) (v : hval) :
  new_value n v -> keeps n (elements_or_empty v) (Forall (new_value n)).
Proof.
  intros Hv. unfold elements_or_empty.
  destruct (truthy v); [|apply keeps_ret; constructor].
  destruct v; try apply keeps_throw.
  eapply keeps_bind; [apply keeps_deref|]. intros o Ho. specialize (Ho Hv).
  destruct o as [ps|es]; [apply keeps_throw | apply keeps_ret; exact Ho].
Qed.

Lemma keeps_isArray (n : nat) (v : hval) : keeps n (isArray v) (fun _ => True).
Proof.
  destruct v; simpl; try (apply keeps_ret; exact I).
  eapply keeps_bind; [apply keeps_deref|]. intros o _. apply keeps_ret. exact I.
Qed.

Lemma keeps_or_object (n : nat) (v : hval) :
  keeps n (or_object v) (fun x => new_value n v -> new_value n x).
Proof.
  unfold or_object. destruct (truthy v); [apply keeps_ret; auto|].
  eapply keeps_weaken; [apply keeps_alloc; constructor | auto].
Qed.

Lemma keeps_map_store {A B} (n : nat) (f : A -> M B) (P : A -> Prop) (Q : B -> Prop)
    (l : list A) :
  (forall x, P x -> keeps n (f x) Q) -> Forall P l ->
  keeps n (map_store f l) (Forall Q).
Proof.
  intros Hf. induction 1 as [|x l Hx _ IH]; simpl; [apply keeps_ret; constructor|].
  eapply keeps_bind; [apply Hf, Hx|]. intros y Hy.
  eapply keeps_bind; [exact IH|]. intros ys Hys.
  apply keeps_ret. constructor; assumption.
Qed.

Lemma keeps_forEach {A} (n : nat) (f : A -> M unit) (P : A -> Prop) (l : list A) :
  (forall x, P x -> keeps n (f x) (fun _ => True)) -> Forall P l ->
  keeps n (forEach f l) (fun _ => True).
Proof.
  intros Hf. induction 1 as [|x l Hx _ IH]; simpl; [apply keeps_ret; exact I|].
  eapply keeps_bind; [apply Hf, Hx|]. intros _ _. exact IH.
Qed.

(** Induction on the content of a record. *)
Lemma value_nested_ind (P : Json.value -> Prop) :
  P Json.VUndef -> P Json.VNull -> (forall b, P (Json.VBool b)) ->
  (forall r, P (Json.VNum r)) -> (forall s, P (Json.VStr s)) ->
  (forall l, Forall P l -> P (Json.VArr l)) ->
  (forall ps, Forall (fun kv => P kv.2) ps -> P (Json.VObj ps)) ->
  forall v, P v.
Proof.
  intros HU HN HB HNum HS HA HO.
  fix IH 1.
  intros [| |b|r|s|l|ps];
    [exact HU | exact HN | apply HB | apply HNum | apply HS | |].
  - apply HA. induction l as [|x l IHl]; constructor; [apply IH | exact IHl].
  - apply HO. induction ps as [|[k x] ps IHps]; constructor; [apply IH | exact IHps].
Qed.

(** Everything [JSON.parse] builds is new. *)
Lemma keeps_build (n : nat) (t : Json.value) : keeps n (build t) (new_value n).
Proof.
  induction t as [| |b|r|s|l Hl|ps Hps] using value_nested_ind;
    try (apply keeps_ret; exact I); cbn [build].
  - eapply keeps_bind; [|intros es Hes; apply keeps_alloc, Hes].
    eapply keeps_map_store; [|exact Hl]. intros x Hx. exact Hx.
  - apply (keeps_bind n _ _ (Forall (fun kv => new_value n kv.2))).
    + eapply keeps_map_store; [|exact Hps]. intros [k x] H. simpl in H.
      eapply keeps_bind; [exact H|]. intros x' Hx'. apply keeps_ret. exact Hx'.
    + intros ps' Hps'. apply keeps_alloc. unfold new_object. simpl.
      apply Forall_fmap. exact Hps'.
Qed.

Lemma keeps_json_clone (n : nat) (v : hval) : keeps n (json_clone v) (new_value n).
Proof.
  unfold json_clone. eapply keeps_bind; [apply keeps_reify|]. intros t _.
  eapply keeps_bind; [apply keeps_lift|]. intros t' _. apply keeps_build.
Qed.

Lemma keeps_redactFields (n : nat) (obj : hval) (keys : list jsstr) :
  new_value n obj -> keeps n (redactFields obj keys) (fun _ => True).
Proof.
  intros Hobj. induction keys as [|k keys IH]; simpl; [apply keeps_ret; exact I|].
  eapply keeps_bind; [apply keeps_get_prop|]. intros x _.
  apply (keeps_bind n _ _ (fun _ => True)); [|intros _ _; exact IH].
  destruct (truthy x); [|apply keeps_ret; exact I].
  eapply keeps_bind; [apply keeps_maskText_any|]. intros m _.
  apply keeps_set_prop; [exact Hobj | exact I].
Qed.

Lemma keeps_not_switched_off (n : nat) (flags : hval) (keys : list jsstr) :
  keeps n (not_switched_off flags keys) (fun _ => True).
Proof.
  induction keys as [|k keys IH]; simpl; [apply keeps_ret; exact I|].
  eapply keeps_bind; [apply keeps_get_prop|]. intros f _.
  eapply keeps_bind; [exact IH|]. intros rest _. apply keeps_ret. exact I.
Qed.

Lemma keeps_mask_unless (n : nat) (cov : hval) (flag : string) (x : hval) :
  new_value n x -> keeps n (mask_unless cov flag x) (new_value n).
Proof.
  intros Hx. unfold mask_unless.
  eapply keeps_bind; [apply keeps_get_prop|]. intros f _.
  destruct (is_false f); [apply keeps_ret; exact Hx|].
  eapply keeps_fmap; [apply keeps_maskText_any|]. intros m _. exact I.
Qed.

Lemma keeps_mask_urls (n : nat) (cov : hval) (flag : string) (x : hval) :
  new_value n x -> keeps n (mask_urls cov flag x) (new_value n).
Proof.
  intros Hx. unfold mask_urls.
  eapply keeps_bind; [apply keeps_get_prop|]. intros us Hus.
  eapply keeps_bind; [apply keeps_elements_or_empty, Hus, Hx|]. intros l Hl.
  eapply keeps_bind;
    [apply (keeps_map_store n _ (new_value n) (new_value n));
       [intros u Hu; apply keeps_mask_unless, Hu | exact Hl]|].
  intros masked Hmasked. apply keeps_alloc. exact Hmasked.
Qed.

Lemma keeps_redact_note (n : nat) (cov : hval) (x : hval) :
  new_value n x -> keeps n (redact_note cov x) (new_value n).
Proof.
  intros Hx. unfold redact_note.
  eapply keeps_bind; [apply keeps_spread, Hx|]. intros copied Hcopied.
  eapply keeps_bind; [apply keeps_get_prop|]. intros t Ht.
  eapply keeps_bind; [apply keeps_mask_unless, Ht, Hx|]. intros text Htext.
  eapply keeps_bind; [apply keeps_mask_urls, Hx|]. intros urls Hurls.
  apply keeps_alloc. unfold new_object. simpl.
  repeat apply new_value_own_set; assumption.
Qed.

Lemma keeps_redact_response (n : nat) (cov : hval) (x : hval) :
  new_value n x -> keeps n (redact_response cov x) (new_value n).
Proof.
  intros Hx. unfold redact_response.
  eapply keeps_bind; [apply keeps_spread, Hx|]. intros copied Hcopied.
  eapply keeps_bind; [apply keeps_get_prop|]. intros d Hd.
  eapply keeps_bind; [apply keeps_mask_unless, Hd, Hx|]. intros dm Hdm.
  eapply keeps_bind; [apply keeps_get_prop|]. intros t Ht.
  eapply keeps_bind; [apply keeps_mask_unless, Ht, Hx|]. intros text Htext.
  eapply keeps_bind; [apply keeps_mask_urls, Hx|]. intros urls Hurls.
  apply keeps_alloc. unfold new_object. simpl.
  repeat apply new_value_own_set; assumption.
Qed.

Lemma keeps_marked_safe (n : nat) (overrides key : hval) :
  keeps n (marked_safe overrides key) (fun _ => True).
Proof.
  unfold marked_safe.
  eapply keeps_bind; [apply keeps_get_prop|]. intros safe _.
  destruct (truthy safe); [|apply keeps_ret; exact I].
  destruct safe; try apply keeps_throw.
  - eapply keeps_bind; [apply keeps_ToString|]. intros t _. apply keeps_ret. exact I.
  - eapply keeps_bind; [apply keeps_deref|]. intros o _.
    destruct o; [apply keeps_throw | apply keeps_ret; exact I].
Qed.

Lemma keeps_filter_safe (n : nat) (overrides : hval) (keys : list hval) :
  Forall (new_value n) keys ->
  keeps n (filter_safe overrides keys) (Forall (new_value n)).
Proof.
  induction 1 as [|key keys Hkey _ IH]; simpl; [apply keeps_ret; constructor|].
  eapply keeps_bind; [apply keeps_marked_safe|]. intros ok _.
  eapply keeps_bind; [exact IH|]. intros rest Hrest.
  apply keeps_ret. destruct ok; [constructor|]; assumption.
Qed.

Lemma keeps_redact_concern (n : nat) (overrides c : hval) :
  new_value n c -> keeps n (redact_concern overrides c) (fun _ => True).
Proof.
  intros Hc. unfold redact_concern.
  eapply keeps_bind; [apply keeps_get_prop|]. intros id _.
  eapply keeps_bind; [apply keeps_get_prop|]. intros oc _.
  eapply keeps_bind; [apply keeps_or_object|]. intros oc' _.
  eapply keeps_bind; [apply keeps_ToString|]. intros key _.
  eapply keeps_bind; [apply keeps_get_prop|]. intros cv _.
  eapply keeps_bind; [apply keeps_or_object|]. intros cov _.
  eapply keeps_bind; [apply keeps_not_switched_off|]. intros keys _.
  eapply keeps_bind; [apply keeps_redactFields, Hc|]. intros _ _.
  eapply keeps_bind; [apply keeps_get_prop|]. intros ev Hev.
  eapply keeps_bind; [apply keeps_elements_or_empty, Hev, Hc|]. intros evs Hevs.
  eapply keeps_bind;
    [apply (keeps_map_store n _ (new_value n) (new_value n)); [|exact Hevs];
     intros e _; eapply keeps_fmap; [apply keeps_maskText_any | intros; exact I]|].
  intros evidence Hevidence.
  eapply keeps_bind; [apply keeps_alloc, Hevidence|]. intros evidence' Hevidence'.
  eapply keeps_bind; [apply keeps_set_prop; assumption|]. intros _ _.
  eapply keeps_bind; [apply keeps_get_prop|]. intros ns Hns.
  eapply keeps_bind; [apply keeps_elements_or_empty, Hns, Hc|]. intros nl Hnl.
  eapply keeps_bind;
    [apply (keeps_map_store n _ (new_value n) (new_value n)); [|exact Hnl];
     intros x Hx; apply keeps_redact_note, Hx|].
  intros notes Hnotes.
  eapply keeps_bind; [apply keeps_alloc, Hnotes|]. intros notes' Hnotes'.
  eapply keeps_bind; [apply keeps_set_prop; assumption|]. intros _ _.
  eapply keeps_bind; [apply keeps_get_prop|]. intros rs Hrs.
  eapply keeps_bind; [apply keeps_elements_or_empty, Hrs, Hc|]. intros rl Hrl.
  eapply keeps_bind;
    [apply (keeps_map_store n _ (new_value n) (new_value n)); [|exact Hrl];
     intros x Hx; apply keeps_redact_response, Hx|].
  intros responses Hresponses.
  eapply keeps_bind; [apply keeps_alloc, Hresponses|]. intros responses' Hresponses'.
  eapply keeps_bind; [apply keeps_set_prop; assumption|]. intros _ _.
  eapply keeps_bind; [apply keeps_get_prop|]. intros att Hatt.
  eapply keeps_bind; [apply keeps_isArray|]. intros is_arr _.
  destruct is_arr; [|apply keeps_ret; exact I].
  eapply keeps_bind; [apply keeps_elements_or_empty, Hatt, Hc|]. intros keys' Hkeys'.
  eapply keeps_bind; [apply keeps_filter_safe, Hkeys'|]. intros kept Hkept.
  eapply keeps_bind; [apply keeps_alloc, Hkept|]. intros kept' Hkept'.
  apply keeps_set_prop; assumption.
Qed.

(** [redactComplaintDeep] writes only to new objects and returns one. *)
Lemma keeps_redactComplaintDeep (n : nat) (complaint : hval) :
  keeps n (redactComplaintDeep complaint) (new_value n).
Proof.
  unfold redactComplaintDeep.
  eapply keeps_bind; [apply keeps_json_clone|]. intros redacted Hredacted.
  eapply keeps_bind; [apply keeps_get_prop|]. intros ov _.
  eapply keeps_bind; [apply keeps_or_object|]. intros overrides _.
  eapply keeps_bind; [apply keeps_not_switched_off|]. intros keys _.
  eapply keeps_bind; [apply keeps_redactFields, Hredacted|]. intros _ _.
  eapply keeps_bind; [apply keeps_get_prop|]. intros cs Hcs.
  eapply keeps_bind; [apply keeps_elements_or_empty, Hcs, Hredacted|]. intros cl Hcl.
  eapply keeps_bind;
    [apply (keeps_forEach n _ (new_value n)); [|exact Hcl];
     intros c Hc; apply keeps_redact_concern, Hc|].
  intros _ _. apply keeps_ret. exact Hredacted.
Qed.

(** ** The content of the argument *)

Lemma map_outcome_mono {A B} (F G : A -> outcome B) (l : list A) (r : list B) :
  (forall x y, F x = Ok y -> G x = Ok y) ->
  map_outcome F l = Ok r -> map_outcome G l = Ok r.
Proof.
  intros HFG. revert r. induction l as [|x l IH]; intros r H; simpl in *; [exact H|].
  apply bind_Ok in H as (y & Hy & H).
  apply bind_Ok in H as (ys & Hys & H).
  rewrite (HFG _ _ Hy). simpl. rewrite (IH _ Hys). exact H.
Qed.

(** Reading a value gives the same content in a larger store that
    agrees with the first, and with more fuel. *)
Lemma read_value_mono (h h' : heap) :
  (forall (l : loc) o, h !! l = Some o -> h' !! l = Some o) ->
  forall (f f' : nat) (v : hval) (t : Json.value),
    f <= f' -> read_value f h v = Ok t -> read_value f' h' v = Ok t.
Proof.
  intros Hext f. induction f as [|f IH]; intros f' v t Hle H.
  - destruct v; simpl in H; try discriminate; destruct f'; exact H.
  - destruct f' as [|f']; [lia|].
    destruct v as [| | | | |l]; cbn [read_value] in H |- *; try exact H.
    destruct (h !! l) as [o|] eqn:E; [|discriminate].
    rewrite (Hext _ _ E). destruct o as [ps|es].
    + destruct (map_outcome _ ps) as [r| |] eqn:Er; simpl in H; try discriminate.
      erewrite map_outcome_mono; [exact H| |exact Er].
      intros [k x] y Hy. apply bind_Ok in Hy as (x' & Hx' & Hy).
      rewrite (IH f' x x') by (lia || exact Hx'). exact Hy.
    + destruct (map_outcome _ es) as [r| |] eqn:Er; simpl in H; try discriminate.
      erewrite map_outcome_mono; [exact H| |exact Er].
      intros x y Hy. apply (IH f'); [lia | exact Hy].
Qed.

Lemma reachable_new (n : nat) (h : heap) (v : hval) (l : loc) :
  closed_from n h -> new_value n v -> reachable h v l -> n <= l.
Proof.
  intros Hc Hv Hr. induction Hr as [l|l o v l' Hl Hin _ IH]; [exact Hv|].
  apply IH. specialize (Hc l o Hv Hl). unfold new_object in Hc.
  rewrite Forall_forall in Hc. apply Hc, Hin.
Qed.

(** C6. Redaction never mutates its input. When
    [redactComplaintDeep(R)] returns, every object that was in the store
    before the call is as it was, so every property of [R] and of
    everything nested in it has its old value, and reading the whole
    content of [R] gives what it gave before; what is returned is built
    only of objects made during the call, none of which was in the
    store before, so it shares no object with [R]. *)
Theorem redaction_does_not_mutate (h h' : heap) (complaint r : hval) :
  redactComplaintDeep complaint h = Ok (r, h') ->
  (forall (l : loc) o, h !! l = Some o -> h' !! l = Some o)
  /\ (forall l, reachable h' r l -> length h <= l)
  /\ (exists t, reify complaint h = Ok (t, h) /\ reify complaint h' = Ok (t, h')).
Proof.
  intros H.
  assert (Hclosed : closed_from (length h) h).
  { intros l o Hl Hlook. apply lookup_lt_Some in Hlook. lia. }
  destruct (keeps_redactComplaintDeep (length h) complaint h r h'
              (Nat.le_refl _) Hclosed H) as (Hlen & Hc' & Hold & Hr).
  assert (Hext : forall (l : loc) o, h !! l = Some o -> h' !! l = Some o).
  { intros l o Hl. etrans; [|exact Hl]. apply Hold.
    apply lookup_lt_Some in Hl. exact Hl. }
  split; [exact Hext|]. split.
  - intros l Hreach. eapply reachable_new; eassumption.
  - unfold redactComplaintDeep, json_clone in H.
    unfold mbind at 1 2, M_bind at 1 2 in H.
    destruct (reify complaint h) as [[t h1]| |] eqn:E;
      try (exfalso; revert H; unfold mbind at 1, M_bind at 1; rewrite E; discriminate).
    assert (h1 = h) as ->.
    { unfold reify in E. destruct (read_value _ _ _); congruence. }
    exists t. split; [reflexivity|].
    unfold reify in *. destruct (read_value (length h) h complaint) eqn:Er;
      try discriminate. injection E as ->.
    rewrite (read_value_mono h h' Hext _ _ _ _ Hlen Er). reflexivity.
Qed.

Lemma redaction_does_not_mutate_witness :
  redactComplaintDeep sample_ref sample_store = Ok (sample_result, sample_store_after)
  /\ (forall (l : loc) o,
        sample_store !! l = Some o -> sample_store_after !! l = Some o)
  /\ (forall l, reachable sample_store_after sample_result l ->
                length sample_store <= l)
  /\ (exists t, reify sample_ref sample_store = Ok (t, sample_store)
                /\ reify sample_ref sample_store_after = Ok (t, sample_store_after)).
Proof.
  assert (H : redactComplaintDeep sample_ref sample_store
              = Ok (sample_result, sample_store_after)) by (vm_compute; reflexivity).
  split; [exact H | exact (redaction_does_not_mutate _ _ _ _ H)].
Defined.

(** On the sample, the store grows from 17 objects to 44, the argument
    still reads as the complaint that was parsed, and the result reads
    as the value the redaction over plain values returns. *)
Example redaction_of_sample_store :
  length sample_store = 17
  /\ length sample_store_after = 44
  /\ reify sample_ref sample_store_after = Ok (sample_record, sample_store_after)
  /\ reify sample_result sample_store_after
     = Ok (redacted sample_record, sample_store_after).
Proof. vm_compute. repeat split. Qed.

(* ===================================================================== *)
(** * More on the audit chain *)
(* ===================================================================== *)

Section AuditChainLimits.

Variable digest : list Byte.byte -> list Byte.byte.
Variable Fields : Type.

Lemma verify_loop_false_app (prev : jsstr) (l1 l2 : list HistoryEntry) :
  verify_loop digest prev l1 = false -> verify_loop digest prev (l1 ++ l2) = false.
Proof. intros H. rewrite verify_loop_app, H. reflexivity. Qed.

(** X1. The verification of a history reads the entries from the first on
    and knows nothing of what came after: when a history verifies, so
    does what is left of it after any number of entries have been removed
    from its end. Truncation is not detected. *)
Theorem truncated_history_verifies (f : Fields) (kept removed : list HistoryEntry) :
  verifyHistoryChain digest (mkComplaint f (Some (kept ++ removed))) = true ->
  verifyHistoryChain digest (mkComplaint f (Some kept)) = true.
Proof.
  unfold verifyHistoryChain. simpl. rewrite verify_loop_app.
  intros H. apply andb_true_iff in H. exact (proj1 H).
Qed.

(** X2. [appendHistory] repairs nothing: on a complaint whose history does
    not verify, the history after the call does not verify either. *)
Theorem appendHistory_keeps_invalid (now : DateTime) (c : Complaint Fields) (e : jsstr) :
  verifyHistoryChain digest c = false ->
  verifyHistoryChain digest (appendHistory digest now c e) = false.
Proof.
  unfold verifyHistoryChain, appendHistory, appendHistory_push. simpl.
  apply verify_loop_false_app.
Qed.

(** X3. Changing the stored hash of any entry of a history that verifies
    makes the verification fail, whatever the digest: the entry no longer
    carries the hash recomputed for it. *)
Theorem hash_tamper_detected (f : Fields) (pre post : list HistoryEntry)
    (h : HistoryEntry) (v : option jsstr) :
  verifyHistoryChain digest (mkComplaint f (Some (pre ++ h :: post))) = true ->
  v <> hash h ->
  verifyHistoryChain digest
    (mkComplaint f (Some (pre ++ mkEntry (date h) (event h) v :: post))) = false.
Proof.
  unfold verifyHistoryChain. simpl. rewrite !verify_loop_app.
  intros H Hne. apply andb_true_iff in H as [Hpre H]. rewrite Hpre. simpl in *.
  destruct (hash h) as [stored|] eqn:Eh; [|discriminate].
  destruct (bool_decide (stored = _)) eqn:Es; [|discriminate].
  apply bool_decide_eq_true_1 in Es.
  destruct v as [v|]; [|reflexivity].
  rewrite bool_decide_eq_false_2; [reflexivity|].
  intros ->. apply Hne. rewrite Es. reflexivity.
Qed.

Lemma backfill_loop_valid (prev : jsstr) (hist : list HistoryEntry) :
  verify_loop digest prev hist = true -> backfill_loop digest prev hist = hist.
Proof.
  revert prev. induction hist as [|h hist IH]; intros prev H; [reflexivity|].
  simpl in H |- *.
  destruct (hash h) as [stored|] eqn:Eh; [|discriminate].
  destruct (bool_decide (stored = _)) eqn:Es; [|discriminate].
  apply bool_decide_eq_true_1 in Es.
  set (expected := sha256Hex digest (chain_input prev (date h) (event h))) in *.
  assert (Hh : h = mkEntry (date h) (event h) (Some expected)).
  { destruct h as [d e x]. simpl in *. congruence. }
  assert (Hsame : (if bool_decide (or_empty (Some stored) = [])
                      || negb (bool_decide (Some stored = Some expected))
                   then mkEntry (date h) (event h) (Some expected) else h) = h).
  { destruct (_ || _); [symmetry; exact Hh | reflexivity]. }
  rewrite Hsame, Eh. f_equal. apply IH.
  destruct stored as [|ch stored]; simpl; [|exact H].
  exact H.
Qed.

(** What the backfill pass leaves verifies. *)
Lemma backfill_verifies (c : Complaint Fields) :
  verifyHistoryChain digest (backfill digest c) = true.
Proof.
  assert (Hspec : map date (default [] (history (backfill digest c)))
                  = map date (default [] (history c))
                  /\ map event (default [] (history (backfill digest c)))
                     = map event (default [] (history c))
                  /\ map hash (default [] (history (backfill digest c)))
                     = map Some (expected_hashes digest [] (default [] (history c)))).
  { unfold backfill. destruct (history c) as [hist0|] eqn:E; simpl.
    - apply backfill_loop_spec.
    - rewrite E. repeat split. }
  destruct Hspec as (Hd & He & Hh).
  unfold verifyHistoryChain. apply verify_loop_expected. rewrite Hh.
  f_equal. clear Hh. revert Hd He.
  generalize (default [] (history (backfill digest c))) as l'.
  generalize (default [] (history c)) as l. generalize (@nil N) as prev.
  intros prev l. revert prev.
  induction l as [|h l IH]; intros prev [|h' l'] Hd He; try discriminate;
    [reflexivity|].
  simpl in *. injection Hd as Hd1 Hd. injection He as He1 He.
  rewrite Hd1, He1. f_equal. apply IH; assumption.
Qed.

(** X4. The backfill pass leaves a history that verifies as it is, and a
    second pass changes nothing the first has written. *)
Theorem backfill_idempotent (c : Complaint Fields) :
  (verifyHistoryChain digest c = true -> backfill digest c = c)
  /\ backfill digest (backfill digest c) = backfill digest c.
Proof.
  assert (Hvalid : forall c' : Complaint Fields,
             verifyHistoryChain digest c' = true -> backfill digest c' = c').
  { intros [f [hist|]] H; unfold backfill; simpl; [|reflexivity].
    f_equal. f_equal. apply backfill_loop_valid. exact H. }
  split; [apply Hvalid|].
  apply Hvalid.
  apply backfill_verifies.
Qed.

Lemma toISOString_ascii (d : DateTime) : Forall (fun c => c < 128)%N (toISOString d).
Proof.
  assert (Hy : Forall (fun c => c < 128)%N (iso_year (year d))).
  { unfold iso_year. destruct (_ && _); [apply dec_digits_ascii|].
    apply Forall_app. split; [|apply dec_digits_ascii].
    destruct (_ <? _)%Z; repeat constructor. }
  unfold toISOString.
  repeat first [ exact Hy
               | apply dec_digits_ascii
               | apply Forall_app; split
               | apply Forall_cons; split; [reflexivity|]
               | apply Forall_nil_2 ].
Qed.

Lemma slice_ascii (a b : nat) (s : jsstr) :
  Forall (fun c => c < 128)%N s -> Forall (fun c => c < 128)%N (slice a b s).
Proof. intros H. unfold slice. apply Forall_take, Forall_drop, H. Qed.

Lemma same_predecessor_invalid (d1 e1 d2 e2 : jsstr) :
  (forall x y, digest x = digest y -> x = y) ->
  (forall x, digest x <> []) ->
  verify_loop digest []
    [mkEntry d1 e1 (Some (sha256Hex digest (chain_input [] d1 e1)));
     mkEntry d2 e2 (Some (sha256Hex digest (chain_input [] d2 e2)))] = false.
Proof.
  intros Hinj Hne. cbn [verify_loop hash date event].
  rewrite bool_decide_eq_true_2 by reflexivity.
  rewrite bool_decide_eq_false_2; [reflexivity|].
  intros Heq.
  set (h1 := sha256Hex digest (chain_input [] d1 e1)) in *.
  rewrite !sha256Hex_eq in Heq.
  apply concat_hex_pair_inj, Hinj in Heq.
  apply (f_equal length) in Heq. unfold TextEncoder_encode, chain_input in Heq.
  rewrite !length_map in Heq.
  change (str "|" ++ d2 ++ str "|" ++ e2) with (124%N :: d2 ++ str "|" ++ e2) in Heq.
  rewrite !utf8_units_app_ascii in Heq by reflexivity.
  rewrite !length_app in Heq.
  assert (Hascii : Forall (fun c => c < 128)%N h1).
  { eapply Forall_impl; [exact (proj1 (sha256Hex_lower_hex digest _))|].
    intros c Hc. simpl in Hc. unfold is_lower_hex in Hc.
    apply orb_true_iff in Hc as [[_ H]%andb_true_iff|[_ H]%andb_true_iff];
      apply N.leb_le in H; lia. }
  rewrite (utf8_units_ascii h1 Hascii) in Heq.
  assert (Hlen : length h1 = 0) by (simpl in Heq; lia).
  subst h1. rewrite (proj2 (sha256Hex_lower_hex digest _)) in Hlen.
  destruct (digest (TextEncoder_encode (chain_input [] d1 e1))) eqn:E;
    [exact (Hne _ E) | simpl in Hlen; lia].
Qed.

(** X5. Two calls of [appendHistory] on a complaint without history, the
    second made before the digest of the first has been awaited, read
    the same (empty) predecessor hash. With a digest that has no
    collisions and never returns the empty byte string, the history they
    leave does not verify. *)
Theorem overlapping_appends_invalid (f : Fields) (hist0 : option (list HistoryEntry))
    (now1 now2 : DateTime) (e1 e2 : jsstr) :
  (forall x y, digest x = digest y -> x = y) ->
  (forall x, digest x <> []) ->
  hist0 = None \/ hist0 = Some [] ->
  verifyHistoryChain digest
    (appendHistory_push
       (appendHistory_push (mkComplaint f hist0)
          (appendHistory_entry digest now1 (mkComplaint f hist0) e1))
       (appendHistory_entry digest now2 (mkComplaint f hist0) e2)) = false.
Proof.
  intros Hinj Hne Hhist.
  destruct Hhist as [-> | ->];
    exact (same_predecessor_invalid _ e1 _ e2 Hinj Hne).
Qed.

End AuditChainLimits.

Lemma marked_digest_inj (x y : list Byte.byte) : marked_digest x = marked_digest y -> x = y.
Proof. intros [= H]. exact H. Qed.

Lemma marked_digest_not_nil (x : list Byte.byte) : marked_digest x <> [].
Proof. discriminate. Qed.

Lemma truncated_history_verifies_witness :
  verifyHistoryChain plain_digest
    (mkComplaint tt (Some (take 1 sample_entries ++ drop 1 sample_entries))) = true
  /\ length (drop 1 sample_entries) = 1
  /\ verifyHistoryChain plain_digest (mkComplaint tt (Some (take 1 sample_entries))) = true.
Proof.
  assert (H : verifyHistoryChain plain_digest
                (mkComplaint tt (Some (take 1 sample_entries ++ drop 1 sample_entries)))
              = true) by (vm_compute; reflexivity).
  split; [exact H|]. split; [reflexivity|].
  exact (truncated_history_verifies plain_digest unit tt _ _ H).
Defined.

Lemma appendHistory_keeps_invalid_witness :
  let tampered := mkComplaint tt (Some (drop 1 sample_entries)) in
  verifyHistoryChain plain_digest tampered = false
  /\ verifyHistoryChain plain_digest
       (appendHistory plain_digest sample_time tampered (str "Status updated: Closed"))
     = false.
Proof.
  intros tampered.
  assert (H : verifyHistoryChain plain_digest tampered = false)
    by (vm_compute; reflexivity).
  split; [exact H|].
  exact (appendHistory_keeps_invalid plain_digest unit sample_time tampered _ H).
Defined.

Lemma hash_tamper_detected_witness :
  exists h1 h2,
    sample_entries = [] ++ h1 :: [h2]
    /\ verifyHistoryChain plain_digest (mkComplaint tt (Some ([] ++ h1 :: [h2]))) = true
    /\ Some (str "00") <> hash h1
    /\ verifyHistoryChain plain_digest
         (mkComplaint tt
            (Some ([] ++ mkEntry (date h1) (event h1) (Some (str "00")) :: [h2])))
       = false.
Proof.
  destruct sample_entries as [|h1 [|h2 [|h3 rest]]] eqn:E;
    try (vm_compute in E; discriminate E).
  exists h1, h2.
  assert (Hv : verifyHistoryChain plain_digest (mkComplaint tt (Some ([] ++ h1 :: [h2])))
               = true).
  { simpl. rewrite <- E. vm_compute. reflexivity. }
  assert (Hne : Some (str "00") <> hash h1).
  { vm_compute in E. injection E as <- _. vm_compute. discriminate. }
  split; [reflexivity|]. split; [exact Hv|]. split; [exact Hne|].
  exact (hash_tamper_detected plain_digest unit tt [] [h2] h1 (Some (str "00")) Hv Hne).
Defined.

Lemma backfill_idempotent_witness :
  verifyHistoryChain plain_digest sample_complaint = true
  /\ backfill plain_digest sample_complaint = sample_complaint.
Proof.
  assert (H : verifyHistoryChain plain_digest sample_complaint = true)
    by (vm_compute; reflexivity).
  split; [exact H|].
  exact (proj1 (backfill_idempotent plain_digest unit sample_complaint) H).
Defined.

Lemma overlapping_appends_invalid_witness :
  verifyHistoryChain marked_digest
    (appendHistory_push
       (appendHistory_push (mkComplaint tt None)
          (appendHistory_entry marked_digest sample_time (mkComplaint tt None)
             (str "Escalated via Action Required")))
       (appendHistory_entry marked_digest sample_time (mkComplaint tt None)
          (str "PHSO case created: phso_001"))) = false.
Proof.
  exact (overlapping_appends_invalid marked_digest unit tt None sample_time sample_time
           (str "Escalated via Action Required") (str "PHSO case created: phso_001")
           marked_digest_inj marked_digest_not_nil (or_introl eq_refl)).
Defined.

(* ===================================================================== *)
(** * What the redaction writes *)
(* ===================================================================== *)

Import Json.

Lemma rootKeys_NoDup : NoDup rootKeys.
Proof. apply (bool_decide_unpack _). vm_compute. exact I. Qed.

Lemma concernKeys_NoDup : NoDup concernKeys.
Proof. apply (bool_decide_unpack _). vm_compute. exact I. Qed.

(** The keys that pass the filter are those whose flag is not [false],
    in their order. *)
Lemma not_switched_off_spec (flags : value) (keys keys' : list jsstr) :
  not_switched_off flags keys = Ok keys' ->
  (NoDup keys -> NoDup keys')
  /\ (forall k, In k keys ->
        exists f, get_prop flags k = Ok f /\ (In k keys' <-> is_false f = false)).
Proof.
  revert keys'. induction keys as [|k0 keys IH]; intros keys' H; simpl in H.
  - injection H as <-. split; [auto|]. intros k [].
  - apply bind_Ok in H as (f0 & Hf0 & H). apply bind_Ok in H as (rest & Hrest & H).
    injection H as <-. destruct (IH _ Hrest) as (IHnd & IHin).
    assert (Hsub : forall k, In k rest -> In k keys)
      by (intros k; apply (not_switched_off_incl _ _ _ Hrest)).
    split.
    + intros Hnd. apply NoDup_cons in Hnd as (Hk0 & Hnd).
      destruct (is_false f0); [apply IHnd, Hnd|].
      apply NoDup_cons. split; [|apply IHnd, Hnd].
      intros Hin%list_elem_of_In. apply Hk0, list_elem_of_In, Hsub, Hin.
    + assert (Hrest_iff : forall k f, In k rest -> get_prop flags k = Ok f ->
                            is_false f = false).
      { intros k f Hin Hf. destruct (IHin k (Hsub _ Hin)) as (f' & Hf' & Hiff).
        assert (f' = f) as -> by congruence. apply Hiff, Hin. }
      intros k [<-|Hin].
      * exists f0. split; [exact Hf0|].
        destruct (is_false f0) eqn:E.
        -- split; [|discriminate]. intros Hin.
           rewrite <- E. exact (Hrest_iff _ _ Hin Hf0).
        -- split; [reflexivity|]. intros _. left. reflexivity.
      * destruct (IHin k Hin) as (f & Hf & Hiff). exists f. split; [exact Hf|].
        rewrite <- Hiff. destruct (is_false f0) eqn:E; [reflexivity|].
        split; [|intros H; right; exact H].
        intros [<-|H]; [|exact H].
        apply Hiff. assert (f = f0) as -> by congruence. exact E.
Qed.

(** What [redactFields] leaves in each of the properties it is given:
    the mask of the text of a truthy value, and a falsy or absent value
    as it was. *)
Lemma redactFields_written (keys : list jsstr) :
  forall (ps ps' : properties),
    NoDup keys ->
    redactFields (VObj ps) keys = Ok (VObj ps') ->
    forall k, In k keys ->
      match own_get k ps with
      | Some x =>
          if truthy x
          then exists s, ToString x = Ok s /\ own_get k ps' = Some (VStr (maskText s))
          else own_get k ps' = Some x
      | None => own_get k ps' = None
      end.
Proof.
  induction keys as [|k0 keys IH]; intros ps ps' Hnd H k Hin; [destruct Hin|].
  apply NoDup_cons in Hnd as (Hk0 & Hnd).
  simpl in H. apply bind_Ok in H as (obj1 & H1 & H).
  destruct (own_get k0 ps) as [x0|] eqn:E0; cbn [default from_option] in H1;
    unfold id in H1.
  - destruct (truthy x0) eqn:Et.
    + apply bind_Ok in H1 as (m & Hm & H1). injection H1 as <-.
      unfold maskText_any in Hm. rewrite Et in Hm.
      apply fmap_Ok in Hm as (s & Hs & ->).
      destruct (bool_decide (k = k0)) eqn:Ek.
      * apply bool_decide_eq_true_1 in Ek. subst k. rewrite E0, Et.
        exists s. split; [exact Hs|].
        destruct (redactFields_object _ _ _ H) as (ps2 & [= <-] & _ & Hframe).
        rewrite Hframe by (intros Hin'; apply Hk0, list_elem_of_In, Hin').
        apply own_get_set_eq.
      * apply bool_decide_eq_false_1 in Ek.
        destruct Hin as [->|Hin]; [destruct Ek; reflexivity|].
        specialize (IH _ _ Hnd H k Hin).
        rewrite own_get_set_ne in IH by (intros ->; apply Ek; reflexivity).
        exact IH.
    + injection H1 as <-.
      destruct Hin as [<-|Hin].
      * rewrite E0, Et.
        destruct (redactFields_object _ _ _ H) as (ps2 & [= <-] & _ & Hframe).
        rewrite Hframe by (intros Hin'; apply Hk0, list_elem_of_In, Hin').
        exact E0.
      * exact (IH _ _ Hnd H k Hin).
  - simpl in H1. injection H1 as <-.
    destruct Hin as [<-|Hin].
    + rewrite E0.
      destruct (redactFields_object _ _ _ H) as (ps2 & [= <-] & _ & Hframe).
      rewrite Hframe by (intros Hin'; apply Hk0, list_elem_of_In, Hin').
      exact E0.
    + exact (IH _ _ Hnd H k Hin).
Qed.

Lemma own_store_elements (ps : properties) (k k' : jsstr) (elems : list value) :
  k <> k' -> own (store_elements (VObj ps) k' elems) k = own_get k ps.
Proof.
  intros Hne. unfold store_elements.
  destruct (own_get k' ps) as [[| | | | |cs|]|]; try reflexivity.
  simpl. apply own_get_set_ne. intros ->. apply Hne. reflexivity.
Qed.

(** X6. The root fields. In what [redactComplaintDeep] returns for a
    complaint that is an object, each of the nine root fields that has a
    truthy value in the copy, and whose flag in the overrides is not
    [false], holds [maskText] of the text of that value; a field with a
    falsy value or switched off by its flag holds the value of the
    copy, and a field the copy does not have stays absent. *)
Theorem root_fields_masked (cps : properties) (r : value) (k : jsstr) :
  redactComplaintDeep (VObj cps) = Ok r ->
  In k rootKeys ->
  exists f,
    get_prop (or_object (field (VObj cps) "redactOverrides")) k = Ok f
    /\ match own (json_copy (VObj cps)) k with
       | Some x =>
           if truthy x && negb (is_false f)
           then exists s, ToString x = Ok s /\ own r k = Some (VStr (maskText s))
           else own r k = Some x
       | None => own r k = None
       end.
Proof.
  unfold redactComplaintDeep. intros H Hk.
  destruct (json_copy_object cps) as (ps0 & Hcopy).
  cbn [json_clone mbind outcome_bind] in H. rewrite Hcopy in *.
  rewrite get_prop_object in H. cbn [mbind outcome_bind] in H.
  apply bind_Ok in H as (keys & Hkeys & H). apply bind_Ok in H as (red & Hred & H).
  destruct (not_switched_off_spec _ _ _ Hkeys) as (Hnd & Hin).
  specialize (Hnd rootKeys_NoDup). destruct (Hin k Hk) as (f & Hf & Hiff).
  exists f. split; [exact Hf|].
  destruct (redactFields_object _ _ _ Hred) as (ps1 & -> & _ & Hframe).
  apply bind_Ok in H as (cs & _ & H). apply bind_Ok in H as (cl & _ & H).
  apply bind_Ok in H as (concerns & _ & H). injection H as <-.
  assert (Hne : k <> str "concerns").
  { intros ->. simpl in Hk. repeat (destruct Hk as [Hk|Hk]; [discriminate Hk|]). exact Hk. }
  pose proof (own_store_elements ps1 k (str "concerns") concerns Hne) as Hown.
  unfold store_elements in Hown. rewrite !Hown. cbn [own].
  destruct (is_false f) eqn:Ef.
  - assert (Hout : ~ In k keys) by (intros Hin'; apply Hiff in Hin'; discriminate).
    rewrite (Hframe k Hout).
    destruct (own_get k ps0); [rewrite andb_false_r|]; reflexivity.
  - assert (Hin' : In k keys) by (apply Hiff; reflexivity).
    pose proof (redactFields_written _ _ _ Hnd Hred k Hin') as Hw.
    destruct (own_get k ps0); [rewrite andb_true_r|]; exact Hw.
Qed.

Lemma root_fields_masked_witness :
  redactComplaintDeep sample_record = Ok (redacted sample_record)
  /\ In (str "title") rootKeys
  /\ own (redacted sample_record) (str "title")
     = Some (text "No reply from [redacted-email]").
Proof.
  assert (H : redactComplaintDeep sample_record = Ok (redacted sample_record))
    by (vm_compute; reflexivity).
  assert (Hk : In (str "title") rootKeys) by (left; reflexivity).
  split; [exact H|]. split; [exact Hk|].
  destruct (root_fields_masked (props sample_fields) _ _ H Hk) as (f & Hf & Hm).
  vm_compute in Hf. injection Hf as <-.
  vm_compute in Hm. destruct Hm as (s & [= <-] & Hm). exact Hm.
Defined.

Lemma or_object_get_prop (v : value) (k : jsstr) :
  exists f, get_prop (or_object v) k = Ok f.
Proof.
  unfold or_object. destruct v as [| |[|]|r|s|l|ps]; simpl; eauto.
  - destruct (negb _ && negb _); simpl; eauto.
  - destruct (negb _); simpl; eauto.
    destruct (bool_decide _); eauto. destruct (_ ≫= _); eauto.
  - destruct (bool_decide _); eauto.
Qed.

Lemma mask_unless_spec (cov : value) (flag : string) (x x' : value) :
  mask_unless cov flag x = Ok x' ->
  exists f, get_prop cov (str flag) = Ok f /\ written_for f x x'.
Proof.
  unfold mask_unless, written_for. intros H.
  apply bind_Ok in H as (f & Hf & H). exists f. split; [exact Hf|].
  destruct (is_false f).
  - injection H as <-. reflexivity.
  - apply fmap_Ok in H as (m & Hm & ->). eauto.
Qed.

Lemma concern_flags_object (overrides c cov : value) :
  concern_flags overrides c = Ok cov -> exists v, cov = or_object v.
Proof.
  unfold concern_flags. intros H.
  apply bind_Ok in H as (id & _ & H). apply bind_Ok in H as (oc & _ & H).
  apply bind_Ok in H as (key & _ & H). apply bind_Ok in H as (cv & _ & H).
  injection H as <-. eauto.
Qed.

(** What [redact_concern] leaves in the four text fields of a concern
    and in its evidence. *)
Lemma redact_concern_written (overrides : value) (ps : properties) (c' : value) :
  redact_concern overrides (VObj ps) = Ok c' ->
  exists cov evidence,
    concern_flags overrides (VObj ps) = Ok cov
    /\ (forall k, In k concernKeys ->
          exists f, get_prop cov k = Ok f
            /\ match own_get k ps with
               | Some x =>
                   if truthy x && negb (is_false f)
                   then exists s, ToString x = Ok s
                                  /\ own c' k = Some (VStr (maskText s))
                   else own c' k = Some x
               | None => own c' k = None
               end)
    /\ own c' (str "evidence") = Some (VArr evidence)
    /\ Forall2 (fun e e' => exists m, maskText_any e = Ok m /\ e' = VStr m)
         (elements (field (VObj ps) "evidence")) evidence.
Proof.
  intros H0. pose proof H0 as H. unfold redact_concern in H.
  apply bind_Ok in H as (id & Hid & H). apply bind_Ok in H as (oc & Hoc & H).
  apply bind_Ok in H as (key & Hkey & H). apply bind_Ok in H as (cv & Hcv & H).
  apply bind_Ok in H as (keys & Hkeys & H). apply bind_Ok in H as (c1 & Hc1 & H).
  apply bind_Ok in H as (ev & Hev & H). apply bind_Ok in H as (evs & Hevs & H).
  apply bind_Ok in H as (evidence & Hevidence & H).
  apply bind_Ok in H as (c2 & Hc2 & H).
  apply bind_Ok in H as (ns & Hns & H). apply bind_Ok in H as (nl & Hnl & H).
  apply bind_Ok in H as (notes & Hnotes & H).
  apply bind_Ok in H as (c3 & Hc3 & H).
  apply bind_Ok in H as (rs & Hrs & H). apply bind_Ok in H as (rl & Hrl & H).
  apply bind_Ok in H as (responses & Hresponses & H).
  apply bind_Ok in H as (c4 & Hc4 & H).
  apply bind_Ok in H as (att & Hatt & H).
  apply set_prop_Ok in Hc2 as (ps1 & -> & ->).
  apply set_prop_Ok in Hc3 as (ps2 & [= <-] & ->).
  apply set_prop_Ok in Hc4 as (ps3 & [= <-] & ->).
  destruct (not_switched_off_spec _ _ _ Hkeys) as (Hnd & Hin).
  specialize (Hnd concernKeys_NoDup).
  destruct (redactFields_object _ _ _ Hc1) as (ps1' & [= <-] & _ & Hframe1).
  set (ps4 := own_set (str "responses") (VArr responses)
                (own_set (str "notes") (VArr notes)
                   (own_set (str "evidence") (VArr evidence) ps1))) in *.
  assert (Hc' : exists ps', c' = VObj ps'
                  /\ (forall k, In k concernKeys -> own_get k ps' = own_get k ps1)
                  /\ own_get (str "evidence") ps' = Some (VArr evidence)).
  { assert (Hk4 : forall k, In k concernKeys -> own_get k ps4 = own_get k ps1).
    { intros k Hk. unfold ps4. rewrite !own_get_set_ne; [reflexivity|..];
        intros ->; simpl in Hk;
        repeat (destruct Hk as [Hk|Hk]; [discriminate Hk|]); exact Hk. }
    assert (He4 : own_get (str "evidence") ps4 = Some (VArr evidence)).
    { unfold ps4. rewrite !own_get_set_ne by discriminate. apply own_get_set_eq. }
    destruct att; try (injection H as <-; exists ps4; auto).
    apply bind_Ok in H as (kept & _ & H). injection H as <-.
    exists (own_set (str "attachments") (VArr kept) ps4). split; [reflexivity|]. split.
    - intros k Hk. rewrite own_get_set_ne; [apply Hk4, Hk|].
      intros ->. simpl in Hk.
      repeat (destruct Hk as [Hk|Hk]; [discriminate Hk|]). exact Hk.
    - rewrite own_get_set_ne by discriminate. exact He4. }
  destruct Hc' as (ps' & -> & Hk' & He').
  exists (or_object cv), evidence. split.
  { unfold concern_flags. rewrite Hid. simpl. rewrite Hoc. simpl.
    rewrite Hkey. simpl. rewrite Hcv. reflexivity. }
  split.
  { intros k Hk. destruct (Hin k Hk) as (f & Hf & Hiff). exists f.
    split; [exact Hf|]. cbn [own]. rewrite (Hk' k Hk).
    destruct (is_false f) eqn:Ef.
    - assert (Hout : ~ In k keys) by (intros Hin'; apply Hiff in Hin'; discriminate).
      rewrite (Hframe1 k Hout).
      destruct (own_get k ps); [rewrite andb_false_r|]; reflexivity.
    - assert (Hin' : In k keys) by (apply Hiff; reflexivity).
      pose proof (redactFields_written _ _ _ Hnd Hc1 k Hin') as Hw.
      destruct (own_get k ps); [rewrite andb_true_r|]; exact Hw. }
  split; [exact He'|].
  rewrite get_prop_object in Hev. injection Hev as <-.
  rewrite Hframe1 in Hevs.
  2:{ intros Hin'. apply (not_switched_off_incl _ _ _ Hkeys) in Hin'. simpl in Hin'.
      repeat (destruct Hin' as [Hin'|Hin']; [discriminate Hin'|]). exact Hin'. }
  apply elements_or_empty_Ok in Hevs. subst evs.
  apply map_outcome_Ok in Hevidence. unfold field. cbn [default].
  eapply Forall2_impl; [exact Hevidence|].
  intros e e' He. apply fmap_Ok in He as (m & Hm & ->). eauto.
Qed.

Lemma mask_urls_spec (cov : value) (flag : string) (x urls : value) :
  mask_urls cov flag x = Ok urls ->
  exists us urls', get_prop x (str "urls") = Ok us /\ urls = VArr urls'
                   /\ Forall2 (written_under cov flag) (elements us) urls'.
Proof.
  unfold mask_urls. intros H.
  apply bind_Ok in H as (us & Hus & H). apply bind_Ok in H as (l & Hl & H).
  apply fmap_Ok in H as (urls' & Hm & ->).
  apply elements_or_empty_Ok in Hl. subst l. apply map_outcome_Ok in Hm.
  exists us, urls'. split; [exact Hus|]. split; [reflexivity|].
  eapply Forall2_impl; [exact Hm|]. intros u u' Hu. apply mask_unless_spec, Hu.
Qed.

Lemma redact_note_written (cov n n' : value) :
  redact_note cov n = Ok n' ->
  text_written cov "notesText" "text" n n' /\ urls_written cov "notesUrls" n n'.
Proof.
  unfold redact_note. intros H.
  apply bind_Ok in H as (t & Ht & H). apply bind_Ok in H as (t' & Ht' & H).
  apply bind_Ok in H as (urls & Hurls & H). injection H as <-.
  apply mask_unless_spec in Ht'.
  apply mask_urls_spec in Hurls as (us & urls' & Hus & -> & Hall).
  split.
  - exists t, t'. split; [exact Ht|]. split; [|exact Ht']. simpl.
    rewrite own_get_set_ne by discriminate. apply own_get_set_eq.
  - exists us, urls'. split; [exact Hus|]. split; [|exact Hall]. simpl.
    apply own_get_set_eq.
Qed.

Lemma redact_response_written (cov r r' : value) :
  redact_response cov r = Ok r' ->
  text_written cov "responsesDecision" "decisionMaker" r r'
  /\ text_written cov "responsesText" "text" r r'
  /\ urls_written cov "responsesUrls" r r'.
Proof.
  unfold redact_response. intros H.
  apply bind_Ok in H as (d & Hd & H). apply bind_Ok in H as (d' & Hd' & H).
  apply bind_Ok in H as (t & Ht & H). apply bind_Ok in H as (t' & Ht' & H).
  apply bind_Ok in H as (urls & Hurls & H). injection H as <-.
  apply mask_unless_spec in Ht', Hd'.
  apply mask_urls_spec in Hurls as (us & urls' & Hus & -> & Hall).
  split; [|split].
  - exists d, d'. split; [exact Hd|]. split; [|exact Hd']. simpl.
    rewrite !own_get_set_ne by discriminate. apply own_get_set_eq.
  - exists t, t'. split; [exact Ht|]. split; [|exact Ht']. simpl.
    rewrite own_get_set_ne by discriminate. apply own_get_set_eq.
  - exists us, urls'. split; [exact Hus|]. split; [|exact Hall]. simpl.
    apply own_get_set_eq.
Qed.

(** The concerns of the result are the concerns of the copy, each
    passed through [redact_concern] under the overrides. *)
Lemma concerns_redacted (cps : properties) (r : value) :
  redactComplaintDeep (VObj cps) = Ok r ->
  Forall2 (fun c c' =>
             redact_concern (or_object (field (VObj cps) "redactOverrides")) c = Ok c')
    (concerns_of (json_copy (VObj cps))) (concerns_of r).
Proof.
  intros H. apply redactComplaintDeep_spec in H
    as (ps0 & ps' & Hcopy & -> & _ & _ & Hall).
  rewrite Hcopy. exact Hall.
Qed.

(** X7. The text fields of a concern. In every concern of the result, each
    of [summary], [details], [decisionMaker] and [response] that is
    truthy in the copy and not switched off by a [false] flag in the
    overrides of that concern holds [maskText] of its text; otherwise it
    is as in the copy. *)
Theorem concern_fields_masked (cps : properties) (r : value) :
  redactComplaintDeep (VObj cps) = Ok r ->
  Forall2
    (fun c c' =>
       exists cov,
         concern_flags (or_object (field (VObj cps) "redactOverrides")) c = Ok cov
         /\ forall k, In k concernKeys ->
              exists f, get_prop cov k = Ok f
                /\ match own c k with
                   | Some x =>
                       if truthy x && negb (is_false f)
                       then exists s, ToString x = Ok s
                                      /\ own c' k = Some (VStr (maskText s))
                       else own c' k = Some x
                   | None => own c' k = None
                   end)
    (concerns_of (json_copy (VObj cps))) (concerns_of r).
Proof.
  intros H. eapply Forall2_impl; [exact (concerns_redacted _ _ H)|].
  intros c c' Hc. cbv beta in Hc.
  destruct (redact_concern_spec _ _ _ Hc) as (_ & ps & _ & _ & _ & _ & -> & _).
  destruct (redact_concern_written _ _ _ Hc) as (cov & evidence & Hcov & Hkeys & _).
  exists cov. split; [exact Hcov | exact Hkeys].
Qed.

(** X8. The evidence of a concern. In every concern of the result,
    [evidence] is a list with one string for each element of the
    evidence of the copy, in order: [maskText] of that element. No flag
    of the overrides switches this off. *)
Theorem evidence_masked (cps : properties) (r : value) :
  redactComplaintDeep (VObj cps) = Ok r ->
  Forall2
    (fun c c' =>
       exists evidence,
         own c' (str "evidence") = Some (VArr evidence)
         /\ Forall2 (fun e e' => exists m, maskText_any e = Ok m /\ e' = VStr m)
              (elements (field c "evidence")) evidence)
    (concerns_of (json_copy (VObj cps))) (concerns_of r).
Proof.
  intros H. eapply Forall2_impl; [exact (concerns_redacted _ _ H)|].
  intros c c' Hc. cbv beta in Hc.
  destruct (redact_concern_spec _ _ _ Hc) as (_ & ps & _ & _ & _ & _ & -> & _).
  destruct (redact_concern_written _ _ _ Hc) as (cov & evidence & _ & _ & He & Hall).
  exists evidence. split; [exact He | exact Hall].
Qed.

(** X9. The notes of a concern. In every concern of the result, [notes] is
    a list with one object for each note of the copy, whose [text] is
    [maskText] of the note's text unless the overrides of the concern
    have [notesText === false], and whose [urls] holds [maskText] of each
    address of the note unless they have [notesUrls === false]. *)
Theorem notes_masked (cps : properties) (r : value) :
  redactComplaintDeep (VObj cps) = Ok r ->
  Forall2
    (fun c c' =>
       exists cov notes,
         concern_flags (or_object (field (VObj cps) "redactOverrides")) c = Ok cov
         /\ own c' (str "notes") = Some (VArr notes)
         /\ Forall2 (fun n n' => text_written cov "notesText" "text" n n'
                                 /\ urls_written cov "notesUrls" n n')
              (elements (field c "notes")) notes)
    (concerns_of (json_copy (VObj cps))) (concerns_of r).
Proof.
  intros H. eapply Forall2_impl; [exact (concerns_redacted _ _ H)|].
  intros c c' Hc. cbv beta in Hc.
  destruct (redact_concern_spec _ _ _ Hc)
    as (cov & ps & ps' & evidence & notes & responses & -> & -> & Hcov & _ & _
        & Hn & Hnotes & _).
  exists cov, notes. split; [exact Hcov|]. split; [exact Hn|].
  eapply Forall2_impl; [exact Hnotes|]. intros n n'. apply redact_note_written.
Qed.

(** X10. The responses of a concern: the same for [decisionMaker], [text]
    and [urls] of each response, under the flags [responsesDecision],
    [responsesText] and [responsesUrls]. *)
Theorem responses_masked (cps : properties) (r : value) :
  redactComplaintDeep (VObj cps) = Ok r ->
  Forall2
    (fun c c' =>
       exists cov responses,
         concern_flags (or_object (field (VObj cps) "redactOverrides")) c = Ok cov
         /\ own c' (str "responses") = Some (VArr responses)
         /\ Forall2 (fun x x' =>
                       text_written cov "responsesDecision" "decisionMaker" x x'
                       /\ text_written cov "responsesText" "text" x x'
                       /\ urls_written cov "responsesUrls" x x')
              (elements (field c "responses")) responses)
    (concerns_of (json_copy (VObj cps))) (concerns_of r).
Proof.
  intros H. eapply Forall2_impl; [exact (concerns_redacted _ _ H)|].
  intros c c' Hc. cbv beta in Hc.
  destruct (redact_concern_spec _ _ _ Hc)
    as (cov & ps & ps' & evidence & notes & responses & -> & -> & Hcov & _ & _
        & _ & _ & Hr & Hresponses & _).
  exists cov, responses. split; [exact Hcov|]. split; [exact Hr|].
  eapply Forall2_impl; [exact Hresponses|]. intros x x'. apply redact_response_written.
Qed.

Lemma sample_record_redacts :
  redactComplaintDeep sample_record = Ok (redacted sample_record).
Proof. vm_compute. reflexivity. Qed.

Lemma concern_fields_masked_witness :
  redactComplaintDeep sample_record = Ok (redacted sample_record)
  /\ Forall2
       (fun c c' =>
          exists cov,
            concern_flags (or_object (field sample_record "redactOverrides")) c = Ok cov
            /\ forall k, In k concernKeys ->
                 exists f, get_prop cov k = Ok f
                   /\ match own c k with
                      | Some x =>
                          if truthy x && negb (is_false f)
                          then exists s, ToString x = Ok s
                                         /\ own c' k = Some (VStr (maskText s))
                          else own c' k = Some x
                      | None => own c' k = None
                      end)
       (concerns_of (json_copy sample_record)) (concerns_of (redacted sample_record)).
Proof.
  split; [exact sample_record_redacts|].
  exact (concern_fields_masked (props sample_fields) _ sample_record_redacts).
Defined.

Lemma evidence_masked_witness :
  redactComplaintDeep sample_record = Ok (redacted sample_record)
  /\ Forall2
       (fun c c' =>
          exists evidence,
            own c' (str "evidence") = Some (VArr evidence)
            /\ Forall2 (fun e e' => exists m, maskText_any e = Ok m /\ e' = VStr m)
                 (elements (field c "evidence")) evidence)
       (concerns_of (json_copy sample_record)) (concerns_of (redacted sample_record)).
Proof.
  split; [exact sample_record_redacts|].
  exact (evidence_masked (props sample_fields) _ sample_record_redacts).
Defined.

Lemma notes_masked_witness :
  redactComplaintDeep sample_record = Ok (redacted sample_record)
  /\ Forall2
       (fun c c' =>
          exists cov notes,
            concern_flags (or_object (field sample_record "redactOverrides")) c = Ok cov
            /\ own c' (str "notes") = Some (VArr notes)
            /\ Forall2 (fun n n' => text_written cov "notesText" "text" n n'
                                    /\ urls_written cov "notesUrls" n n')
                 (elements (field c "notes")) notes)
       (concerns_of (json_copy sample_record)) (concerns_of (redacted sample_record)).
Proof.
  split; [exact sample_record_redacts|].
  exact (notes_masked (props sample_fields) _ sample_record_redacts).
Defined.

Lemma responses_masked_witness :
  redactComplaintDeep sample_record = Ok (redacted sample_record)
  /\ Forall2
       (fun c c' =>
          exists cov responses,
            concern_flags (or_object (field sample_record "redactOverrides")) c = Ok cov
            /\ own c' (str "responses") = Some (VArr responses)
            /\ Forall2 (fun x x' =>
                          text_written cov "responsesDecision" "decisionMaker" x x'
                          /\ text_written cov "responsesText" "text" x x'
                          /\ urls_written cov "responsesUrls" x x')
                 (elements (field c "responses")) responses)
       (concerns_of (json_copy sample_record)) (concerns_of (redacted sample_record)).
Proof.
  split; [exact sample_record_redacts|].
  exact (responses_masked (props sample_fields) _ sample_record_redacts).
Defined.

(** On the sample: the summary, the evidence, the text of the note and
    the decision maker of the response, before and after. *)
Example sample_concern_redacted :
  exists c c' n' x',
    concerns_of (json_copy sample_record) = [c]
    /\ concerns_of (redacted sample_record) = [c']
    /\ field c "summary" = text "Call logged by staff 12345"
    /\ field c' "summary" = text "Call logged by [redacted-id]"
    /\ field c "evidence" = VArr [text "https://example.org/case/AB1234"]
    /\ field c' "evidence" = VArr [text "https://example.org/case/[redacted-id]"]
    /\ elements (field c' "notes") = [n']
    /\ field n' "text" = text "mail [redacted-email]"
    /\ elements (field c' "responses") = [x']
    /\ field x' "text" = text "Not upheld".
Proof. eexists _, _, _, _. vm_compute. repeat split. Qed.

(* ===================================================================== *)
(** * What maskText leaves alone *)
(* ===================================================================== *)

(** X11. [maskText] changes a text only if it holds a digit or an at sign:
    each of the four patterns needs one of them. *)
Theorem maskText_changes_need_digit_or_at (s : jsstr) :
  maskText s <> s ->
  Exists (fun ch => is_digit ch = true \/ is_at_sign ch = true) s.
Proof.
  intros Hne.
  destruct (decide (Exists (fun ch => is_digit ch = true \/ is_at_sign ch = true) s))
    as [Hex|Hno]; [exact Hex|].
  destruct Hne. apply not_Exists_Forall in Hno; [|intros ch; apply _].
  apply maskText_without_digit_and_at.
  - eapply Forall_impl; [exact Hno|]. intros ch Hch. unfold compose in Hch.
    destruct (is_digit ch) eqn:E; [|reflexivity]. destruct Hch. left. reflexivity.
  - eapply Forall_impl; [exact Hno|]. intros ch Hch. unfold compose in Hch.
    destruct (is_at_sign ch) eqn:E; [|reflexivity]. destruct Hch. right. reflexivity.
Qed.

Lemma maskText_changes_need_digit_or_at_witness :
  maskText (str "mail a@b.co") <> str "mail a@b.co"
  /\ Exists (fun ch => is_digit ch = true \/ is_at_sign ch = true) (str "mail a@b.co").
Proof.
  assert (H : maskText (str "mail a@b.co") <> str "mail a@b.co")
    by (vm_compute; discriminate).
  split; [exact H | exact (maskText_changes_need_digit_or_at _ H)].
Defined.

(* ===================================================================== *)
(** * The identifiers of the data layer *)
(* ===================================================================== *)

From Stdlib Require DecimalNat.

Import Json.

(** ** Splitting at the underscore *)

Lemma split_on_without (sep : N) (t : jsstr) :
  Forall (fun c => c <> sep) t -> split_on sep t = [t].
Proof.
  induction 1 as [|c t Hc _ IH]; [reflexivity|]. simpl.
  rewrite (proj2 (N.eqb_neq c sep) Hc), IH. reflexivity.
Qed.

Lemma split_on_app (sep : N) (w t : jsstr) :
  Forall (fun c => c <> sep) w ->
  split_on sep (w ++ sep :: t) = w :: split_on sep t.
Proof.
  induction 1 as [|c w Hc _ IH]; simpl.
  - rewrite N.eqb_refl. reflexivity.
  - rewrite (proj2 (N.eqb_neq c sep) Hc), IH. reflexivity.
Qed.

(** ** Decimal texts *)

Lemma str_String (a : ascii) (s : string) : str (String a s) = N_of_ascii a :: str s.
Proof. reflexivity. Qed.

Lemma string_of_uint_digits (d : Decimal.uint) :
  Forall (fun c => is_digit c = true) (str (NilEmpty.string_of_uint d)).
Proof.
  induction d; cbn [NilEmpty.string_of_uint]; [constructor|..];
    rewrite str_String; (constructor; [reflexivity | assumption]).
Qed.

Lemma parse_digits_uint (d : Decimal.uint) :
  forall (acc : N) (rest : jsstr),
    parse_digits acc (str (NilEmpty.string_of_uint d) ++ rest)
    = parse_digits (N.of_nat (Nat.of_uint_acc d (N.to_nat acc))) rest.
Proof.
  induction d as [|d IH|d IH|d IH|d IH|d IH|d IH|d IH|d IH|d IH|d IH];
    intros acc rest; cbn [NilEmpty.string_of_uint Nat.of_uint_acc].
  1: { simpl. rewrite N2Nat.id. reflexivity. }
  all: rewrite str_String; cbn [app parse_digits];
    match goal with
    | |- context [is_digit ?c] => change (is_digit c) with true
    end; cbv iota; rewrite IH, Nat.tail_mul_spec; f_equal; f_equal; f_equal;
    simpl (N_of_ascii _); lia.
Qed.

Lemma to_uint_not_Nil (n : nat) : Nat.to_uint n <> Decimal.Nil.
Proof.
  rewrite <- (DecimalNat.Unsigned.of_to n) at 1.
  rewrite DecimalNat.Unsigned.to_of. unfold Decimal.unorm.
  destruct (Decimal.nzhead _); discriminate.
Qed.

Lemma dec_string_eq (n : nat) : dec_string n = str (NilEmpty.string_of_uint (Nat.to_uint n)).
Proof.
  unfold dec_string, NilZero.string_of_uint.
  pose proof (to_uint_not_Nil n). destruct (Nat.to_uint n); congruence.
Qed.

(** The decimal text of a number is a non-empty run of digits, and
    reading it gives the number back. *)
Lemma dec_string_digits (n : nat) :
  Forall (fun c => is_digit c = true) (dec_string n) /\ dec_string n <> [].
Proof.
  rewrite dec_string_eq. split; [apply string_of_uint_digits|].
  pose proof (to_uint_not_Nil n). destruct (Nat.to_uint n); try congruence;
    cbn [NilEmpty.string_of_uint]; rewrite str_String; discriminate.
Qed.

Lemma parse_digits_dec_string (n : nat) (rest : jsstr) :
  parse_digits 0%N (dec_string n ++ rest) = parse_digits (N.of_nat n) rest.
Proof.
  rewrite dec_string_eq, parse_digits_uint. change (N.to_nat 0%N) with O.
  change (Nat.of_uint_acc (Nat.to_uint n) 0) with (Nat.of_uint (Nat.to_uint n)).
  rewrite DecimalNat.Unsigned.of_to. reflexivity.
Qed.

Lemma parse_digits_zeros (k : nat) (s : jsstr) :
  parse_digits 0%N (replicate k 48%N ++ s) = parse_digits 0%N s.
Proof. induction k as [|k IH]; [reflexivity | exact IH]. Qed.

Lemma skip_space_digit (c : N) (s : jsstr) :
  is_digit c = true -> skip_space (c :: s) = c :: s.
Proof.
  intros Hc. cbn [skip_space].
  assert (E : existsb (N.eqb c) space = false).
  { apply not_true_is_false. intros Hex. apply existsb_exists in Hex as (x & Hin & Hx).
    apply N.eqb_eq in Hx. subst x. unfold is_digit in Hc.
    apply andb_true_iff in Hc as [H1 H2]. apply N.leb_le in H1, H2.
    unfold space in Hin. simpl in Hin.
    repeat (destruct Hin as [<-|Hin]; [lia|]). exact Hin. }
  rewrite E. reflexivity.
Qed.

(** A number below 2^53 is a double. *)
Lemma double_of_small (n : N) : (n < two53)%N -> double_of false n = Int (Z.of_N n).
Proof.
  intros H. unfold double_of, to_double. rewrite (proj2 (N.ltb_lt n two53) H). reflexivity.
Qed.

(** [parseInt] reads back what [String(n).padStart(3, "0")] writes. *)
Lemma parseInt_padded (n : nat) :
  (N.of_nat n < two53)%N ->
  parseInt (padStart 3 48%N (dec_string n)) = Int (Z.of_nat n).
Proof.
  intros Hn. destruct (dec_string_digits n) as [Hd Hne].
  assert (Hall : Forall (fun c => is_digit c = true) (padStart 3 48%N (dec_string n))).
  { unfold padStart. apply Forall_app. split; [|exact Hd].
    apply Forall_replicate. reflexivity. }
  assert (Hval : parse_digits 0%N (padStart 3 48%N (dec_string n)) = N.of_nat n).
  { unfold padStart. rewrite parse_digits_zeros.
    rewrite <- (app_nil_r (dec_string n)), parse_digits_dec_string. reflexivity. }
  destruct (padStart 3 48%N (dec_string n)) as [|c s] eqn:E.
  { unfold padStart in E. apply app_eq_nil in E as [_ E]. destruct (Hne E). }
  apply Forall_cons in Hall as [Hc _].
  unfold parseInt. rewrite (skip_space_digit c s Hc).
  assert (Hsign : c <> 45%N /\ c <> 43%N).
  { unfold is_digit in Hc. apply andb_true_iff in Hc as [H1 H2].
    apply N.leb_le in H1, H2. lia. }
  destruct Hsign as [H45 H43].
  rewrite (proj2 (N.eqb_neq _ _) H45), (proj2 (N.eqb_neq _ _) H43).
  cbn [orb].
  rewrite Hc, Hval, (double_of_small _ Hn), nat_N_Z. reflexivity.
Qed.

(** ** The largest number *)

Lemma max_id_number_NaN (items : list value) (m : number) :
  max_id_number NaN items = Ok m -> m = NaN.
Proof.
  revert m. induction items as [|c items IH]; intros m H; simpl in H.
  - congruence.
  - apply bind_Ok in H as (n & _ & H). exact (IH _ H).
Qed.

Lemma max_id_number_Infinity (items : list value) (m : number) :
  max_id_number (Infinity false) items = Ok m -> m = NaN \/ m = Infinity false.
Proof.
  revert m. induction items as [|c items IH]; intros m H; simpl in H.
  - right. congruence.
  - apply bind_Ok in H as (n & _ & H). destruct n as [|n|[|]]; simpl in H.
    + left. exact (max_id_number_NaN _ _ H).
    + exact (IH _ H).
    + exact (IH _ H).
    + exact (IH _ H).
Qed.

Lemma max_id_number_Int (items : list value) :
  forall (a m : Z),
    Forall (fun c => safe_id c = true) items ->
    max_id_number (Int a) items = Ok (Int m) ->
    (a <= m)%Z
    /\ Forall (fun c => exists n, id_number c = Ok (Int n) /\ (n <= m)%Z) items
    /\ (m = a \/ Exists (fun c => id_number c = Ok (Int m)) items).
Proof.
  induction items as [|c items IH]; intros a m Hsafe H; simpl in H.
  - injection H as <-. split; [lia|]. split; [constructor | left; reflexivity].
  - apply Forall_cons in Hsafe as [Hc Hsafe].
    apply bind_Ok in H as (n & Hn & H).
    unfold safe_id in Hc. rewrite Hn in Hc.
    destruct n as [|n|b]; simpl in H; [|clear Hc|discriminate Hc].
    { apply max_id_number_NaN in H. discriminate H. }
    apply (IH _ _ Hsafe) in H as (Hle & Hall & Hmax). split; [lia|]. split.
    + constructor; [exists n; split; [exact Hn | lia] | exact Hall].
    + destruct Hmax as [->|Hex]; [|right; right; exact Hex].
      destruct (Z.max_spec a n) as [[_ ->]|[_ ->]];
        [right; left; exact Hn | left; reflexivity].
Qed.

(** The largest number is safe when all are. *)
Lemma max_id_number_safe (items : list value) :
  forall (a m : Z),
    Forall (fun c => safe_id c = true) items ->
    (a < Z.of_N MAX_SAFE_INTEGER)%Z ->
    max_id_number (Int a) items = Ok (Int m) ->
    (m < Z.of_N MAX_SAFE_INTEGER)%Z.
Proof.
  intros a m Hsafe Ha H.
  destruct (max_id_number_Int items a m Hsafe H) as (_ & _ & [->|Hex]); [exact Ha|].
  apply Exists_exists in Hex as (c & Hin & Hc).
  rewrite Forall_forall in Hsafe. specialize (Hsafe c Hin).
  unfold safe_id in Hsafe. rewrite Hc in Hsafe. apply Z.ltb_lt. exact Hsafe.
Qed.

Lemma max_id_number_no_Infinity (items : list value) :
  forall (a : Z) (b : bool),
    Forall (fun c => safe_id c = true) items ->
    max_id_number (Int a) items <> Ok (Infinity b).
Proof.
  induction items as [|c items IH]; intros a b Hsafe H; simpl in H; [discriminate H|].
  apply Forall_cons in Hsafe as [Hc Hsafe].
  apply bind_Ok in H as (n & Hn & H).
  unfold safe_id in Hc. rewrite Hn in Hc.
  destruct n as [|n|b']; simpl in H; [|exact (IH _ _ Hsafe H)|discriminate Hc].
  apply max_id_number_NaN in H. discriminate H.
Qed.

Lemma max_id_number_poisoned (items : list value) :
  forall (a m : number),
    max_id_number a items = Ok m ->
    Exists (fun c => id_number c = Ok NaN) items -> m = NaN.
Proof.
  induction items as [|c items IH]; intros a m H Hex; [inversion Hex|].
  simpl in H. apply bind_Ok in H as (n & Hn & H).
  apply Exists_cons in Hex as [Hc|Hex]; [|exact (IH _ _ H Hex)].
  assert (n = NaN) as -> by congruence.
  destruct a as [|a|[|]]; simpl in H; exact (max_id_number_NaN _ _ H).
Qed.

Lemma max_id_number_app (l1 l2 : list value) (a : number) :
  max_id_number a (l1 ++ l2) = (m ← max_id_number a l1; max_id_number m l2).
Proof.
  revert a. induction l1 as [|c l1 IH]; intros a; [reflexivity|]. simpl.
  destruct (id_number c) as [n| |]; simpl; [apply IH | reflexivity..].
Qed.

(** ** The new identifier *)

(** One more than a safe number, and its text. *)
Lemma plus_one_safe (m : Z) :
  (0 <= m < Z.of_N MAX_SAFE_INTEGER)%Z ->
  plus_one (Int m) = Int (m + 1)
  /\ Number_toString (Int (m + 1)) = dec_string (Z.to_nat (m + 1)).
Proof.
  intros Hm. assert (Hlt : (Z.to_N (m + 1) < two53)%N).
  { unfold MAX_SAFE_INTEGER in Hm. unfold two53. lia. }
  split.
  - unfold plus_one. rewrite (proj2 (Z.leb_le 0 (m + 1)) ltac:(lia)).
    rewrite (double_of_small _ Hlt). f_equal. lia.
  - unfold Number_toString, integer_text.
    rewrite (proj2 (Z.leb_le 0 (m + 1)) ltac:(lia)).
    rewrite (proj2 (N.ltb_lt _ _) Hlt). f_equal. lia.
Qed.

(** The number [id_number] reads in an identifier made of a prefix that
    ends with its only underscore and of a padded decimal text. *)
Lemma id_number_made (w : jsstr) (n : nat) (c : value) :
  Forall (fun ch => ch <> 95%N) w ->
  (N.of_nat n < two53)%N ->
  get_prop c (str "id") = Ok (VStr (w ++ [95%N] ++ padStart 3 48%N (dec_string n))) ->
  id_number c = Ok (Int (Z.of_nat n)).
Proof.
  intros Hw Hn Hid. unfold id_number. rewrite Hid. cbn [mbind outcome_bind].
  set (padded := padStart 3 48%N (dec_string n)).
  assert (Hd : Forall (fun ch => ch <> 95%N) padded /\ padded <> []).
  { destruct (dec_string_digits n) as [Hd Hne]. split.
    - unfold padded, padStart. apply Forall_app. split.
      + apply Forall_replicate. discriminate.
      + eapply Forall_impl; [exact Hd|]. intros ch Hch ->. discriminate Hch.
    - unfold padded, padStart. intros E. apply app_eq_nil in E as [_ E].
      destruct (Hne E). }
  destruct Hd as [Hd Hne].
  assert (Ht : truthy (VStr (w ++ [95%N] ++ padded)) = true).
  { simpl. destruct w; reflexivity. }
  rewrite Ht. cbn [mbind outcome_bind app].
  rewrite (split_on_app 95 w padded Hw), (split_on_without 95 padded Hd).
  cbn [lookup list_lookup].
  destruct padded as [|ch piece] eqn:E; [destruct Hne; reflexivity|].
  rewrite <- E. f_equal. apply parseInt_padded, Hn.
Qed.

(** What the shared body returns on safe identifiers. *)
Lemma next_id_safe (prefix : string) (items : list value) (id : jsstr) :
  Forall (fun c => safe_id c = true) items ->
  next_id prefix items = Ok id ->
  id = str prefix ++ str "NaN"
  \/ exists m : Z,
       (0 <= m < Z.of_N MAX_SAFE_INTEGER)%Z
       /\ max_id_number (Int 0) items = Ok (Int m)
       /\ id = str prefix ++ padStart 3 48%N (dec_string (Z.to_nat (m + 1))).
Proof.
  intros Hsafe H. unfold next_id in H. apply bind_Ok in H as (max & Hmax & H).
  injection H as <-. destruct max as [|m|b].
  - left. reflexivity.
  - right. exists m.
    pose proof (max_id_number_Int _ _ _ Hsafe Hmax) as (Hle & _ & _).
    assert (H0 : (0 < Z.of_N MAX_SAFE_INTEGER)%Z) by reflexivity.
    pose proof (max_id_number_safe _ _ _ Hsafe H0 Hmax) as Hlt.
    destruct (plus_one_safe m (conj Hle Hlt)) as [H1 H2].
    split; [split; assumption|]. split; [exact Hmax|]. rewrite H1, H2. reflexivity.
  - destruct (max_id_number_no_Infinity _ _ _ Hsafe Hmax).
Qed.

Lemma next_id_fresh (prefix : string) (w : jsstr) (items : list value) (id : jsstr) :
  str prefix = w ++ [95%N] ->
  Forall (fun ch => ch <> 95%N) w ->
  Forall (fun c => safe_id c = true) items ->
  next_id prefix items = Ok id ->
  id <> str prefix ++ str "NaN" ->
  Forall (fun c => get_prop c (str "id") <> Ok (VStr id)) items.
Proof.
  intros Hp Hw Hsafe H Hnan.
  destruct (next_id_safe prefix items id Hsafe H) as [->|(m & Hm & Hmax & ->)];
    [destruct Hnan; reflexivity|].
  apply (max_id_number_Int _ _ _ Hsafe) in Hmax as (_ & Hall & _).
  eapply Forall_impl; [exact Hall|]. intros c (n & Hn & Hnm) Hid.
  rewrite Hp, <- app_assoc in Hid.
  assert (Hlt : (N.of_nat (Z.to_nat (m + 1)) < two53)%N)
    by (unfold two53, MAX_SAFE_INTEGER in *; lia).
  rewrite (id_number_made w (Z.to_nat (m + 1)) c Hw Hlt Hid) in Hn.
  injection Hn as <-. lia.
Qed.

(** X12. A new identifier is one more than what is there, as long as the
    numbers are safe integers. When the number read in the identifier of
    every complaint is below [Number.MAX_SAFE_INTEGER] (or is no number)
    and [Data.nextComplaintId] returns, its result is [cmp_NaN], or it
    is [cmp_] followed by the decimal text, padded to three digits, of a
    number [n >= 1] such that the identifier of every complaint reads as
    a number below [n] and, unless [n] is 1, the identifier of some
    complaint reads as [n - 1]. *)
Theorem nextComplaintId_one_more (complaints : list value) (id : jsstr) :
  Forall (fun c => safe_id c = true) complaints ->
  nextComplaintId complaints = Ok id ->
  id = str "cmp_NaN"
  \/ exists n : nat,
       1 <= n
       /\ id = str "cmp_" ++ padStart 3 48%N (dec_string n)
       /\ Forall (fun c => exists k, id_number c = Ok (Int k) /\ (k < Z.of_nat n)%Z)
            complaints
       /\ (n = 1 \/ Exists (fun c => id_number c = Ok (Int (Z.of_nat n - 1))) complaints).
Proof.
  unfold nextComplaintId. intros Hsafe H.
  destruct (next_id_safe _ _ _ Hsafe H) as [->|(m & Hm & Hmax & ->)];
    [left; reflexivity | right].
  apply (max_id_number_Int _ _ _ Hsafe) in Hmax as (Hle & Hall & Hex).
  exists (Z.to_nat (m + 1)). split; [lia|]. split; [reflexivity|]. split.
  - eapply Forall_impl; [exact Hall|]. intros c (k & Hk & Hkm).
    exists k. split; [exact Hk | lia].
  - destruct Hex as [->|Hex]; [left; reflexivity|]. right.
    replace (Z.of_nat (Z.to_nat (m + 1)) - 1)%Z with m by lia. exact Hex.
Qed.

Lemma nextComplaintId_one_more_witness :
  let complaints := [with_id (str "cmp_001"); with_id (str "cmp_007")] in
  Forall (fun c => safe_id c = true) complaints
  /\ nextComplaintId complaints = Ok (str "cmp_008")
  /\ (str "cmp_008" = str "cmp_NaN"
      \/ exists n : nat,
           1 <= n
           /\ str "cmp_008" = str "cmp_" ++ padStart 3 48%N (dec_string n)
           /\ Forall (fun c => exists k, id_number c = Ok (Int k) /\ (k < Z.of_nat n)%Z)
                complaints
           /\ (n = 1
               \/ Exists (fun c => id_number c = Ok (Int (Z.of_nat n - 1))) complaints)).
Proof.
  intros complaints.
  assert (Hsafe : Forall (fun c => safe_id c = true) complaints)
    by (repeat constructor).
  assert (H : nextComplaintId complaints = Ok (str "cmp_008")) by (vm_compute; reflexivity).
  split; [exact Hsafe|]. split; [exact H | exact (nextComplaintId_one_more _ _ Hsafe H)].
Defined.

(** X13. The identifiers are fresh, as long as the numbers are safe
    integers. When the number read in the identifier of every item is
    below [Number.MAX_SAFE_INTEGER] (or is no number) and one of the
    four functions returns an identifier other than its prefix followed
    by [NaN], no item of the list it has read carries that identifier. *)
Theorem next_ids_fresh (items : list value) (complaint : value) (id : jsstr) :
  (Forall (fun c => safe_id c = true) items ->
   nextComplaintId items = Ok id -> id <> str "cmp_NaN" ->
   Forall (fun c => get_prop c (str "id") <> Ok (VStr id)) items)
  /\ (Forall (fun c => safe_id c = true) items ->
      nextPhsoId items = Ok id -> id <> str "phso_NaN" ->
      Forall (fun c => get_prop c (str "id") <> Ok (VStr id)) items)
  /\ (Forall (fun c => safe_id c = true) items ->
      nextLegalId items = Ok id -> id <> str "legal_NaN" ->
      Forall (fun c => get_prop c (str "id") <> Ok (VStr id)) items)
  /\ (forall cs, get_prop complaint (str "concerns") = Ok cs ->
      Forall (fun c => safe_id c = true) (elements cs) ->
      nextConcernId complaint = Ok id -> id <> str "conc_NaN" ->
      Forall (fun c => get_prop c (str "id") <> Ok (VStr id)) (elements cs)).
Proof.
  split; [|split; [|split]].
  - apply (next_id_fresh "cmp_" (str "cmp")); [reflexivity | repeat constructor; discriminate].
  - apply (next_id_fresh "phso_" (str "phso")); [reflexivity | repeat constructor; discriminate].
  - apply (next_id_fresh "legal_" (str "legal")); [reflexivity | repeat constructor; discriminate].
  - unfold nextConcernId. intros cs Hcs Hsafe H Hne. rewrite Hcs in H.
    cbn [mbind outcome_bind] in H.
    apply bind_Ok in H as (l & Hl & H).
    apply elements_or_empty_Ok in Hl. subst l.
    revert Hsafe H Hne.
    apply (next_id_fresh "conc_" (str "conc")); [reflexivity | repeat constructor; discriminate].
Qed.

Lemma next_ids_fresh_witness :
  let items := [with_id (str "cmp_001"); with_id (str "cmp_007")] in
  Forall (fun c => safe_id c = true) items
  /\ nextComplaintId items = Ok (str "cmp_008")
  /\ str "cmp_008" <> str "cmp_NaN"
  /\ Forall (fun c => get_prop c (str "id") <> Ok (VStr (str "cmp_008"))) items.
Proof.
  intros items.
  assert (Hsafe : Forall (fun c => safe_id c = true) items) by (repeat constructor).
  assert (H : nextComplaintId items = Ok (str "cmp_008")) by (vm_compute; reflexivity).
  assert (Hne : str "cmp_008" <> str "cmp_NaN") by discriminate.
  split; [exact Hsafe|]. split; [exact H|]. split; [exact Hne|].
  exact (proj1 (next_ids_fresh items VNull (str "cmp_008")) Hsafe H Hne).
Defined.

(** Beyond the safe integers the identifiers repeat: 2^53 + 1 is
    rounded to 2^53, so the identifier returned is one that is there;
    and from 10^21 on the number is written with an exponent. *)
Example unsafe_ids_repeat :
  nextComplaintId [with_id (str "cmp_9007199254740992")]
  = Ok (str "cmp_9007199254740992")
  /\ safe_id (with_id (str "cmp_9007199254740992")) = false
  /\ nextComplaintId [with_id (str "cmp_1000000000000000000000")] = Ok (str "cmp_1e+21")
  /\ nextComplaintId [with_id (str "cmp_1e+21")] = Ok (str "cmp_002").
Proof. repeat split; vm_compute; reflexivity. Qed.

(** X14. An identifier without a number spoils the sequence. When the
    identifier of some item has no digit where its number is read,
    [Data.nextComplaintId] returns [cmp_NaN], and returns it again after
    a complaint with that identifier has been added: the identifiers
    repeat. *)
Theorem id_without_number_repeats (complaints : list value) (id : jsstr) :
  Exists (fun c => id_number c = Ok NaN) complaints ->
  nextComplaintId complaints = Ok id ->
  id = str "cmp_NaN"
  /\ nextComplaintId (complaints ++ [with_id id]) = Ok id.
Proof.
  unfold nextComplaintId, next_id. intros Hex H.
  apply bind_Ok in H as (max & Hmax & H). injection H as <-.
  assert (max = NaN) as -> by exact (max_id_number_poisoned _ _ _ Hmax Hex).
  split; [reflexivity|].
  rewrite max_id_number_app, Hmax. reflexivity.
Qed.

Lemma id_without_number_repeats_witness :
  let complaints := [with_id (str "cmp_001"); with_id (str "imported_a7")] in
  Exists (fun c => id_number c = Ok NaN) complaints
  /\ nextComplaintId complaints = Ok (str "cmp_NaN")
  /\ nextComplaintId (complaints ++ [with_id (str "cmp_NaN")]) = Ok (str "cmp_NaN").
Proof.
  intros complaints.
  assert (Hex : Exists (fun c => id_number c = Ok NaN) complaints)
    by (right; left; vm_compute; reflexivity).
  assert (H : nextComplaintId complaints = Ok (str "cmp_NaN")) by (vm_compute; reflexivity).
  split; [exact Hex|]. split; [exact H|].
  exact (proj2 (id_without_number_repeats _ _ Hex H)).
Defined.

Lemma max_id_number_fails (items : list value) :
  forall (a m : number),
    max_id_number a items = Ok m ->
    Forall (fun c => exists n, id_number c = Ok n) items.
Proof.
  induction items as [|c items IH]; intros a m H; [constructor|].
  simpl in H. apply bind_Ok in H as (n & Hn & H).
  constructor; [eauto | exact (IH _ _ H)].
Qed.

(** X15. An identifier that is not a string stops the function. When some
    complaint has a truthy identifier that is not a string -- a number,
    as a server would assign -- [Data.nextComplaintId] returns no
    identifier: the call of [split] on it throws. *)
Theorem nextComplaintId_needs_strings (complaints : list value) (c v : value) :
  In c complaints ->
  get_prop c (str "id") = Ok v ->
  truthy v = true ->
  (forall s, v <> VStr s) ->
  forall id, nextComplaintId complaints <> Ok id.
Proof.
  intros Hin Hv Ht Hns id H. unfold nextComplaintId, next_id in H.
  apply bind_Ok in H as (max & Hmax & _).
  apply max_id_number_fails in Hmax. rewrite Forall_forall in Hmax.
  destruct (Hmax c (proj2 (list_elem_of_In _ _) Hin)) as (n & Hn).
  unfold id_number in Hn. rewrite Hv in Hn. cbn [mbind outcome_bind] in Hn.
  rewrite Ht in Hn. destruct v; try discriminate Hn. destruct (Hns s). reflexivity.
Qed.

Lemma nextComplaintId_needs_strings_witness :
  let c := VObj [(str "id", VNum (str "12"))] in
  In c [with_id (str "cmp_001"); c]
  /\ get_prop c (str "id") = Ok (VNum (str "12"))
  /\ forall id, nextComplaintId [with_id (str "cmp_001"); c] <> Ok id.
Proof.
  intros c.
  assert (Hin : In c [with_id (str "cmp_001"); c]) by (right; left; reflexivity).
  assert (Hv : get_prop c (str "id") = Ok (VNum (str "12"))) by reflexivity.
  split; [exact Hin|]. split; [exact Hv|].
  apply (nextComplaintId_needs_strings _ c _ Hin Hv); [reflexivity | discriminate].
Defined.

(* ===================================================================== *)
(** * Storing and finding a complaint *)
(* ===================================================================== *)

Import Json.

Lemma strict_equal_true (a b : value) : strict_equal a b = Ok true -> a = b.
Proof.
  destruct a, b; simpl; try discriminate; try reflexivity; intros [= H].
  - apply bool_decide_eq_true_1 in H. congruence.
  - apply andb_true_iff in H as [H _]. apply bool_decide_eq_true_1 in H. congruence.
  - apply bool_decide_eq_true_1 in H. congruence.
Qed.

Section Searching.

Context {A : Type} (f : A -> outcome bool).

Lemma findIndex_ext (g : A -> outcome bool) (l : list A) :
  (forall x, f x = g x) -> findIndex f l = findIndex g l.
Proof.
  intros Hfg. induction l as [|x l IH]; [reflexivity|]. simpl.
  rewrite Hfg, IH. reflexivity.
Qed.

Lemma findIndex_Some (l : list A) :
  forall k, findIndex f l = Ok (Some k) ->
    exists x, l !! k = Some x /\ f x = Ok true
              /\ Forall (fun y => f y = Ok false) (take k l).
Proof.
  induction l as [|x l IH]; intros k H; simpl in H; [discriminate|].
  apply bind_Ok in H as (b & Hb & H). destruct b.
  - injection H as <-. exists x. repeat split; [exact Hb | constructor].
  - apply fmap_Ok in H as (o & Ho & Hk). destruct o as [k'|]; [|discriminate].
    injection Hk as ->. destruct (IH _ Ho) as (y & Hy & Hfy & Hall).
    exists y. split; [exact Hy|]. split; [exact Hfy|].
    simpl. constructor; [exact Hb | exact Hall].
Qed.

Lemma findIndex_None (l : list A) :
  findIndex f l = Ok None -> Forall (fun y => f y = Ok false) l.
Proof.
  induction l as [|x l IH]; intros H; simpl in H; [constructor|].
  apply bind_Ok in H as (b & Hb & H). destruct b; [discriminate|].
  apply fmap_Ok in H as (o & Ho & Hk). destruct o; [discriminate|].
  constructor; [exact Hb | exact (IH Ho)].
Qed.

Lemma find_first_skip (l1 l2 : list A) :
  Forall (fun y => f y = Ok false) l1 -> find_first f (l1 ++ l2) = find_first f l2.
Proof.
  induction 1 as [|x l1 Hx _ IH]; [reflexivity|]. simpl. rewrite Hx. exact IH.
Qed.

Lemma find_first_app (l1 l2 : list A) :
  find_first f (l1 ++ l2)
  = match find_first f l1 with
    | Ok None => find_first f l2
    | r => r
    end.
Proof.
  induction l1 as [|x l1 IH]; [reflexivity|]. simpl.
  destruct (f x) as [[|]| |]; simpl; [reflexivity | exact IH | reflexivity..].
Qed.

End Searching.

Section UpsertFacts.

Variable save : list value -> outcome unit.

(** What [upsertComplaint] returns: the array with the first complaint
    of the same identifier replaced, or with the new complaint added
    when no complaint has that identifier. *)
Lemma upsertComplaint_Ok (cs cs' : list value) (c i : value) :
  upsertComplaint save cs c = Ok cs' ->
  get_prop c (str "id") = Ok i ->
  (exists k x, cs !! k = Some x /\ id_is i x = Ok true
               /\ Forall (fun y => id_is i y = Ok false) (take k cs)
               /\ cs' = take k cs ++ c :: drop (S k) cs)
  \/ (Forall (fun y => id_is i y = Ok false) cs /\ cs' = cs ++ [c]).
Proof.
  unfold upsertComplaint. intros H Hid.
  apply bind_Ok in H as (idx & Hidx & H). apply bind_Ok in H as (u & _ & H).
  injection H as <-.
  rewrite (findIndex_ext _ (id_is i)) in Hidx.
  2:{ intros x. unfold id_is. destruct (get_prop x (str "id")); simpl;
        [rewrite Hid|..]; reflexivity. }
  destruct idx as [k|].
  - left. apply findIndex_Some in Hidx as (x & Hx & Hfx & Hall).
    exists k, x. repeat split; try assumption.
    apply insert_take_drop. apply lookup_lt_Some in Hx. exact Hx.
  - right. split; [exact (findIndex_None _ _ Hidx) | reflexivity].
Qed.

(** X16. Finding what was stored. After [upsertComplaint(c)],
    [getComplaint(c.id)] returns [c], for an identifier that is strictly
    equal to itself. *)
Theorem getComplaint_after_upsert (cs cs' : list value) (c i : value) :
  upsertComplaint save cs c = Ok cs' ->
  get_prop c (str "id") = Ok i ->
  strict_equal i i = Ok true ->
  getComplaint cs' i = Ok c.
Proof.
  intros H Hid Hrefl.
  assert (Hc : id_is i c = Ok true) by (unfold id_is; rewrite Hid; exact Hrefl).
  unfold getComplaint.
  destruct (upsertComplaint_Ok _ _ _ _ H Hid)
    as [(k & x & _ & _ & Hall & ->)|(Hall & ->)];
    rewrite (find_first_skip _ _ _ Hall); cbn [find_first]; rewrite Hc; reflexivity.
Qed.

(** X17. The other identifiers. [upsertComplaint(c)] does not change what
    [getComplaint] returns for an identifier that is not strictly equal
    to that of [c]. *)
Theorem getComplaint_other_id (cs cs' : list value) (c i j : value) :
  upsertComplaint save cs c = Ok cs' ->
  get_prop c (str "id") = Ok i ->
  strict_equal i j = Ok false ->
  getComplaint cs' j = getComplaint cs j.
Proof.
  intros H Hid Hne.
  assert (Hc : id_is j c = Ok false) by (unfold id_is; rewrite Hid; exact Hne).
  unfold getComplaint.
  destruct (upsertComplaint_Ok _ _ _ _ H Hid)
    as [(k & x & Hx & Hfx & _ & ->)|(_ & ->)].
  - assert (Hxj : id_is j x = Ok false).
    { unfold id_is in Hfx |- *. destruct (get_prop x (str "id")) as [a| |];
        try discriminate Hfx. simpl in *.
      apply strict_equal_true in Hfx. subst a. exact Hne. }
    rewrite <- (take_drop_middle cs k x Hx) at 3.
    rewrite !find_first_app. cbn [find_first]. rewrite Hc, Hxj. reflexivity.
  - rewrite find_first_app. cbn [find_first]. rewrite Hc. cbn [mbind outcome_bind].
    destruct (find_first (id_is j) cs) as [[y|]| |]; reflexivity.
Qed.

Lemma id_text_Some (x : value) (a : jsstr) :
  id_text x = Some a -> get_prop x (str "id") = Ok (VStr a).
Proof.
  unfold id_text. destruct (get_prop x (str "id")) as [[| | | |s| |]| |];
    try discriminate. intros [= ->]. reflexivity.
Qed.

Lemma id_is_text (x : value) (a i : jsstr) :
  id_text x = Some a -> id_is (VStr i) x = Ok (bool_decide (a = i)).
Proof. intros H. unfold id_is. rewrite (id_text_Some _ _ H). reflexivity. Qed.

(** X18. Identifiers stay distinct. When the complaints have string
    identifiers, no two the same, [upsertComplaint] of a complaint with
    a string identifier leaves it so: the list of identifiers is
    unchanged when the identifier was there, and has the new identifier
    at its end when it was not. *)
Theorem upsert_keeps_ids_distinct (cs cs' : list value) (c : value) (i : jsstr) :
  upsertComplaint save cs c = Ok cs' ->
  id_text c = Some i ->
  Forall (fun x => is_Some (id_text x)) cs ->
  NoDup (omap id_text cs) ->
  NoDup (omap id_text cs')
  /\ length cs' = length (omap id_text cs')
  /\ omap id_text cs'
     = if bool_decide (i ∈ omap id_text cs) then omap id_text cs
       else omap id_text cs ++ [i].
Proof.
  intros H Hi Hall Hnd.
  assert (Hlen : forall l, Forall (fun x => is_Some (id_text x)) l ->
                   length l = length (omap id_text l)).
  { induction 1 as [|x l [a Ha] _ IH]; [reflexivity|]. simpl. rewrite Ha. simpl.
    f_equal. exact IH. }
  destruct (upsertComplaint_Ok _ _ _ _ H (id_text_Some _ _ Hi))
    as [(k & x & Hx & Hfx & _ & ->)|(Hno & ->)].
  - assert (Hxi : id_text x = Some i).
    { rewrite Forall_forall in Hall.
      destruct (Hall x (list_elem_of_lookup_2 _ _ _ Hx)) as [a Ha].
      rewrite (id_is_text _ _ _ Ha) in Hfx. injection Hfx as Hfx.
      apply bool_decide_eq_true_1 in Hfx. congruence. }
    assert (Hsame : omap id_text (take k cs ++ c :: drop (S k) cs) = omap id_text cs).
    { rewrite <- (take_drop_middle cs k x Hx) at 3.
      rewrite !omap_app. simpl. rewrite Hi, Hxi. reflexivity. }
    rewrite Hsame. split; [exact Hnd|]. split.
    + rewrite <- (Hlen cs Hall). rewrite length_app. simpl.
      rewrite length_take, length_drop. apply lookup_lt_Some in Hx. lia.
    + rewrite bool_decide_eq_true_2; [reflexivity|].
      apply list_elem_of_omap. exists x. split; [|exact Hxi].
      exact (list_elem_of_lookup_2 _ _ _ Hx).
  - assert (Hnew : i ∉ omap id_text cs).
    { intros Hin. apply list_elem_of_omap in Hin as (x & Hin & Hxi).
      rewrite Forall_forall in Hno. specialize (Hno x Hin).
      rewrite (id_is_text _ _ _ Hxi) in Hno. injection Hno as Hno.
      apply bool_decide_eq_false_1 in Hno. destruct Hno. reflexivity. }
    rewrite omap_app. simpl. rewrite Hi. simpl.
    split; [|split].
    + apply NoDup_app. split; [exact Hnd|]. split; [|apply NoDup_singleton].
      intros a Ha Ha'. apply list_elem_of_singleton in Ha'. subst a. exact (Hnew Ha).
    + rewrite !length_app. simpl. rewrite (Hlen cs Hall). reflexivity.
    + rewrite bool_decide_eq_false_2 by exact Hnew. reflexivity.
Qed.

End UpsertFacts.

Lemma getComplaint_after_upsert_witness :
  let cs := [with_id (str "cmp_001"); with_id (str "cmp_002")] in
  let c := VObj [(str "id", VStr (str "cmp_002")); (str "status", VStr (str "Closed"))] in
  upsertComplaint save_ok cs c = Ok [with_id (str "cmp_001"); c]
  /\ get_prop c (str "id") = Ok (VStr (str "cmp_002"))
  /\ strict_equal (VStr (str "cmp_002")) (VStr (str "cmp_002")) = Ok true
  /\ getComplaint [with_id (str "cmp_001"); c] (VStr (str "cmp_002")) = Ok c.
Proof.
  intros cs c.
  assert (H : upsertComplaint save_ok cs c = Ok [with_id (str "cmp_001"); c])
    by (vm_compute; reflexivity).
  assert (Hid : get_prop c (str "id") = Ok (VStr (str "cmp_002"))) by reflexivity.
  assert (Hrefl : strict_equal (VStr (str "cmp_002")) (VStr (str "cmp_002")) = Ok true)
    by reflexivity.
  split; [exact H|]. split; [exact Hid|]. split; [exact Hrefl|].
  exact (getComplaint_after_upsert save_ok _ _ _ _ H Hid Hrefl).
Defined.

Lemma getComplaint_other_id_witness :
  let cs := [with_id (str "cmp_001"); with_id (str "cmp_002")] in
  let c := VObj [(str "id", VStr (str "cmp_003"))] in
  upsertComplaint save_ok cs c = Ok (cs ++ [c])
  /\ strict_equal (VStr (str "cmp_003")) (VStr (str "cmp_001")) = Ok false
  /\ getComplaint (cs ++ [c]) (VStr (str "cmp_001")) = getComplaint cs (VStr (str "cmp_001")).
Proof.
  intros cs c.
  assert (H : upsertComplaint save_ok cs c = Ok (cs ++ [c])) by (vm_compute; reflexivity).
  assert (Hne : strict_equal (VStr (str "cmp_003")) (VStr (str "cmp_001")) = Ok false)
    by reflexivity.
  split; [exact H|]. split; [exact Hne|].
  exact (getComplaint_other_id save_ok _ _ c _ _ H eq_refl Hne).
Defined.

Lemma upsert_keeps_ids_distinct_witness :
  let cs := [with_id (str "cmp_001"); with_id (str "cmp_002")] in
  let c := VObj [(str "id", VStr (str "cmp_003"))] in
  upsertComplaint save_ok cs c = Ok (cs ++ [c])
  /\ NoDup (omap id_text cs)
  /\ NoDup (omap id_text (cs ++ [c])).
Proof.
  intros cs c.
  assert (H : upsertComplaint save_ok cs c = Ok (cs ++ [c])) by (vm_compute; reflexivity).
  assert (Hnd : NoDup (omap id_text cs)).
  { apply (bool_decide_unpack _). vm_compute. exact I. }
  assert (Hall : Forall (fun x => is_Some (id_text x)) cs).
  { repeat constructor; eexists; reflexivity. }
  split; [exact H|]. split; [exact Hnd|].
  exact (proj1 (upsert_keeps_ids_distinct save_ok cs _ c (str "cmp_003") H eq_refl Hall Hnd)).
Defined.

(** ** A new complaint *)

Lemma findIndex_all_false {A} (f : A -> outcome bool) (l : list A) :
  Forall (fun y => f y = Ok false) l -> findIndex f l = Ok None.
Proof.
  induction 1 as [|x l Hx _ IH]; [reflexivity|]. simpl. rewrite Hx. simpl.
  rewrite IH. reflexivity.
Qed.

(** X19. A complaint stored under a new identifier is added, as long as
    the numbers are safe integers. When the number read in the
    identifier of every complaint is below [Number.MAX_SAFE_INTEGER] (or
    is no number), [Data.nextComplaintId] returns an identifier other
    than [cmp_NaN] and a complaint with that identifier is given to
    [Data.upsertComplaint], the complaint becomes the last element of
    the array and every other element stays in its place, provided the
    data can be saved. This is the local branch of the form that adds a
    complaint. *)
Theorem new_complaint_is_added (save : list value -> outcome unit)
    (cs : list value) (c : value) (id : jsstr) :
  Forall (fun x => safe_id x = true) cs ->
  nextComplaintId cs = Ok id ->
  id <> str "cmp_NaN" ->
  get_prop c (str "id") = Ok (VStr id) ->
  save (cs ++ [c]) = Ok tt ->
  upsertComplaint save cs c = Ok (cs ++ [c]).
Proof.
  intros Hsafe Hnext Hne Hid Hsave.
  pose proof (next_id_fresh "cmp_" (str "cmp") cs id eq_refl
                ltac:(repeat constructor; discriminate) Hsafe Hnext Hne) as Hfresh.
  unfold nextComplaintId, next_id in Hnext.
  apply bind_Ok in Hnext as (max & Hmax & _).
  apply max_id_number_fails in Hmax.
  unfold upsertComplaint. rewrite findIndex_all_false.
  { cbn [mbind outcome_bind]. rewrite Hsave. reflexivity. }
  rewrite Forall_forall in Hfresh, Hmax |- *. intros x Hx.
  specialize (Hfresh x Hx). destruct (Hmax x Hx) as (n & Hn).
  unfold id_number in Hn. rewrite Hid.
  destruct (get_prop x (str "id")) as [a| |]; try discriminate Hn.
  cbn [mbind outcome_bind] in Hn |- *.
  destruct a as [| |b|r|s|l|ps]; try reflexivity; try discriminate Hn.
  simpl. rewrite bool_decide_eq_false_2; [reflexivity|].
  intros ->. apply Hfresh. reflexivity.
Qed.

Lemma new_complaint_is_added_witness :
  let cs := [with_id (str "cmp_001"); with_id (str "cmp_007")] in
  let c := VObj [(str "id", VStr (str "cmp_008")); (str "title", VStr (str "Late reply"))] in
  Forall (fun x => safe_id x = true) cs
  /\ nextComplaintId cs = Ok (str "cmp_008")
  /\ upsertComplaint save_ok cs c = Ok (cs ++ [c]).
Proof.
  intros cs c.
  assert (Hsafe : Forall (fun x => safe_id x = true) cs) by (repeat constructor).
  assert (H : nextComplaintId cs = Ok (str "cmp_008")) by (vm_compute; reflexivity).
  split; [exact Hsafe|]. split; [exact H|].
  apply (new_complaint_is_added save_ok cs c (str "cmp_008") Hsafe H);
    [discriminate | reflexivity | reflexivity].
Defined.

(** Beyond the safe integers the new complaint takes the place of an
    old one: the identifier returned is that of a complaint that is
    there, and [upsertComplaint] replaces it. *)
Example unsafe_id_replaces :
  let old := VObj [(str "id", VStr (str "cmp_9007199254740992")); (str "title", VStr (str "First"))] in
  let new := VObj [(str "id", VStr (str "cmp_9007199254740992")); (str "title", VStr (str "Second"))] in
  nextComplaintId [old] = Ok (str "cmp_9007199254740992")
  /\ upsertComplaint save_ok [old] new = Ok [new].
Proof. split; vm_compute; reflexivity. Qed.

(* ===================================================================== *)
(** * The CSV export can be read back *)
(* ===================================================================== *)

Import Json.

(** ** The two patterns on lists *)

Lemma existsb_eq {A} (f g : A -> bool) (l : list A) :
  (forall x, f x = g x) -> existsb f l = existsb g l.
Proof. intros H. induction l as [|x l IH]; simpl; [reflexivity | rewrite H, IH; reflexivity]. Qed.

Lemma test_walk_chars (A : list N) (s : jsstr) :
  forall p, test_walk (mkRegExp (Chars A) false) p s
            = existsb (class_matches false A) s.
Proof.
  induction s as [|ch s IH]; intros p; [reflexivity|].
  cbn [test_walk match_at rmatch pattern ignoreCase snd existsb].
  destruct (class_matches false A ch); [reflexivity | apply IH].
Qed.

Lemma replace_walk_chars (A : list N) (rep : jsstr) (s : jsstr) :
  forall p, replace_walk (mkRegExp (Chars A) false) rep O p s
            = flat_map (fun ch => if class_matches false A ch then rep else [ch]) s.
Proof.
  induction s as [|ch s IH]; intros p; [reflexivity|].
  cbn [replace_walk match_at rmatch pattern ignoreCase snd flat_map].
  destruct (class_matches false A ch).
  - replace (length (ch :: s) - length s) with 1 by (simpl; lia).
    rewrite IH. reflexivity.
  - rewrite IH. reflexivity.
Qed.

Lemma class_needs_quotes (ch : N) :
  class_matches false [quote; comma; line_feed] ch = special ch.
Proof.
  unfold class_matches, special, Canonicalize. simpl.
  rewrite orb_false_r, !(N.eqb_sym ch), orb_assoc. reflexivity.
Qed.

Lemma class_every_quote (ch : N) : class_matches false [quote] ch = (ch =? quote)%N.
Proof.
  unfold class_matches, Canonicalize. simpl.
  rewrite orb_false_r, (N.eqb_sym ch). reflexivity.
Qed.

(** The text of a cell, without the patterns. *)
Lemma csv_quote_eq (s : jsstr) :
  csv_quote s = if existsb special s then quote :: double_quotes s ++ [quote] else s.
Proof.
  unfold csv_quote, RegExp_test, needs_quotes, every_quote, replace.
  rewrite test_walk_chars, replace_walk_chars.
  rewrite (existsb_eq _ special s class_needs_quotes).
  destruct (existsb special s); [|reflexivity].
  cbn [app]. do 2 f_equal. unfold double_quotes.
  apply flat_map_ext. intros ch. rewrite class_every_quote. reflexivity.
Qed.

(** ** Reading what was written *)

Lemma csv_run_app (st : csv_state) (a b : jsstr) :
  csv_run st (a ++ b) = csv_run (csv_run st a) b.
Proof. apply fold_left_app. Qed.

Lemma special_false (ch : N) :
  special ch = false ->
  (ch =? quote)%N = false /\ (ch =? comma)%N = false /\ (ch =? line_feed)%N = false.
Proof.
  unfold special. intros H. apply orb_false_iff in H as [H H3].
  apply orb_false_iff in H as [H1 H2]. auto.
Qed.

Lemma existsb_special_false (s : jsstr) :
  existsb special s = false -> Forall (fun ch => special ch = false) s.
Proof.
  induction s as [|ch s IH]; intros H; [constructor|]. simpl in H.
  apply orb_false_iff in H as [H1 H2]. constructor; auto.
Qed.

Lemma csv_run_raw (s : jsstr) :
  forall st, Forall (fun ch => special ch = false) s -> mode st = InRaw ->
    csv_run st s = mkCsv InRaw (rev s ++ cell st) (row st) (rows st).
Proof.
  induction s as [|ch s IH]; intros st Hs Hm.
  - destruct st. simpl in *. subst. reflexivity.
  - apply Forall_cons in Hs as [Hch Hs].
    apply special_false in Hch as (_ & Hc & Hl).
    change (csv_run st (ch :: s)) with (csv_run (csv_step st ch) s).
    unfold csv_step. rewrite Hm, Hc, Hl.
    rewrite IH; [|exact Hs|reflexivity]. simpl. rewrite <- app_assoc. reflexivity.
Qed.

Lemma csv_run_raw_start (s : jsstr) (st : csv_state) :
  Forall (fun ch => special ch = false) s -> mode st = AtStart -> s <> [] ->
  csv_run st s = mkCsv InRaw (rev s ++ cell st) (row st) (rows st).
Proof.
  intros Hs Hm Hne. destruct s as [|ch s]; [destruct Hne; reflexivity|].
  apply Forall_cons in Hs as [Hch Hs].
  apply special_false in Hch as (Hq & Hc & Hl).
  change (csv_run st (ch :: s)) with (csv_run (csv_step st ch) s).
  unfold csv_step. rewrite Hm, Hq, Hc, Hl.
  rewrite csv_run_raw; [|exact Hs|reflexivity]. simpl. rewrite <- app_assoc. reflexivity.
Qed.

Lemma csv_run_quoted (s : jsstr) :
  forall st, mode st = InQuoted ->
    csv_run st (double_quotes s) = mkCsv InQuoted (rev s ++ cell st) (row st) (rows st).
Proof.
  induction s as [|ch s IH]; intros st Hm.
  - destruct st. simpl in *. subst. reflexivity.
  - unfold double_quotes. cbn [flat_map]. fold (double_quotes s).
    rewrite csv_run_app. destruct (ch =? quote)%N eqn:E.
    + apply N.eqb_eq in E. subst ch.
      change (csv_run st [quote; quote])
        with (csv_step (csv_step st quote) quote).
      unfold csv_step at 2. rewrite Hm. cbn [N.eqb quote Pos.eqb].
      unfold csv_step. cbn [mode N.eqb quote Pos.eqb].
      rewrite IH by reflexivity. simpl. rewrite <- app_assoc. reflexivity.
    + change (csv_run st [ch]) with (csv_step st ch).
      unfold csv_step. rewrite Hm, E.
      rewrite IH by reflexivity. simpl. rewrite <- app_assoc. reflexivity.
Qed.

(** Reading the text of one cell from the start of a cell leaves the
    reader with the cell's text, outside quotes. *)
Lemma csv_run_cell (s : jsstr) (st : csv_state) :
  mode st = AtStart -> cell st = [] ->
  exists m, m <> InQuoted
            /\ csv_run st (csv_quote s) = mkCsv m (rev s) (row st) (rows st).
Proof.
  intros Hm Hc. rewrite csv_quote_eq. destruct (existsb special s) eqn:E.
  - exists AfterQuote. split; [discriminate|].
    change (quote :: double_quotes s ++ [quote])
      with ([quote] ++ double_quotes s ++ [quote]).
    rewrite !csv_run_app.
    change (csv_run st [quote]) with (csv_step st quote).
    unfold csv_step at 1. rewrite Hm. cbn [N.eqb quote Pos.eqb].
    rewrite csv_run_quoted by reflexivity. cbn [cell row rows].
    rewrite Hc, app_nil_r. reflexivity.
  - apply existsb_special_false in E. destruct s as [|ch s].
    + exists AtStart. split; [discriminate|]. destruct st. simpl in *. subst. reflexivity.
    + exists InRaw. split; [discriminate|].
      rewrite (csv_run_raw_start _ _ E Hm) by discriminate.
      rewrite Hc, app_nil_r. reflexivity.
Qed.

Lemma csv_step_comma (st : csv_state) :
  mode st <> InQuoted -> csv_step st comma = end_cell st.
Proof. unfold csv_step. destruct (mode st); [reflexivity.. | intros H; destruct H | ]; reflexivity. Qed.

Lemma csv_step_line_feed (st : csv_state) :
  mode st <> InQuoted -> csv_step st line_feed = end_row st.
Proof. unfold csv_step. destruct (mode st); [reflexivity.. | intros H; destruct H | ]; reflexivity. Qed.

Lemma join_cons2 (sep p q : jsstr) (ps : list jsstr) :
  join sep (p :: q :: ps) = p ++ sep ++ join sep (q :: ps).
Proof. reflexivity. Qed.

(** Reading the line of a row from the start of a cell. *)
Lemma csv_run_line (cs : list jsstr) :
  forall (c : jsstr) (r : list jsstr) (R : list (list jsstr)),
    exists st', csv_run (mkCsv AtStart [] r R) (csv_line (c :: cs)) = st'
                /\ mode st' <> InQuoted
                /\ rev (rev (cell st') :: row st') = rev r ++ c :: cs
                /\ rows st' = R.
Proof.
  unfold csv_line.
  induction cs as [|c2 cs IH]; intros c r R.
  - destruct (csv_run_cell c (mkCsv AtStart [] r R) eq_refl eq_refl) as (m & Hm & Hrun).
    eexists. split; [exact Hrun|]. cbn [mode cell row rows].
    split; [exact Hm|]. split; [|reflexivity].
    simpl. rewrite rev_involutive. reflexivity.
  - cbn [map]. rewrite join_cons2, !csv_run_app.
    destruct (csv_run_cell c (mkCsv AtStart [] r R) eq_refl eq_refl) as (m & Hm & Hrun).
    rewrite Hrun. change (csv_run ?st [comma]) with (csv_step st comma).
    rewrite csv_step_comma by exact Hm. unfold end_cell. cbn [cell row rows].
    rewrite rev_involutive.
    destruct (IH c2 (c :: r) R) as (st' & Hst' & Hmode & Hrow & Hrows).
    exists st'. split; [exact Hst'|]. split; [exact Hmode|]. split; [|exact Hrows].
    rewrite Hrow. simpl. rewrite <- app_assoc. reflexivity.
Qed.

(** Reading the lines of a table of rows that have a cell each. *)
Lemma csv_run_lines (rs : list (list jsstr)) :
  forall (r : list jsstr) (R : list (list jsstr)),
    r <> [] -> Forall (fun r' => r' <> []) rs ->
    rev (rows (end_row (csv_run (mkCsv AtStart [] [] R)
                          (join [line_feed] (map csv_line (r :: rs))))))
    = rev R ++ r :: rs.
Proof.
  induction rs as [|r2 rs IH]; intros r R Hr Hrs.
  - destruct r as [|c cs]; [destruct Hr; reflexivity|].
    destruct (csv_run_line cs c [] R) as (st' & Hst' & _ & Hrow & Hrows).
    cbn [map join]. rewrite Hst'. unfold end_row. cbn [rows].
    rewrite Hrow, Hrows. reflexivity.
  - apply Forall_cons in Hrs as [Hr2 Hrs].
    cbn [map]. rewrite join_cons2, !csv_run_app.
    destruct r as [|c cs]; [destruct Hr; reflexivity|].
    destruct (csv_run_line cs c [] R) as (st' & Hst' & Hmode & Hrow & Hrows).
    rewrite Hst'. change (csv_run ?st [line_feed]) with (csv_step st line_feed).
    rewrite csv_step_line_feed by exact Hmode. unfold end_row at 2.
    rewrite Hrow, Hrows. cbn [app rev].
    etrans; [exact (IH r2 ((c :: cs) :: R) Hr2 Hrs)|].
    simpl. rewrite <- app_assoc. reflexivity.
Qed.

(** A table written line by line is read back as it was. *)
Lemma read_lf_lines (r : list jsstr) (rs : list (list jsstr)) :
  r <> [] -> Forall (fun r' => r' <> []) rs ->
  read_lf (join [line_feed] (map csv_line (r :: rs))) = r :: rs.
Proof. intros Hr Hrs. unfold read_lf. rewrite csv_run_lines by assumption. reflexivity. Qed.

(** ** The reader of RFC 4180 *)

(** On a text without carriage returns the reader takes the steps of
    [csv_run]. *)
Lemma rfc_run_plain (text : jsstr) :
  forall st, ~ In carriage_return text ->
    fold_left rfc_step text (false, st) = (false, csv_run st text).
Proof.
  induction text as [|ch text IH]; intros st Hno; [reflexivity|].
  cbn [fold_left]. change (csv_run st (ch :: text)) with (csv_run (csv_step st ch) text).
  rewrite <- IH by (intros H; apply Hno; right; exact H). f_equal.
  unfold rfc_step, plain_step. cbn [fst snd].
  assert (E : (ch =? carriage_return)%N = false)
    by (apply N.eqb_neq; intros ->; apply Hno; left; reflexivity).
  rewrite E. destruct (mode st); reflexivity.
Qed.

Lemma csv_finish_open (st : csv_state) :
  row st <> [] -> csv_finish st = rows (end_row st).
Proof.
  unfold csv_finish. intros H. destruct (mode st); try reflexivity.
  destruct (row st); [destruct H|]; reflexivity.
Qed.

(** After the lines of rows of two cells or more, a row is being read. *)
Lemma csv_run_lines_open (rs : list (list jsstr)) :
  forall (r : list jsstr) (R : list (list jsstr)),
    Forall (fun r' => 2 <= length r') (r :: rs) ->
    row (csv_run (mkCsv AtStart [] [] R) (join [line_feed] (map csv_line (r :: rs)))) <> [].
Proof.
  induction rs as [|r2 rs IH]; intros r R Hrs; apply Forall_cons in Hrs as [Hr Hrs].
  - destruct r as [|c cs]; [simpl in Hr; lia|].
    destruct (csv_run_line cs c [] R) as (st' & Hst' & _ & Hrow & _).
    cbn [map join]. rewrite Hst'. intros E. rewrite E in Hrow.
    apply (f_equal length) in Hrow. simpl in Hrow, Hr. unfold jsstr in *. lia.
  - cbn [map]. rewrite join_cons2, !csv_run_app.
    destruct r as [|c cs]; [simpl in Hr; lia|].
    destruct (csv_run_line cs c [] R) as (st' & Hst' & Hmode & Hrow & Hrows).
    rewrite Hst'. change (csv_run ?st [line_feed]) with (csv_step st line_feed).
    rewrite csv_step_line_feed by exact Hmode. unfold end_row.
    apply IH. exact Hrs.
Qed.

(** A table of rows of two cells or more, written line by line without
    a carriage return, is read back as it was. *)
Lemma read_csv_lines (r : list jsstr) (rs : list (list jsstr)) :
  Forall (fun r' => 2 <= length r') (r :: rs) ->
  ~ In carriage_return (join [line_feed] (map csv_line (r :: rs))) ->
  read_csv (join [line_feed] (map csv_line (r :: rs))) = r :: rs.
Proof.
  intros Hrs Hno. unfold read_csv. rewrite rfc_run_plain by exact Hno. cbn [fst snd].
  rewrite csv_finish_open by (apply csv_run_lines_open; exact Hrs).
  apply read_lf_lines.
  - apply Forall_cons in Hrs as [Hr _]. intros ->. simpl in Hr. lia.
  - apply Forall_cons in Hrs as [_ Hrs]. eapply Forall_impl; [exact Hrs|].
    intros r' Hr' ->. simpl in Hr'. lia.
Qed.

Lemma not_In_existsb (ch : N) (s : jsstr) : existsb (N.eqb ch) s = false -> ~ In ch s.
Proof.
  intros H Hin. assert (E : existsb (N.eqb ch) s = true); [|congruence].
  apply existsb_exists. exists ch. split; [exact Hin | apply N.eqb_refl].
Qed.

(** ** The export of the complaints *)

Lemma map_outcome_fmap {A B C} (f : A -> outcome B) (g : B -> C) (l : list A) :
  map_outcome (fun x => g <$> f x) l = map g <$> map_outcome f l.
Proof.
  induction l as [|x l IH]; [reflexivity|]. simpl. rewrite IH.
  destruct (f x); simpl; [|reflexivity..].
  destruct (map_outcome f l); reflexivity.
Qed.

Lemma map_outcome_length {A B} (f : A -> outcome B) (l : list A) (l' : list B) :
  map_outcome f l = Ok l' -> length l' = length l.
Proof. intros H. apply map_outcome_Ok in H. symmetry. exact (Forall2_length _ _ _ H). Qed.

Lemma complaint_row_length (c : value) (r : list value) :
  complaint_row c = Ok r -> length r = 5.
Proof.
  unfold complaint_row. intros H.
  repeat (apply bind_Ok in H as (? & _ & H)). injection H as <-. reflexivity.
Qed.

Lemma table_of_five (complaints : list value) (rows : list (list value))
    (table : list (list jsstr)) :
  map_outcome complaint_row complaints = Ok rows ->
  map_outcome (map_outcome cell_text) rows = Ok table ->
  Forall (fun r => length r = 5) table.
Proof.
  intros Hrows Ht. apply map_outcome_Ok in Hrows, Ht.
  assert (H5 : Forall (fun r => length r = 5) rows).
  { clear Ht. induction Hrows as [|c r cs rs Hc _ IH]; [constructor|].
    constructor; [exact (complaint_row_length _ _ Hc) | exact IH]. }
  clear Hrows. induction Ht as [|r cells rs table Hr _ IH]; [constructor|].
  apply Forall_cons in H5 as [H5 H5']. constructor; [|exact (IH H5')].
  rewrite (map_outcome_length _ _ _ Hr). exact H5.
Qed.

Lemma csv_line_headers : csv_line complaint_headers = join [comma] complaint_headers.
Proof. vm_compute. reflexivity. Qed.

Lemma exportComplaintsCsv_lines (complaints : list value) (text : jsstr) :
  exportComplaintsCsv complaints = Ok text ->
  exists table,
    complaint_table complaints = Ok table
    /\ length table = length complaints
    /\ Forall (fun r => length r = 5) table
    /\ text = join [line_feed] (map csv_line (complaint_headers :: table)).
Proof.
  unfold exportComplaintsCsv, complaint_table. intros H.
  apply bind_Ok in H as (rows & Hrows & H). apply bind_Ok in H as (lines & Hlines & H).
  assert (Htext : text = join [line_feed] (csv_line complaint_headers :: lines)).
  { rewrite csv_line_headers. congruence. }
  clear H. rewrite Hrows. cbn [mbind outcome_bind].
  assert (Htable : forall lines0,
             map_outcome
               (fun r => join [comma] <$>
                           map_outcome (fun v => csv_quote <$> cell_text v) r) rows
             = Ok lines0 ->
             exists table,
               map_outcome (map_outcome cell_text) rows = Ok table
               /\ lines0 = map csv_line table).
  { clear. induction rows as [|r rows IH]; intros lines Hlines; simpl in Hlines.
    - injection Hlines as <-. exists []. split; reflexivity.
    - apply bind_Ok in Hlines as (line & Hline & Hlines).
      apply bind_Ok in Hlines as (lines' & Hlines' & Hlines).
      injection Hlines as <-.
      rewrite map_outcome_fmap in Hline.
      apply fmap_Ok in Hline as (quoted & Hquoted & ->).
      apply fmap_Ok in Hquoted as (cells & Hcells & ->).
      destruct (IH _ Hlines') as (table & Ht & ->).
      exists (cells :: table). split; [|reflexivity].
      cbn [map_outcome]. rewrite Hcells. cbn [mbind outcome_bind].
      rewrite Ht. reflexivity. }
  destruct (Htable _ Hlines) as (table & Ht & ->). clear Htable.
  exists table. split; [exact Ht|].
  pose proof (table_of_five _ _ _ Hrows Ht) as Hfive.
  split.
  { rewrite (map_outcome_length _ _ _ Ht). exact (map_outcome_length _ _ _ Hrows). }
  split; [exact Hfive|]. exact Htext.
Qed.

Lemma exportComplaintsCsv_read (complaints : list value) (text : jsstr) :
  exportComplaintsCsv complaints = Ok text ->
  exists table,
    complaint_table complaints = Ok table
    /\ length table = length complaints
    /\ Forall (fun r => length r = 5) table
    /\ read_lf text = complaint_headers :: table.
Proof.
  intros H. apply exportComplaintsCsv_lines in H as (table & Ht & Hlen & Hfive & ->).
  exists table. repeat split; try assumption.
  apply read_lf_lines; [discriminate|].
  eapply Forall_impl; [exact Hfive|]. intros r Hr ->. discriminate Hr.
Qed.

(** X20. The CSV export can be read back when it holds no carriage
    return. The text that [exportComplaintsCsv] hands to the download,
    read by the reader of RFC 4180 (rows ending at a line feed or at a
    carriage return and a line feed), has the header row first and then
    one row for each complaint, in order: the row of a complaint has
    five cells, which are the texts of its identifier, its title, its
    institution, the first ten characters of its filing date and its
    status -- whatever quotes, commas and line feeds these texts
    contain. The export puts no quotes around a carriage return, which
    is why the text must have none. *)
Theorem exportComplaintsCsv_reads_back (complaints : list value) (text : jsstr) :
  exportComplaintsCsv complaints = Ok text ->
  ~ In carriage_return text ->
  read_csv text !! 0 = Some complaint_headers
  /\ length (read_csv text) = S (length complaints)
  /\ forall (i : nat) (c : value),
       complaints !! i = Some c ->
       exists row cells,
         complaint_row c = Ok row
         /\ map_outcome cell_text row = Ok cells
         /\ length cells = 5
         /\ read_csv text !! S i = Some cells.
Proof.
  intros H Hno. apply exportComplaintsCsv_lines in H as (table & Ht & Hlen & H5 & ->).
  rewrite read_csv_lines; [| |exact Hno].
  2:{ constructor; [simpl; lia|]. eapply Forall_impl; [exact H5|].
      intros r Hr. simpl in Hr. rewrite Hr. lia. }
  split; [reflexivity|]. split; [simpl; rewrite Hlen; reflexivity|].
  intros i c Hc. unfold complaint_table in Ht.
  apply bind_Ok in Ht as (rows & Hrows & Ht).
  apply map_outcome_Ok in Hrows, Ht.
  destruct (Forall2_lookup_l _ _ _ _ _ Hrows Hc) as (row & Hrow & Hcr).
  destruct (Forall2_lookup_l _ _ _ _ _ Ht Hrow) as (cells & Hcells & Hrc).
  exists row, cells. split; [exact Hcr|]. split; [exact Hrc|]. split.
  - rewrite Forall_forall in H5. apply H5. exact (list_elem_of_lookup_2 _ _ _ Hcells).
  - exact Hcells.
Qed.

(** A carriage return at the end of a row is not read back: the export
    writes it without quotes before the line feed, and the reader takes
    the two as the line break. *)
Example carriage_return_not_read_back :
  exists text,
    exportComplaintsCsv (status_with_return ++ status_with_return) = Ok text
    /\ read_csv text !! 1 = Some [str "cmp_001"; str "No reply"; []; []; str "Filed"]
    /\ read_lf text !! 1 = Some [str "cmp_001"; str "No reply"; []; []; returned_status].
Proof. eexists. split; [vm_compute; reflexivity|]. split; vm_compute; reflexivity. Qed.

(** X21. The CSV export loses nothing: two lists of complaints that give the
    same text have the same cell texts, row by row. *)
Theorem exportComplaintsCsv_injective (l1 l2 : list value) (text : jsstr) :
  exportComplaintsCsv l1 = Ok text ->
  exportComplaintsCsv l2 = Ok text ->
  complaint_table l1 = complaint_table l2.
Proof.
  intros H1 H2.
  apply exportComplaintsCsv_read in H1 as (t1 & Ht1 & _ & _ & Hr1).
  apply exportComplaintsCsv_read in H2 as (t2 & Ht2 & _ & _ & Hr2).
  rewrite Ht1, Ht2. congruence.
Qed.

Lemma exportComplaintsCsv_injective_witness :
  exportComplaintsCsv sample_csv_complaints
  = Ok (exported (exportComplaintsCsv sample_csv_complaints))
  /\ exportComplaintsCsv sample_csv_complaints_too
     = Ok (exported (exportComplaintsCsv sample_csv_complaints))
  /\ sample_csv_complaints <> sample_csv_complaints_too
  /\ complaint_table sample_csv_complaints = complaint_table sample_csv_complaints_too.
Proof.
  assert (H1 : exportComplaintsCsv sample_csv_complaints
               = Ok (exported (exportComplaintsCsv sample_csv_complaints)))
    by (vm_compute; reflexivity).
  assert (H2 : exportComplaintsCsv sample_csv_complaints_too
               = Ok (exported (exportComplaintsCsv sample_csv_complaints)))
    by (vm_compute; reflexivity).
  split; [exact H1|]. split; [exact H2|]. split; [discriminate|].
  exact (exportComplaintsCsv_injective _ _ _ H1 H2).
Defined.

Lemma exportComplaintsCsv_reads_back_witness :
  exportComplaintsCsv sample_csv_complaints
  = Ok (exported (exportComplaintsCsv sample_csv_complaints))
  /\ ~ In carriage_return (exported (exportComplaintsCsv sample_csv_complaints))
  /\ read_csv (exported (exportComplaintsCsv sample_csv_complaints)) !! 1
     = Some [str "cmp_001"; quoted_title; str "GMC"; str "2025-06-10"; str "Refused"].
Proof.
  assert (H : exportComplaintsCsv sample_csv_complaints
              = Ok (exported (exportComplaintsCsv sample_csv_complaints)))
    by (vm_compute; reflexivity).
  assert (Hno : ~ In carriage_return (exported (exportComplaintsCsv sample_csv_complaints)))
    by (apply not_In_existsb; vm_compute; reflexivity).
  split; [exact H|]. split; [exact Hno|].
  destruct (exportComplaintsCsv_reads_back _ _ H Hno) as (_ & _ & Hrows).
  destruct (Hrows 0 _ eq_refl) as (row & cells & Hrow & Hcells & _ & Hread).
  rewrite Hread. f_equal.
  vm_compute in Hrow. injection Hrow as <-.
  vm_compute in Hcells. injection Hcells as <-. vm_compute. reflexivity.
Defined.

(** ** The export of the institutions *)

Lemma institution_row_length (r : value) (line : list value) :
  institution_row r = Ok line -> length line = 4.
Proof.
  unfold institution_row. intros H.
  repeat (apply bind_Ok in H as (? & _ & H)). injection H as <-. reflexivity.
Qed.

Lemma institution_cell_text (s : value) (t : jsstr) :
  institution_cell s = Ok t -> exists t0, ToString s = Ok t0 /\ t = csv_quote t0.
Proof.
  unfold institution_cell. intros H. apply bind_Ok in H as (t0 & Ht0 & H).
  exists t0. split; [exact Ht0|]. unfold csv_quote.
  destruct (RegExp_test needs_quotes t0) eqn:E.
  - destruct s; try discriminate H. injection H as <-.
    unfold csv_quote. rewrite E. reflexivity.
  - congruence.
Qed.

Lemma institution_cells_text (line : list value) (cells : list jsstr) :
  map_outcome institution_cell line = Ok cells ->
  exists texts, map_outcome ToString line = Ok texts /\ cells = map csv_quote texts.
Proof.
  revert cells. induction line as [|s line IH]; intros cells H; simpl in H.
  - injection H as <-. exists []. split; reflexivity.
  - apply bind_Ok in H as (t & Ht & H). apply bind_Ok in H as (ts & Hts & H).
    injection H as <-. apply institution_cell_text in Ht as (t0 & Ht0 & ->).
    destruct (IH _ Hts) as (texts & Htexts & ->).
    exists (t0 :: texts). split; [|reflexivity].
    cbn [map_outcome]. rewrite Ht0. cbn [mbind outcome_bind].
    rewrite Htexts. reflexivity.
Qed.

Lemma csv_line_institution_headers :
  csv_line institution_headers = join [comma] institution_headers.
Proof. vm_compute. reflexivity. Qed.

(** X22. The export of the institutions reads back in the same way when
    it holds no carriage return: the reader of RFC 4180 finds the header
    row, then one row of four cells for each institution, with the texts
    of its name, address, email and number of cases. *)
Theorem exportInstitutionsCsv_reads_back (institutions : list value) (text : jsstr) :
  exportInstitutionsCsv institutions = Ok text ->
  ~ In carriage_return text ->
  exists table,
    institution_table institutions = Ok table
    /\ length table = length institutions
    /\ Forall (fun r => length r = 4) table
    /\ read_csv text = institution_headers :: table.
Proof.
  unfold exportInstitutionsCsv, institution_table. intros H Hno.
  apply bind_Ok in H as (lines & Hlines & H).
  assert (Htext : text = join [line_feed] (csv_line institution_headers :: lines)).
  { rewrite csv_line_institution_headers. congruence. }
  clear H.
  assert (Htable : exists table,
             map_outcome (fun r => line ← institution_row r; map_outcome ToString line)
               institutions = Ok table
             /\ lines = map csv_line table
             /\ Forall (fun r => length r = 4) table).
  { clear Htext. revert lines Hlines.
    induction institutions as [|r rs IH]; intros lines Hlines; simpl in Hlines.
    - injection Hlines as <-. exists []. repeat split. constructor.
    - apply bind_Ok in Hlines as (l & Hl & Hlines).
      apply bind_Ok in Hlines as (ls & Hls & Hlines). injection Hlines as <-.
      apply bind_Ok in Hl as (line & Hline & Hl).
      apply fmap_Ok in Hl as (cells & Hcells & ->).
      apply institution_cells_text in Hcells as (texts & Htexts & ->).
      destruct (IH _ Hls) as (table & Ht & -> & H4).
      exists (texts :: table). split; [|split; [reflexivity|]].
      + cbn [map_outcome]. rewrite Hline. cbn [mbind outcome_bind].
        rewrite Htexts. cbn [mbind outcome_bind]. rewrite Ht. reflexivity.
      + constructor; [|exact H4].
        rewrite (map_outcome_length _ _ _ Htexts).
        exact (institution_row_length _ _ Hline). }
  destruct Htable as (table & Ht & -> & H4).
  exists table. split; [exact Ht|]. split.
  { exact (map_outcome_length _ _ _ Ht). }
  split; [exact H4|]. rewrite Htext in Hno |- *.
  change (csv_line institution_headers :: map csv_line table)
    with (map csv_line (institution_headers :: table)) in Hno |- *.
  apply read_csv_lines; [|exact Hno].
  constructor; [simpl; lia|]. eapply Forall_impl; [exact H4|].
  intros r Hr. simpl in Hr. rewrite Hr. lia.
Qed.

Lemma exportInstitutionsCsv_reads_back_witness :
  exportInstitutionsCsv sample_institutions
  = Ok (exported (exportInstitutionsCsv sample_institutions))
  /\ ~ In carriage_return (exported (exportInstitutionsCsv sample_institutions))
  /\ read_csv (exported (exportInstitutionsCsv sample_institutions))
     = institution_headers
       :: [[str "Devon & Cornwall Police"; str "Middlemoor, Exeter";
            str "psd@example.org"; str "2"];
           [str "GMC"; []; []; str "0"]].
Proof.
  assert (H : exportInstitutionsCsv sample_institutions
              = Ok (exported (exportInstitutionsCsv sample_institutions)))
    by (vm_compute; reflexivity).
  assert (Hno : ~ In carriage_return (exported (exportInstitutionsCsv sample_institutions)))
    by (apply not_In_existsb; vm_compute; reflexivity).
  split; [exact H|]. split; [exact Hno|].
  destruct (exportInstitutionsCsv_reads_back _ _ H Hno) as (table & Ht & _ & _ & Hread).
  rewrite Hread. f_equal.
  vm_compute in Ht. injection Ht as <-. vm_compute. reflexivity.
Defined.

(* ===================================================================== *)
(** * The status chips and the counters *)
(* ===================================================================== *)

Import Json.

(** ** A choice between words *)

Lemma rmatch_word (ic : bool) (w : jsstr) :
  forall (p : option N) (s : jsstr) (c : continuation),
    rmatch ic (seq_all (map (fun ch => Chars [ch]) w)) (p, s) c
    = if starts_with ic w s
      then c (prev_of p (take (length w) s), drop (length w) s)
      else None.
Proof.
  induction w as [|a w IH]; intros p s c.
  - simpl. rewrite drop_0. reflexivity.
  - cbn [map seq_all fold_right rmatch snd].
    destruct s as [|ch s]; [reflexivity|].
    cbn [starts_with]. unfold class_matches. cbn [existsb]. rewrite orb_false_r.
    destruct (Canonicalize ic a =? Canonicalize ic ch)%N; [|reflexivity].
    cbn [andb]. fold (seq_all (map (fun ch => Chars [ch]) w)). rewrite IH.
    destruct (starts_with ic w s); [|reflexivity].
    cbn [length take drop]. f_equal. f_equal.
    unfold prev_of. rewrite last_cons.
    destruct (last (take (length w) s)); reflexivity.
Qed.

Lemma match_at_words (ic : bool) (ws : list string) (p : option N) (s : jsstr) :
  ws <> [] ->
  is_Some (match_at (mkRegExp (words ws) ic) (p, s))
  <-> existsb (fun w => starts_with ic (str w) s) ws = true.
Proof.
  unfold match_at, words. cbn [pattern ignoreCase].
  induction ws as [|w ws IH]; intros Hne; [destruct Hne; reflexivity|].
  destruct ws as [|w2 ws].
  - cbn [map alt_all existsb]. rewrite orb_false_r. unfold lit.
    rewrite rmatch_word. destruct (starts_with ic (str w) s).
    + split; [reflexivity | eauto].
    + split; [intros [x Hx]; discriminate Hx | discriminate].
  - cbn [map alt_all rmatch existsb]. cbn [map alt_all existsb] in IH.
    unfold lit at 1. rewrite rmatch_word.
    destruct (starts_with ic (str w) s).
    + split; [reflexivity | eauto].
    + cbn [orb]. apply IH. discriminate.
Qed.

Lemma test_walk_words (ic : bool) (ws : list string) (s : jsstr) :
  ws <> [] ->
  forall p, test_walk (mkRegExp (words ws) ic) p s
            = existsb (fun w => contains ic (str w) s) ws.
Proof.
  intros Hne. induction s as [|ch s IH]; intros p.
  - cbn [test_walk]. pose proof (match_at_words ic ws p [] Hne) as Hm.
    destruct (match_at _ _) as [y|].
    + symmetry. rewrite <- (proj1 Hm (mk_is_Some _ _ eq_refl)).
      apply existsb_eq. intros w. cbn [contains]. apply orb_false_r.
    + transitivity (existsb (fun w => starts_with ic (str w) []) ws).
      * destruct (existsb _ ws) eqn:E; [|reflexivity].
        destruct (proj2 Hm eq_refl) as [x Hx]. discriminate Hx.
      * apply existsb_eq. intros w. cbn [contains]. symmetry. apply orb_false_r.
  - cbn [test_walk]. pose proof (match_at_words ic ws p (ch :: s) Hne) as Hm.
    rewrite IH.
    assert (E : existsb (fun w => contains ic (str w) (ch :: s)) ws
                = existsb (fun w => starts_with ic (str w) (ch :: s)) ws
                  || existsb (fun w => contains ic (str w) s) ws).
    { clear. induction ws as [|w ws IHw]; [reflexivity|]. cbn [existsb].
      rewrite IHw.
      change (contains ic (str w) (ch :: s))
        with (starts_with ic (str w) (ch :: s) || contains ic (str w) s).
      destruct (starts_with ic (str w) (ch :: s)); [reflexivity|].
      cbn [orb]. destruct (contains ic (str w) s); [|reflexivity].
      cbn [orb]. rewrite orb_true_r. reflexivity. }
    etrans; [|symmetry; exact E]. destruct (match_at _ _) as [y|].
    + rewrite (proj1 Hm (mk_is_Some _ _ eq_refl)). reflexivity.
    + destruct (existsb (fun w => starts_with ic (str w) (ch :: s)) ws) eqn:E1;
        [|reflexivity].
      destruct (proj2 Hm eq_refl) as [x Hx]. discriminate Hx.
Qed.

Lemma RegExp_test_words (ic : bool) (ws : list string) (s : jsstr) :
  ws <> [] ->
  RegExp_test (mkRegExp (words ws) ic) s = existsb (fun w => contains ic (str w) s) ws.
Proof. intros Hne. apply test_walk_words, Hne. Qed.

Lemma starts_with_take (w s : jsstr) :
  starts_with false w s = bool_decide (take (length w) s = w).
Proof.
  revert s. induction w as [|a w IH]; intros s; [reflexivity|].
  destruct s as [|ch s]; [reflexivity|]. cbn [starts_with length take].
  unfold Canonicalize. cbn [andb]. rewrite IH.
  destruct (N.eqb_spec a ch) as [->|Hne].
  - cbn [andb]. destruct (bool_decide (take (length w) s = w)) eqn:E.
    + apply bool_decide_eq_true_1 in E. rewrite E.
      rewrite bool_decide_eq_true_2; reflexivity.
    + apply bool_decide_eq_false_1 in E.
      rewrite bool_decide_eq_false_2; [reflexivity|]. intros [= H]. exact (E H).
  - cbn [andb]. rewrite bool_decide_eq_false_2; [reflexivity|].
    intros [= H _]. apply Hne. symmetry. exact H.
Qed.

Lemma contains_occurs_in (w s : jsstr) : contains false w s = occurs_in w s.
Proof.
  induction s as [|ch s IH]; cbn [contains occurs_in]; rewrite starts_with_take;
    [reflexivity | rewrite IH; reflexivity].
Qed.

Lemma canonical_lower (a ch : N) :
  (97 <= a <= 122)%N ->
  (Canonicalize true a =? Canonicalize true ch)%N = (a =? lower_char ch)%N.
Proof.
  intros Ha. unfold Canonicalize, lower_char. cbn [andb].
  rewrite (proj2 (N.leb_le 97 a)) by lia. rewrite (proj2 (N.leb_le a 122)) by lia.
  cbn [andb].
  destruct (N.leb_spec 97 ch), (N.leb_spec ch 122), (N.leb_spec 65 ch),
    (N.leb_spec ch 90); cbn [andb];
    destruct (N.eqb_spec (a - 32) (ch - 32)), (N.eqb_spec a (ch + 32)),
      (N.eqb_spec (a - 32) ch), (N.eqb_spec a ch); try reflexivity; lia.
Qed.

Lemma starts_with_lower (w s : jsstr) :
  Forall (fun a => (97 <= a <= 122)%N) w ->
  starts_with true w s = starts_with false w (map lower_char s).
Proof.
  intros Hw. revert s. induction Hw as [|a w Ha _ IH]; intros s; [reflexivity|].
  destruct s as [|ch s]; [reflexivity|]. cbn [starts_with map].
  rewrite (canonical_lower a ch Ha), IH. reflexivity.
Qed.

Lemma contains_lower (w s : jsstr) :
  Forall (fun a => (97 <= a <= 122)%N) w ->
  contains true w s = occurs_in w (map lower_char s).
Proof.
  intros Hw. rewrite <- contains_occurs_in.
  induction s as [|ch s IH]; cbn [contains map]; rewrite starts_with_lower by exact Hw;
    [reflexivity | rewrite IH; reflexivity].
Qed.

(** The test of a choice between words is a search for the words. *)
Lemma test_has_word (ws : list string) (s : jsstr) :
  ws <> [] -> RegExp_test (mkRegExp (words ws) false) s = has_word ws s.
Proof.
  intros Hne. rewrite RegExp_test_words by exact Hne. unfold has_word.
  apply existsb_eq. intros w. apply contains_occurs_in.
Qed.

Lemma occurs_in_drop (w s : jsstr) (n : nat) :
  occurs_in w (drop n s) = true -> occurs_in w s = true.
Proof.
  revert s. induction n as [|n IH]; intros s H; [rewrite drop_0 in H; exact H|].
  destruct s as [|ch s]; [exact H|]. cbn [occurs_in drop] in *.
  rewrite (IH _ H). apply orb_true_r.
Qed.

Lemma occurs_in_here (w s : jsstr) : occurs_in w (w ++ s) = true.
Proof.
  destruct w as [|a w]; destruct s as [|ch s]; cbn [occurs_in app];
    try rewrite take_app_length; try rewrite app_nil_r;
    rewrite ?bool_decide_eq_true_2; try reflexivity.
  - simpl. rewrite firstn_all. reflexivity.
  - change (a :: w ++ ch :: s) with ((a :: w) ++ ch :: s).
    rewrite take_app_length. reflexivity.
Qed.

Lemma occurs_in_suffix (a b s : jsstr) :
  occurs_in (a ++ b) s = true -> occurs_in b s = true.
Proof.
  induction s as [|ch s IH]; cbn [occurs_in]; intros H.
  - rewrite orb_false_r in H |- *. apply bool_decide_eq_true_1 in H.
    destruct a; [exact (bool_decide_eq_true_2 _ H)|]. discriminate H.
  - apply orb_true_iff in H as [H|H].
    + apply bool_decide_eq_true_1 in H.
      apply (occurs_in_drop b (ch :: s) (length a)).
      rewrite <- (take_drop (length (a ++ b)) (ch :: s)), H.
      rewrite <- app_assoc, drop_app_length. apply occurs_in_here.
    + apply orb_true_iff. right. destruct s as [|ch' s]; [|exact (IH H)].
      exact (IH H).
Qed.

(** ** Lower case *)

Lemma lower_char_outside (ch : N) : (128 <= ch)%N -> lower_char ch = ch.
Proof.
  intros H. unfold lower_char. destruct (N.leb_spec ch 90); [lia|].
  rewrite andb_false_r. reflexivity.
Qed.

Lemma starts_with_false_cons (a ch : N) (w s : jsstr) :
  starts_with false (a :: w) (ch :: s) = (a =? ch)%N && starts_with false w s.
Proof. reflexivity. Qed.

(** A word without [i] and [k] does not begin where a run begins. *)
Lemma starts_with_run (w a x : jsstr) :
  w <> [] -> Forall (fun c => ~ outside_words c) w -> a <> [] -> Forall outside_words a ->
  starts_with false w (a ++ x) = false.
Proof.
  intros Hne Hw Ha HPa. destruct w as [|c w]; [destruct Hne; reflexivity|].
  destruct a as [|u a]; [destruct Ha; reflexivity|].
  apply Forall_cons in Hw as [Hc _]. apply Forall_cons in HPa as [Hu _].
  cbn [app]. rewrite starts_with_false_cons.
  destruct (N.eqb_spec c u) as [->|_]; [destruct (Hc Hu) | reflexivity].
Qed.

Lemma starts_with_alike (x y : jsstr) :
  alike x y ->
  forall w, Forall (fun c => ~ outside_words c) w ->
    starts_with false w x = starts_with false w y.
Proof.
  induction 1 as [|c x y _ IH|a b x y Ha Hb HPa HPb _ _]; intros w Hw.
  - reflexivity.
  - destruct w as [|c0 w]; [reflexivity|]. apply Forall_cons in Hw as [_ Hw].
    rewrite !starts_with_false_cons, (IH w Hw). reflexivity.
  - destruct w as [|c0 w]; [reflexivity|].
    rewrite !starts_with_run by (assumption || discriminate). reflexivity.
Qed.

Lemma contains_run (w a x : jsstr) :
  w <> [] -> Forall (fun c => ~ outside_words c) w -> Forall outside_words a ->
  contains false w (a ++ x) = contains false w x.
Proof.
  intros Hne Hw. induction a as [|u a IH]; intros HPa; [reflexivity|].
  pose proof HPa as HPa'. apply Forall_cons in HPa' as [_ HPa'].
  cbn [app contains].
  change (u :: a ++ x) with ((u :: a) ++ x).
  rewrite (starts_with_run w (u :: a) x) by (assumption || discriminate).
  cbn [orb]. apply IH, HPa'.
Qed.

(** A word without [i] and [k] occurs in both of two texts that are
    alike, or in neither. *)
Lemma contains_alike (w x y : jsstr) :
  w <> [] -> Forall (fun c => ~ outside_words c) w ->
  alike x y -> contains false w x = contains false w y.
Proof.
  intros Hne Hw H.
  induction H as [|c x y H IH|a b x y Ha Hb HPa HPb _ IH].
  - reflexivity.
  - cbn [contains]. rewrite IH.
    rewrite (starts_with_alike _ _ (alike_cons c x y H) w Hw). reflexivity.
  - rewrite !contains_run by assumption. exact IH.
Qed.

Section StatusFacts.

Variable lower_run : jsstr -> jsstr -> jsstr -> jsstr.

(** Two facts of the Unicode tables. No character has an empty
    lower-case form; and the only characters outside ASCII whose
    lower-case form has an ASCII character are the capital I with a dot,
    U+0130, written as [i] and a combining dot, and the Kelvin sign,
    U+212A, written as [k]. *)
Hypothesis lower_run_not_empty :
  forall before run after,
    run <> [] -> Forall (fun u => (128 <= u)%N) run -> lower_run before run after <> [].
Hypothesis lower_run_units :
  forall before run after,
    Forall (fun u => (128 <= u)%N) run -> Forall outside_words (lower_run before run after).

(** On ASCII text [toLowerCase] changes the capital letters only. *)
Lemma lower_walk_ascii (s : jsstr) :
  forall before, Forall (fun ch => (ch < 128)%N) s ->
    lower_walk lower_run before [] s = map lower_char s.
Proof.
  induction s as [|ch s IH]; intros before Hs; [reflexivity|].
  apply Forall_cons in Hs as [Hch Hs]. cbn [lower_walk map].
  rewrite (proj2 (N.ltb_lt ch 128) Hch). cbn [lower_flush app].
  rewrite IH by exact Hs. reflexivity.
Qed.

(** The lower-case text is like the text with its ASCII capitals
    changed: the runs outside ASCII answer to what is written for
    them. *)
Lemma lower_walk_alike (s : jsstr) :
  forall before run,
    Forall (fun u => (128 <= u)%N) run ->
    alike (rev run ++ map lower_char s) (lower_walk lower_run before run s).
Proof.
  assert (Hflush : forall before run after x y,
            Forall (fun u => (128 <= u)%N) run -> alike x y ->
            alike (rev run ++ x) (lower_flush lower_run before run after ++ y)).
  { intros before run after x y Hrun Hxy. destruct run as [|u run]; [exact Hxy|].
    assert (Hrev : Forall (fun u => (128 <= u)%N) (rev (u :: run)))
      by (apply Forall_rev; exact Hrun).
    unfold lower_flush. apply alike_runs.
    - intros E. apply (f_equal length) in E. rewrite length_rev in E. discriminate E.
    - apply lower_run_not_empty; [|exact Hrev].
      intros E. apply (f_equal length) in E. rewrite length_rev in E. discriminate E.
    - eapply Forall_impl; [exact Hrev|]. intros c Hc. left. exact Hc.
    - apply lower_run_units. exact Hrev.
    - exact Hxy. }
  induction s as [|ch s IH]; intros before run Hrun.
  - cbn [lower_walk map].
    rewrite <- (app_nil_r (lower_flush lower_run before run [])).
    apply Hflush; [exact Hrun | constructor].
  - cbn [lower_walk map]. destruct (N.ltb_spec ch 128) as [Hch|Hch].
    + apply Hflush; [exact Hrun|]. apply alike_cons.
      exact (IH (ch :: run ++ before) [] (Forall_nil_2 _)).
    + rewrite (lower_char_outside ch Hch).
      replace (rev run ++ ch :: map lower_char s)
        with (rev (ch :: run) ++ map lower_char s)
        by (cbn [rev]; rewrite <- app_assoc; reflexivity).
      apply IH. constructor; assumption.
Qed.

(** A word of lower-case letters other than [i] and [k] is found by a
    pattern with the [i] flag where it occurs in the lower-case text. *)
Lemma contains_toLowerCase (w s : jsstr) :
  w <> [] ->
  Forall (fun a => (97 <= a <= 122)%N /\ a <> 105%N /\ a <> 107%N) w ->
  contains true w s = occurs_in w (toLowerCase lower_run s).
Proof.
  intros Hne Hw.
  assert (Hw1 : Forall (fun a => (97 <= a <= 122)%N) w)
    by (eapply Forall_impl; [exact Hw|]; intros a [H _]; exact H).
  assert (Hw2 : Forall (fun c => ~ outside_words c) w).
  { eapply Forall_impl; [exact Hw|]. intros a (H1 & H2 & H3) [H|[H|H]]; lia. }
  rewrite (contains_lower w s Hw1), <- !contains_occurs_in.
  apply (contains_alike w _ _ Hne Hw2).
  exact (lower_walk_alike s [] [] (Forall_nil_2 _)).
Qed.

Lemma resolved_words_plain :
  Forall (fun w => str w <> []
                   /\ Forall (fun a => (97 <= a <= 122)%N /\ a <> 105%N /\ a <> 107%N)
                        (str w)) resolved_words.
Proof.
  repeat constructor; try discriminate; cbn; lia.
Qed.

Lemma test_resolved_ignoring_case (s : jsstr) :
  RegExp_test (mkRegExp (words resolved_words) true) s
  = has_word resolved_words (toLowerCase lower_run s).
Proof.
  rewrite RegExp_test_words by discriminate. unfold has_word.
  pose proof resolved_words_plain as Hl. unfold resolved_words in *.
  apply Forall_cons in Hl as [[N1 H1] Hl]. apply Forall_cons in Hl as [[N2 H2] _].
  cbn [existsb].
  rewrite (contains_toLowerCase _ s N1 H1), (contains_toLowerCase _ s N2 H2). reflexivity.
Qed.

(** ** The chip *)

Lemma status_chip_eq (c st : value) (s : jsstr) :
  get_prop c (str "status") = Ok st ->
  or_text st = VStr s ->
  status_chip lower_run c
  = Ok (let status := toLowerCase lower_run s in
        if has_word refused_words status then Refused
        else if has_word resolved_words status then Resolved
        else if has_word escalated_words status then Escalated
        else Unresolved).
Proof.
  intros Hst Hs. unfold status_chip, lower_text.
  rewrite Hst. cbn [mbind outcome_bind]. rewrite Hs. cbn [mbind outcome_bind].
  rewrite !test_has_word by discriminate. cbn zeta.
  destruct (has_word refused_words _); [reflexivity|].
  destruct (has_word resolved_words _); [reflexivity|].
  destruct (has_word escalated_words _); reflexivity.
Qed.

(** X23. The chip of a complaint is decided by the words that occur in its
    status, written in lower case: a word of refusal gives the Refused
    chip whatever else the status says; otherwise [resolved] or [closed]
    give Resolved; otherwise a word of escalation gives Escalated; any
    other status gives Unresolved. The status is any string, or a falsy
    value, which counts as the empty string. *)
Theorem renderStatusChip_by_words (c st : value) (s : jsstr) :
  get_prop c (str "status") = Ok st ->
  or_text st = VStr s ->
  renderStatusChip lower_run c
  = Ok (chip_html (let status := toLowerCase lower_run s in
                   if has_word refused_words status then Refused
                   else if has_word resolved_words status then Resolved
                   else if has_word escalated_words status then Escalated
                   else Unresolved)).
Proof.
  intros Hst Hs. unfold renderStatusChip.
  rewrite (status_chip_eq c st s Hst Hs). reflexivity.
Qed.

Lemma counts_as_unresolved_eq (c st : value) (s : jsstr) :
  get_prop c (str "status") = Ok st ->
  or_text st = VStr s ->
  counts_as_unresolved c = Ok (negb (has_word resolved_words (toLowerCase lower_run s))).
Proof.
  intros Hst Hs.
  unfold counts_as_unresolved. rewrite Hst. cbn [mbind outcome_bind].
  rewrite Hs. cbn [ToString mbind outcome_bind].
  rewrite test_resolved_ignoring_case. reflexivity.
Qed.

Lemma status_chip_Ok (c : value) (k : chip) :
  status_chip lower_run c = Ok k ->
  exists st s, get_prop c (str "status") = Ok st /\ or_text st = VStr s.
Proof.
  unfold status_chip, lower_text. intros H.
  apply bind_Ok in H as (st & Hst & H). apply bind_Ok in H as (status & Hl & H).
  destruct (or_text st) as [| | | |s| |] eqn:E; try discriminate Hl.
  exists st, s. split; [exact Hst | exact E].
Qed.

(** X24. The chip and the counter agree, whatever the status. A complaint
    shown with the Resolved chip is not counted as unresolved by
    [computeMetrics], and one shown with the Escalated or the Unresolved
    chip is. *)
Theorem chip_agrees_with_counter (c : value) (k : chip) :
  status_chip lower_run c = Ok k ->
  (k = Resolved -> counts_as_unresolved c = Ok false)
  /\ (k = Escalated \/ k = Unresolved -> counts_as_unresolved c = Ok true).
Proof.
  intros H. destruct (status_chip_Ok c k H) as (st & s & Hst & Hs).
  rewrite (status_chip_eq c st s Hst Hs) in H. cbn zeta in H.
  rewrite (counts_as_unresolved_eq _ _ _ Hst Hs).
  destruct (has_word refused_words _);
    [injection H as <-; split; [discriminate | intros [H|H]; discriminate H]|].
  destruct (has_word resolved_words _);
    [injection H as <-; split; [reflexivity | intros [H|H]; discriminate H]|].
  split; [|reflexivity].
  destruct (has_word escalated_words _); injection H as <-; discriminate.
Qed.

(** X25. A status that says [Unresolved] is shown as resolved. When the
    status of a complaint contains the word [unresolved], in any case of
    letters, and no word of refusal, [renderStatusChip] returns the
    Resolved chip and [computeMetrics] does not count the complaint as
    unresolved: the word [resolved] is found inside it. *)
Theorem unresolved_is_shown_resolved (c st : value) (s : jsstr) :
  get_prop c (str "status") = Ok st ->
  or_text st = VStr s ->
  contains true (str "unresolved") s = true ->
  has_word refused_words (toLowerCase lower_run s) = false ->
  renderStatusChip lower_run c = Ok (chip_html Resolved)
  /\ counts_as_unresolved c = Ok false.
Proof.
  intros Hst Hs Hun Href.
  rewrite contains_toLowerCase in Hun;
    [|discriminate | repeat constructor; cbn; lia].
  assert (Hres : has_word resolved_words (toLowerCase lower_run s) = true).
  { unfold has_word, resolved_words. cbn [existsb].
    rewrite (occurs_in_suffix (str "un") (str "resolved") _ Hun). reflexivity. }
  unfold renderStatusChip. rewrite (status_chip_eq _ _ _ Hst Hs). cbn zeta.
  rewrite Href, Hres.
  rewrite (counts_as_unresolved_eq _ _ _ Hst Hs), Hres. split; reflexivity.
Qed.

End StatusFacts.

Lemma unchanged_run_not_empty (before run after : jsstr) :
  run <> [] -> Forall (fun u => (128 <= u)%N) run -> unchanged_run before run after <> [].
Proof. intros H _. exact H. Qed.

Lemma unchanged_run_units (before run after : jsstr) :
  Forall (fun u => (128 <= u)%N) run -> Forall outside_words (unchanged_run before run after).
Proof.
  intros H. unfold unchanged_run. eapply Forall_impl; [exact H|].
  intros u Hu. left. exact Hu.
Qed.

Lemma renderStatusChip_by_words_witness :
  let c := with_status "Refused; case closed" in
  get_prop c (str "status") = Ok (text "Refused; case closed")
  /\ or_text (text "Refused; case closed") = VStr (str "Refused; case closed")
  /\ renderStatusChip unchanged_run c = Ok (chip_html Refused).
Proof.
  intros c.
  assert (Hst : get_prop c (str "status") = Ok (text "Refused; case closed"))
    by reflexivity.
  assert (Hs : or_text (text "Refused; case closed") = VStr (str "Refused; case closed"))
    by reflexivity.
  split; [exact Hst|]. split; [exact Hs|].
  rewrite (renderStatusChip_by_words unchanged_run c _ _ Hst Hs). vm_compute. reflexivity.
Defined.

Lemma chip_agrees_with_counter_witness :
  status_chip unchanged_run (with_status "Escalated to PHSO") = Ok Escalated
  /\ counts_as_unresolved (with_status "Escalated to PHSO") = Ok true.
Proof.
  assert (H : status_chip unchanged_run (with_status "Escalated to PHSO") = Ok Escalated)
    by (vm_compute; reflexivity).
  split; [exact H|].
  exact (proj2 (chip_agrees_with_counter unchanged_run unchanged_run_not_empty
                  unchanged_run_units _ _ H) (or_introl eq_refl)).
Defined.

Lemma unresolved_is_shown_resolved_witness :
  let c := obj [("status"%string, VStr dashed_status)] in
  get_prop c (str "status") = Ok (VStr dashed_status)
  /\ or_text (VStr dashed_status) = VStr dashed_status
  /\ contains true (str "unresolved") dashed_status = true
  /\ has_word refused_words (toLowerCase unchanged_run dashed_status) = false
  /\ renderStatusChip unchanged_run c = Ok (chip_html Resolved)
  /\ counts_as_unresolved c = Ok false.
Proof.
  intros c.
  assert (Hst : get_prop c (str "status") = Ok (VStr dashed_status)) by reflexivity.
  assert (Hs : or_text (VStr dashed_status) = VStr dashed_status) by reflexivity.
  assert (Hun : contains true (str "unresolved") dashed_status = true)
    by (vm_compute; reflexivity).
  assert (Href : has_word refused_words (toLowerCase unchanged_run dashed_status) = false)
    by (vm_compute; reflexivity).
  split; [exact Hst|]. split; [exact Hs|]. split; [exact Hun|]. split; [exact Href|].
  exact (unresolved_is_shown_resolved unchanged_run unchanged_run_not_empty
           unchanged_run_units c _ _ Hst Hs Hun Href).
Defined.

(* ===================================================================== *)
(** * Base64 of a buffer *)
(* ===================================================================== *)

(** Induction three bytes at a time. *)
Lemma triples_ind (P : list N -> Prop) :
  P [] -> (forall a, P [a]) -> (forall a b, P [a; b]) ->
  (forall a b c rest, P rest -> P (a :: b :: c :: rest)) ->
  forall l, P l.
Proof.
  intros H0 H1 H2 H3.
  assert (H : forall l, P l /\ (forall a, P (a :: l)) /\ (forall a b, P (a :: b :: l))).
  { induction l as [|c l (IH0 & IH1 & IH2)]; [auto|].
    split; [apply IH1|]. split; [intros a; apply IH2|].
    intros a b. apply H3, IH0. }
  intros l. apply H.
Qed.

Lemma base64_encode_eq (bytes : list N) :
  base64_encode bytes
  = map base64_char (base64_values bytes) ++ replicate (padding_of bytes) base64_pad.
Proof.
  induction bytes as [|a|a b|a b c rest IH] using triples_ind; try reflexivity.
  cbn [base64_encode base64_values padding_of map app]. rewrite IH. reflexivity.
Qed.

Lemma base64_values_small (bytes : list N) :
  Forall (fun b => (b <= 255)%N) bytes ->
  Forall (fun v => (v < 64)%N) (base64_values bytes).
Proof.
  induction bytes as [|a|a b|a b c rest IH] using triples_ind; intros H;
    cbn [base64_values].
  - constructor.
  - apply Forall_cons in H as [Ha _]. repeat constructor; nlia.
  - apply Forall_cons in H as [Ha H]. apply Forall_cons in H as [Hb _].
    repeat constructor; nlia.
  - apply Forall_cons in H as [Ha H]. apply Forall_cons in H as [Hb H].
    apply Forall_cons in H as [Hc H].
    repeat (constructor; [nlia|]). exact (IH H).
Qed.

Lemma base64_bytes_values (bytes : list N) :
  Forall (fun b => (b <= 255)%N) bytes ->
  base64_bytes (base64_values bytes) = bytes.
Proof.
  induction bytes as [|a|a b|a b c rest IH] using triples_ind; intros H;
    cbn [base64_values base64_bytes].
  - reflexivity.
  - apply Forall_cons in H as [Ha _]. f_equal. nlia.
  - apply Forall_cons in H as [Ha H]. apply Forall_cons in H as [Hb _].
    f_equal; [nlia|]. f_equal. nlia.
  - apply Forall_cons in H as [Ha H]. apply Forall_cons in H as [Hb H].
    apply Forall_cons in H as [Hc H]. rewrite (IH H).
    f_equal; [nlia|]. f_equal; [nlia|]. f_equal. nlia.
Qed.

Lemma base64_lengths (bytes : list N) :
  length (base64_values bytes) + padding_of bytes = 4 * ((length bytes + 2) / 3)
  /\ padding_of bytes <= 2
  /\ (length (base64_values bytes) + padding_of bytes) mod 4 = 0
  /\ length (base64_values bytes) mod 4 <> 1.
Proof.
  induction bytes as [|a|a b|a b c rest (IH1 & IH2 & IH3 & IH4)] using triples_ind;
    try (cbn; repeat split; lia).
  cbn [base64_values padding_of length].
  replace (S (S (S (length rest))) + 2) with (length rest + 2 + 1 * 3) by lia.
  rewrite Nat.div_add by lia.
  replace (S (S (S (S (length (base64_values rest))))) + padding_of rest)
    with (length (base64_values rest) + padding_of rest + 1 * 4) by lia.
  replace (S (S (S (S (length (base64_values rest))))))
    with (length (base64_values rest) + 1 * 4) by lia.
  rewrite !Nat.Div0.mod_add. repeat split; try assumption. lia.
Qed.

(** The characters of the alphabet: each gives back its value, none is
    the padding character or white space. *)
Lemma base64_char_facts (v : N) :
  (v < 64)%N ->
  base64_index (base64_char v) = Some v
  /\ base64_char v <> base64_pad
  /\ ascii_whitespace (base64_char v) = false.
Proof.
  intros Hv.
  assert (Hall : forallb (fun i =>
                   bool_decide (base64_index (base64_char (N.of_nat i)) = Some (N.of_nat i))
                   && negb (base64_char (N.of_nat i) =? base64_pad)%N
                   && negb (ascii_whitespace (base64_char (N.of_nat i))))
                   (seq 0 64) = true) by (vm_compute; reflexivity).
  rewrite forallb_forall in Hall. specialize (Hall (N.to_nat v)).
  rewrite N2Nat.id in Hall.
  assert (Hin : In (N.to_nat v) (seq 0 64)) by (apply in_seq; lia).
  apply Hall in Hin. apply andb_true_iff in Hin as [Hin H3].
  apply andb_true_iff in Hin as [H1 H2].
  apply bool_decide_eq_true_1 in H1. apply negb_true_iff in H2, H3.
  apply N.eqb_neq in H2. auto.
Qed.

Lemma mapM_base64_index (values : list N) :
  Forall (fun v => (v < 64)%N) values ->
  mapM base64_index (map base64_char values) = Some values.
Proof.
  induction 1 as [|v values Hv _ IH]; [reflexivity|].
  cbn [map mapM]. rewrite (proj1 (base64_char_facts v Hv)). simpl. rewrite IH.
  reflexivity.
Qed.

Lemma strip_padding_spec (l : jsstr) (p : nat) :
  Forall (fun ch => ch <> base64_pad) l -> p <= 2 ->
  strip_padding (l ++ replicate p base64_pad) = l.
Proof.
  intros Hl Hp. unfold strip_padding. rewrite rev_app_distr.
  assert (Hrev : Forall (fun ch => ch <> base64_pad) (rev l)).
  { apply Forall_forall. intros ch Hin. rewrite Forall_forall in Hl.
    apply Hl. apply list_elem_of_In, in_rev, list_elem_of_In, Hin. }
  destruct p as [|[|[|p]]]; [| | |lia]; cbn [replicate rev app].
  - rewrite app_nil_r. destruct (rev l) as [|p1 [|p2 r]] eqn:E.
    + apply (f_equal (@rev N)) in E. rewrite rev_involutive in E. subst l. reflexivity.
    + apply Forall_cons in Hrev as [H1 _]. rewrite (proj2 (N.eqb_neq _ _) H1).
      reflexivity.
    + apply Forall_cons in Hrev as [H1 _]. rewrite (proj2 (N.eqb_neq _ _) H1).
      reflexivity.
  - rewrite N.eqb_refl. destruct (rev l) as [|p2 r] eqn:E.
    + apply (f_equal (@rev N)) in E. rewrite rev_involutive in E. subst l. reflexivity.
    + apply Forall_cons in Hrev as [H2 _]. rewrite (proj2 (N.eqb_neq _ _) H2).
      apply (f_equal (@rev N)) in E. rewrite rev_involutive in E.
      symmetry. exact E.
  - rewrite !N.eqb_refl. apply rev_involutive.
Qed.

(** What [btoa] writes, [atob] reads. *)
Lemma atob_base64_encode (bytes : list N) :
  Forall (fun b => (b <= 255)%N) bytes ->
  atob (base64_encode bytes) = Ok bytes.
Proof.
  intros Hb. rewrite base64_encode_eq.
  pose proof (base64_values_small bytes Hb) as Hsmall.
  destruct (base64_lengths bytes) as (_ & Hp & Hmod & Hne).
  set (values := base64_values bytes) in *. set (p := padding_of bytes) in *.
  assert (Hchars : Forall (fun ch => ch <> base64_pad) (map base64_char values)).
  { apply Forall_map. eapply Forall_impl; [exact Hsmall|].
    intros v Hv. apply (base64_char_facts v Hv). }
  assert (Hws : List.filter (fun ch => negb (ascii_whitespace ch))
                  (map base64_char values ++ replicate p base64_pad)
                = map base64_char values ++ replicate p base64_pad).
  { apply forallb_filter_id. apply forallb_forall. intros ch Hin.
    apply in_app_or in Hin as [Hin|Hin].
    - apply in_map_iff in Hin as (v & <- & Hv). rewrite Forall_forall in Hsmall.
      rewrite (proj2 (proj2 (base64_char_facts v (Hsmall v (proj2 (list_elem_of_In _ _) Hv))))).
      reflexivity.
    - apply list_elem_of_In, elem_of_replicate in Hin as [-> _]. reflexivity. }
  unfold atob. rewrite Hws.
  assert (Hlen : length (map base64_char values ++ replicate p base64_pad) mod 4 = 0).
  { rewrite length_app, length_map, length_replicate. exact Hmod. }
  rewrite Hlen. cbn [Nat.eqb]. rewrite (strip_padding_spec _ p Hchars Hp).
  rewrite length_map.
  destruct (length values mod 4 =? 1) eqn:E; [apply Nat.eqb_eq in E; destruct (Hne E)|].
  rewrite (mapM_base64_index values Hsmall).
  unfold values. rewrite (base64_bytes_values bytes Hb). reflexivity.
Qed.

(** X26. [arrayBufferToBase64] returns for every buffer: no byte is refused
    by [btoa]. The text has four characters for every three bytes, the
    last group being filled up, and [atob] gives the bytes back, one
    character for each. *)
Theorem arrayBufferToBase64_decodes (buffer : list Byte.byte) :
  exists text,
    arrayBufferToBase64 buffer = Ok text
    /\ length text = 4 * ((length buffer + 2) / 3)
    /\ atob text = Ok (map Byte.to_N buffer).
Proof.
  assert (Hb : Forall (fun b => (b <= 255)%N) (map Byte.to_N buffer)).
  { apply Forall_map, Forall_forall. intros b _.
    pose proof (Byte.to_N_bounded b). lia. }
  exists (base64_encode (map Byte.to_N buffer)). split; [|split].
  - unfold arrayBufferToBase64, btoa.
    rewrite (proj2 (forallb_forall _ _)); [reflexivity|].
    intros ch Hin. rewrite Forall_forall in Hb.
    apply N.leb_le, Hb, list_elem_of_In, Hin.
  - rewrite base64_encode_eq, length_app, length_map, length_replicate.
    rewrite (proj1 (base64_lengths _)), length_map. reflexivity.
  - apply atob_base64_encode, Hb.
Qed.

(** The text of the four bytes ff d8 ff e0. *)
Example arrayBufferToBase64_sample :
  arrayBufferToBase64 [Byte.xff; Byte.xd8; Byte.xff; Byte.xe0] = Ok (str "/9j/4A==").
Proof. vm_compute. reflexivity. Qed.
